(** * Secure and Private AI notebooks: the leave-one-out databases and the
      MNIST classifier

    The repository is a set of notebooks.  Two of them carry the logic that
    is verified here:

    - [differential_privacy/intro_differential_privacy.ipynb] builds, from a
      0/1 vector [ori_vec], one "parallel database" per drawn index by
      slicing around the index and concatenating the two slices, and stacks
      the databases into one matrix;
    - [Pytorch/Part 3 - Training Neural Networks (Exercises).ipynb] builds a
      feed-forward classifier with [nn.Sequential] and trains it with the
      usual zero_grad / forward / loss / backward / step loop.

    The notebooks are written against the tensor library's public interface.
    The interface is embedded as far as the cells use it: dense tensors with
    their sizes, slicing and selection along dimension 0, [torch.cat],
    [unsqueeze], the elementwise comparison, and the layers of the
    classifier.  The cells themselves are then transcribed line by line:

    - [Torch]: tensor values and the operations on them;
    - [DP]: the cells of the differential-privacy notebook on tensor values;
    - [Store]: the same cell In[20] on tensor objects that share storages,
      to state what the cell leaves untouched;
    - [NN]: the layers and the classifier;
    - [Training]: the training loop as a sequence of framework calls.

    What is random in the notebooks (the samples of [torch.rand], the
    indices of [random_], the initial parameters, the shuffled batches) is
    an input of the model. *)

From Stdlib Require Import ZArith Lia PrimFloat.
From stdpp Require Import base tactics option list numbers.

Local Open Scope Z_scope.

(** ** Dense tensors (value semantics) *)

Module Torch.

(** A tensor value: its sizes (what [t.size()] prints) and its elements in
    row-major order. *)
Record tensor (A : Type) : Type := Tensor { sizes : list Z; data : list A }.
Arguments Tensor {A} _ _.
Arguments sizes {A} _.
Arguments data {A} _.

(** Length of a list as an integer, the unit every size is counted in. *)
Definition len {A} (l : list A) : Z := Z.of_nat (length l).

(** Number of elements of a tensor of the given sizes. *)
Definition numel_of (sz : list Z) : Z := foldr Z.mul 1 sz.

(** A tensor is well formed when no size is negative and [data] holds
    exactly the elements the sizes announce. *)
Definition wf {A} (t : tensor A) : bool :=
  forallb (λ s, 0 <=? s) (sizes t) && (len (data t) =? numel_of (sizes t)).

(** [t.dim()] and [len(t)]. *)
Definition dim {A} (t : tensor A) : Z := len (sizes t).

Definition tensor_len {A} (t : tensor A) : option Z := head (sizes t).

(** Bounds of a slice with step 1, as Python's [slice.indices] computes
    them: a negative bound counts from the end, and both are clamped into
    [0, n]. *)
Definition slice_bound (n i : Z) : Z :=
  if i <? 0 then Z.max 0 (i + n) else Z.min i n.

(** [t[start:stop]] and, with [stop = None], [t[start::]]: the slice along
    dimension 0.  A zero-dimensional tensor cannot be sliced. *)
Definition slice {A} (t : tensor A) (start : Z) (stop : option Z)
  : option (tensor A) :=
  match sizes t with
  | [] => None
  | n :: rest =>
      let a := slice_bound n start in
      let b := from_option (slice_bound n) n stop in
      let m := Z.max 0 (b - a) in
      let stride := numel_of rest in
      Some (Tensor (m :: rest)
              (take (Z.to_nat (m * stride))
                 (drop (Z.to_nat (a * stride)) (data t))))
  end.

(** [t[k]]: selection along dimension 0, with Python's negative indices;
    out of range is an IndexError. *)
Definition select {A} (t : tensor A) (k : Z) : option (tensor A) :=
  match sizes t with
  | [] => None
  | n :: rest =>
      let k' := if k <? 0 then k + n else k in
      let stride := numel_of rest in
      if (0 <=? k') && (k' <? n)
      then Some (Tensor rest
                   (take (Z.to_nat stride)
                      (drop (Z.to_nat (k' * stride)) (data t))))
      else None
  end.

(** [t.item()]: the value of a tensor holding a single element. *)
Definition item {A} (t : tensor A) : option A :=
  match data t with
  | [x] => Some x
  | _ => None
  end.

(** [t.unsqueeze(0)]: a new leading dimension of size 1. *)
Definition unsqueeze0 {A} (t : tensor A) : tensor A :=
  Tensor (1 :: sizes t) (data t).

(** The one-dimensional tensor without elements, of size [(0,)], which
    [torch.cat] passes over whatever the other shapes are. *)
Definition legacy_empty {A} (t : tensor A) : bool :=
  match sizes t with
  | [n] => n =? 0
  | _ => false
  end.

Definition same_trailing {A} (rest : list Z) (t : tensor A) : bool :=
  match sizes t with
  | [] => false
  | _ :: r => bool_decide (r = rest)
  end.

Definition dim0 {A} (t : tensor A) : Z := default 0 (head (sizes t)).

(** [torch.cat(ts, 0)]: an empty sequence is refused, ((0,))-sized tensors
    are skipped, zero-dimensional tensors are refused, and the remaining
    tensors must agree on every size but the first. *)
Definition cat {A} (ts : list (tensor A)) : option (tensor A) :=
  match ts with
  | [] => None
  | _ :: _ =>
      match List.filter (λ t, negb (legacy_empty t)) ts with
      | [] => Some (Tensor [0] [])
      | t :: us =>
          match sizes t with
          | [] => None
          | _ :: rest =>
              if forallb (same_trailing rest) us
              then Some (Tensor (foldr Z.add 0 (dim0 <$> (t :: us)) :: rest)
                           (concat (data <$> (t :: us))))
              else None
          end
      end
  end.

(** [t > c] for a float tensor and a Python float: elementwise, with a
    one-byte 0/1 result.  The samples are single-precision in the library;
    every single-precision value is a double-precision value and the
    threshold used is exact, so the comparison is the one on doubles. *)
Definition gt (t : tensor float) (c : float) : tensor Z :=
  Tensor (sizes t) ((λ x, if PrimFloat.ltb c x then 1 else 0) <$> data t).

(** A zero-dimensional tensor, such as the elements a loop over a vector
    goes through. *)
Definition scalar {A} (x : A) : tensor A := Tensor [] [x].

(** Element [j] of a tensor as a value: [t[j].item()]. *)
Definition elem {A} (t : tensor A) (j : Z) : option A :=
  select t j ≫= item.

(** Addition of 64-bit signed integers, as on the elements of a
    [LongTensor]. *)
Definition wrap64 (z : Z) : Z :=
  (z + 2 ^ 63) mod 2 ^ 64 - 2 ^ 63.

Definition add64 (a b : Z) : Z := wrap64 (a + b).

(** [t + c] on a [LongTensor]. *)
Definition add_scalar (t : tensor Z) (c : Z) : tensor Z :=
  Tensor (sizes t) ((λ x, add64 x c) <$> data t).

End Torch.

(** ** The differential-privacy notebook, cell by cell *)

Module DP.
Import Torch.

(** [torch.rand(n)]: what is drawn is an input of the model; this is the
    shape the call guarantees. *)
Definition is_rand (n : Z) (t : tensor float) : bool :=
  bool_decide (sizes t = [n]) && (len (data t) =? n).

(** [torch.LongTensor(n).random_(lo, hi)]: [n] integers drawn, with
    replacement, from [lo, hi). *)
Definition is_random_ (lo hi n : Z) (t : tensor Z) : bool :=
  bool_decide (sizes t = [n]) && (len (data t) =? n)
  && forallb (λ x, (lo <=? x) && (x <? hi)) (data t).

(** [for x in t]: the selections [t[0]], [t[1]], ... in order. *)
Definition iter {A} (t : tensor A) : option (list (tensor A)) :=
  n ← tensor_len t; mapM (select t) (seqZ 0 n).

(** In[2]: [ori_vec = (torch.rand(5000) > 0.5)]. *)
Definition ori_vec (rand : tensor float) : tensor Z := gt rand 0.5%float.

(** In[5]: [for i in range(5000): db = ori_vec[0: i]], from the value [db]
    has before the loop to the one it has after it. *)
Definition slicing_loop {A} (ori_vec : tensor A) (n : Z) (db : tensor A)
  : option (tensor A) :=
  foldl (λ st i, _ ← st; slice ori_vec 0 (Some i)) (Some db) (seqZ 0 n).

(** In[6]: [db = torch.cat((ori_vec[0:i], ori_vec[i+1::]), 0)], for the
    Python integer [i]. *)
Definition leave_one_out {A} (ori_vec : tensor A) (i : Z)
  : option (tensor A) :=
  a ← slice ori_vec 0 (Some i);
  b ← slice ori_vec (i + 1) None;
  cat [a; b].

(** In[20], the loop body's first line:
    [new_db = torch.cat((ori_vec[0:seq], ori_vec[seq+1::]), 0)], where [seq]
    is a zero-dimensional [LongTensor] used as an index. *)
Definition new_db {A} (ori_vec : tensor A) (seq : tensor Z)
  : option (tensor A) :=
  i ← item seq;
  a ← slice ori_vec 0 (Some i);
  j ← item (add_scalar seq 1);
  b ← slice ori_vec j None;
  cat [a; b].

(** In[20], the loop: [randomized_db.append(new_db.unsqueeze(0))] for every
    [seq], from the list before the loop to the list after it. *)
Fixpoint construction_loop {A} (ori_vec : tensor A) (seqs : list (tensor Z))
    (randomized_db : list (tensor A)) : option (list (tensor A)) :=
  match seqs with
  | [] => Some randomized_db
  | seq :: seqs' =>
      db ← new_db ori_vec seq;
      construction_loop ori_vec seqs' (randomized_db ++ [unsqueeze0 db])
  end.

(** In[20]: [randomized_db = []] followed by the loop. *)
Definition randomized_db {A} (ori_vec : tensor A) (random_seq_index : tensor Z)
  : option (list (tensor A)) :=
  seqs ← iter random_seq_index;
  construction_loop ori_vec seqs [].

(** In[20]: [randomized_db_torch = torch.cat(randomized_db)]. *)
Definition randomized_db_torch {A} (ori_vec : tensor A)
    (random_seq_index : tensor Z) : option (tensor A) :=
  randomized_db ori_vec random_seq_index ≫= cat.

(** Concrete draws on which the statements below are exercised: samples
    on both sides of the threshold, a sequence of indices that visits
    several records, and the sequence that draws record 0 every time. *)
Definition rand_example : tensor float :=
  Tensor [5000] ((λ k, if Z.even k then 0.25%float else 0.75%float)
                   <$> seqZ 0 5000).

Definition random_seq_index_example : tensor Z :=
  Tensor [5000] ((λ k, (k * 7) `mod` 5000) <$> seqZ 0 5000).

Definition repeated_index : tensor Z :=
  Tensor [5000] (replicate 5000 0).

Definition small_vec : tensor Z := Tensor [5] [1; 0; 0; 1; 1].

End DP.

(** ** Tensors as views of storages

    A tensor object does not own its elements: it reads a storage from an
    offset on.  Slicing, selecting and unsqueezing make a new object over
    the same storage; [torch.cat] and arithmetic write a new storage.  The
    cell of In[20] is transcribed a second time at this level, where it can
    be asked what the cell does to the storages it was given. *)

Module Store.
Import Torch.

(** A (contiguous) tensor object. *)
Record view : Type := View { storage : nat; offset : Z; vsizes : list Z }.

(** The storages in existence, by number; they hold integers, of whatever
    integer type.  A new storage takes the next number. *)
Abbreviation heap := (list (list Z)).

(** The tensor value an object stands for. *)
Definition read (h : heap) (x : view) : option (tensor Z) :=
  st ← h !! storage x;
  let k := numel_of (vsizes x) in
  if forallb (λ s, 0 <=? s) (vsizes x)
     && (0 <=? offset x) && (offset x + k <=? len st)
  then Some (Tensor (vsizes x)
               (take (Z.to_nat k) (drop (Z.to_nat (offset x)) st)))
  else None.

(** Computations over the storages that may fail. *)
Definition M (X : Type) : Type := heap → option (X * heap).

#[global] Instance M_ret : MRet M := λ X x h, Some (x, h).
#[global] Instance M_bind : MBind M := λ X Y f m h,
  match m h with
  | Some (x, h') => f x h'
  | None => None
  end.

Definition lift {X} (o : option X) : M X := λ h, x ← o; Some (x, h).

Definition load (x : view) : M (tensor Z) := λ h, lift (read h x) h.

Definition alloc (t : tensor Z) : M view :=
  λ h, Some (View (length h) 0 (sizes t), h ++ [data t]).

(** [x[start:stop]], [x[k]] and [x.unsqueeze(0)]: new objects over the
    storage of [x]. *)
Definition vslice (x : view) (start : Z) (stop : option Z) : option view :=
  match vsizes x with
  | [] => None
  | n :: rest =>
      let a := slice_bound n start in
      let b := from_option (slice_bound n) n stop in
      let m := Z.max 0 (b - a) in
      Some (View (storage x) (offset x + a * numel_of rest) (m :: rest))
  end.

Definition vselect (x : view) (k : Z) : option view :=
  match vsizes x with
  | [] => None
  | n :: rest =>
      let k' := if k <? 0 then k + n else k in
      if (0 <=? k') && (k' <? n)
      then Some (View (storage x) (offset x + k' * numel_of rest) rest)
      else None
  end.

Definition vunsqueeze0 (x : view) : view :=
  View (storage x) (offset x) (1 :: vsizes x).

(** [for s in x]. *)
Definition viter (x : view) : option (list view) :=
  n ← head (vsizes x); mapM (vselect x) (seqZ 0 n).

(** [x.item()], [torch.cat(xs, 0)] and [x + c]: the operands are read, and
    the two that return tensors write their result to a new storage. *)
Definition vitem (x : view) : M Z := t ← load x; lift (item t).

Fixpoint load_all (xs : list view) : M (list (tensor Z)) :=
  match xs with
  | [] => mret []
  | x :: xs' => t ← load x; ts ← load_all xs'; mret (t :: ts)
  end.

Definition vcat (xs : list view) : M view :=
  ts ← load_all xs; t ← lift (cat ts); alloc t.

Definition vadd_scalar (x : view) (c : Z) : M view :=
  t ← load x; alloc (add_scalar t c).

(** In[20], the loop body's first line. *)
Definition new_db (ori_vec seq : view) : M view :=
  i ← vitem seq;
  a ← lift (vslice ori_vec 0 (Some i));
  s ← vadd_scalar seq 1;
  j ← vitem s;
  b ← lift (vslice ori_vec j None);
  vcat [a; b].

(** In[20], the loop. *)
Fixpoint construction_loop (ori_vec : view) (seqs : list view)
    (randomized_db : list view) : M (list view) :=
  match seqs with
  | [] => mret randomized_db
  | seq :: seqs' =>
      db ← new_db ori_vec seq;
      construction_loop ori_vec seqs' (randomized_db ++ [vunsqueeze0 db])
  end.

(** In[20], from the objects [ori_vec] and [random_seq_index] to the list
    [randomized_db] and the object [randomized_db_torch]. *)
Definition cell20 (ori_vec random_seq_index : view) : M (list view * view) :=
  seqs ← lift (viter random_seq_index);
  randomized_db ← construction_loop ori_vec seqs [];
  randomized_db_torch ← vcat randomized_db;
  mret (randomized_db, randomized_db_torch).

(** Two states of the storages before In[20] runs, with the same vector
    and the same indices at different places among other storages. *)
Definition heap_a : heap := [[1; 0; 0; 1; 1]; [0; 4; 2]].
Definition ori_vec_a : view := View 0 0 [5].
Definition random_seq_index_a : view := View 1 0 [3].

Definition heap_b : heap := [[7; 7]; [9; 0; 4; 2; 9]; []; [0; 1; 0; 0; 1; 1]].
Definition ori_vec_b : view := View 3 1 [5].
Definition random_seq_index_b : view := View 1 1 [3].

(** The storages as the notebook has them before In[20], for the example
    draws. *)
Definition notebook_heap : heap :=
  [data (DP.ori_vec DP.rand_example); data DP.random_seq_index_example].
Definition notebook_ori_vec : view := View 0 0 [5000].
Definition notebook_random_seq_index : view := View 1 0 [5000].

End Store.

(** ** The classifier of the training notebook

    The layers compute on floating-point numbers.  Their arithmetic is left
    as parameters: what is modelled is how each layer maps a tensor, with
    its sizes, to a tensor, and which inputs it refuses. *)

Module NN.
Import Torch.

Section Layers.
Context {R : Type}.
Variables (Rzero : R) (Radd Rmul Rsub : R → R → R) (Rrelu Rexp Rlog : R → R).

(** The first [k] rows, of [c] elements each, of data in row-major order. *)
Fixpoint rows_of (c k : nat) (l : list R) : list (list R) :=
  match k with
  | O => []
  | S k' => take c l :: rows_of c k' (drop c l)
  end.

Definition Rsum (l : list R) : R := foldr Radd Rzero l.

Definition dot (a b : list R) : R := Rsum (zip_with Rmul a b).

(** [nn.Linear]: the module holds a weight of sizes (out_features,
    in_features) and a bias of sizes (out_features). *)
Record Linear : Type := MkLinear {
  in_features : Z;
  out_features : Z;
  weight : tensor R;
  bias : tensor R
}.

(** [nn.Linear(i, o)], given the values the initialisation draws. *)
Definition nn_Linear (i o : Z) (w b : list R) : Linear :=
  MkLinear i o (Tensor [o; i] w) (Tensor [o] b).

(** One row through [x W^T + b]. *)
Definition affine (W : list (list R)) (b : list R) (row : list R) : list R :=
  zip_with Radd (dot row <$> W) b.

(** [F.linear(input, weight, bias)]: the last size of the input must be
    the second size of the weight, and the bias, as [nn.Linear] makes it,
    has one element per row of the weight; every row of the input becomes a
    row of as many elements as the weight has rows.  The order in which the
    framework adds up a dot product is not modelled: [Rsum] is one order. *)
Definition linear_forward (l : Linear) (x : tensor R) : option (tensor R) :=
  match sizes (weight l), sizes (bias l), reverse (sizes x) with
  | [o; i], [ob], last :: init =>
      if (last =? i) && (ob =? o)
      then
        let W := rows_of (Z.to_nat i) (Z.to_nat o) (data (weight l)) in
        let rows :=
          rows_of (Z.to_nat i) (Z.to_nat (numel_of init)) (data x) in
        Some (Tensor (reverse init ++ [o])
                (concat (affine W (data (bias l)) <$> rows)))
      else None
  | _, _, _ => None
  end.

(** [nn.ReLU]: elementwise. *)
Definition relu_forward (x : tensor R) : tensor R :=
  Tensor (sizes x) (Rrelu <$> data x).

(** [nn.LogSoftmax(dim)]: every element minus the logarithm of the sum of
    the exponentials along dimension [dim] at its position. *)
Definition log_softmax_forward (d : Z) (x : tensor R) : option (tensor R) :=
  let d' := if d <? 0 then d + dim x else d in
  if (0 <=? d') && (d' <? dim x)
  then
    let C := Z.to_nat (default 0 (sizes x !! Z.to_nat d')) in
    let inner := Z.to_nat (numel_of (drop (S (Z.to_nat d')) (sizes x))) in
    let lse (p : nat) : R :=
      let base := (p / (C * inner) * (C * inner) + p `mod` inner)%nat in
      Rlog (Rsum ((λ c, Rexp (default Rzero (data x !! (base + c * inner)%nat)))
                    <$> seq 0 C)) in
    Some (Tensor (sizes x) (imap (λ p xp, Rsub xp (lse p)) (data x)))
  else None.

(** The modules the notebook puts in [nn.Sequential]. *)
Inductive module : Type :=
  | Linear_ (l : Linear)
  | ReLU
  | LogSoftmax (d : Z).

Definition module_forward (m : module) (x : tensor R) : option (tensor R) :=
  match m with
  | Linear_ l => linear_forward l x
  | ReLU => Some (relu_forward x)
  | LogSoftmax d => log_softmax_forward d x
  end.

(** [nn.Sequential(ms)(x)]: the modules in order, each on the output of
    the one before. *)
Fixpoint Sequential (ms : list module) (x : tensor R) : option (tensor R) :=
  match ms with
  | [] => Some x
  | m :: ms' => y ← module_forward m x; Sequential ms' y
  end.

(** Part 3, In[4] and the training cell:
    [nn.Sequential(nn.Linear(784, 128), nn.ReLU(), nn.Linear(128, 64),
                   nn.ReLU(), nn.Linear(64, 10), nn.LogSoftmax(dim=1))],
    for given values of the three layers' parameters. *)
Definition model (w1 b1 w2 b2 w3 b3 : list R) : list module :=
  [Linear_ (nn_Linear 784 128 w1 b1); ReLU;
   Linear_ (nn_Linear 128 64 w2 b2); ReLU;
   Linear_ (nn_Linear 64 10 w3 b3); LogSoftmax 1].

(** The parameter values have the lengths the layer sizes call for. *)
Definition is_parameters (w1 b1 w2 b2 w3 b3 : list R) : bool :=
  (len w1 =? 128 * 784) && (len b1 =? 128)
  && (len w2 =? 64 * 128) && (len b2 =? 64)
  && (len w3 =? 10 * 64) && (len b3 =? 10).

(** A batch of [B] flattened images. *)
Definition is_batch (B : Z) (x : tensor R) : bool :=
  bool_decide (sizes x = [B; 784]) && (len (data x) =? B * 784).

End Layers.

(** A batch of 64 images, the loader's batch size, and parameter values of
    the right lengths, over the integers, on which the statement about the
    classifier is exercised. *)
Definition example_batch : tensor Z :=
  Tensor [64; 784] (replicate (Z.to_nat (64 * 784)) 1).

Definition constant_parameters (n : Z) : list Z := replicate (Z.to_nat n) 0.

End NN.

(** ** The training loop of the training notebook

    The loop calls the framework in a fixed order.  The framework's
    computations (the network, the loss, the gradients, the update rule) are
    parameters, and they are partial: a call can refuse its input, as the
    criterion does with a label that is no class, and then it raises, the
    loop stops there, and what the calls before it did to the weights and
    to the gradient buffers stays done.  Each call that returns records
    itself in a trace, so that the order of the calls can be stated. *)

Module Training.

(** What stops a run: an error raised by a call of the framework, or the
    division by [len(trainloader)] when the loader has no batch. *)
Inductive exn : Type :=
  | FrameworkError
  | ZeroDivisionError.

Inductive outcome (X : Type) : Type :=
  | Returned (x : X)
  | Raised (e : exn).

Arguments Returned {X} x.
Arguments Raised {X} e.

Section Loop.
Context {Params Grads Images Labels Output Scalar : Type}.

(** [optimizer.zero_grad()] zeroes the buffers that exist and refuses
    nothing. *)
Variable zero_grads : Grads → Grads.
Variable flatten : Images → option Images.
Variable network : Params → Images → option Output.
Variable nll : Output → Labels → option Scalar.
(** Gradients of the loss of a batch at given weights, added to the
    buffers. *)
Variable gradient : Params → Images → Labels → Grads → option Grads.
Variable sgd : Params → Grads → option Params.
Variables (zero : Scalar) (add : Scalar → Scalar → Scalar).
Variable div : Scalar → nat → Scalar.

(** A framework call, with the weights it ran on: a backward pass records
    the weights its graph was built with and the weights in place when it
    runs; a step, the weights before and after. *)
Inductive event : Type :=
  | ZeroGrad
  | View
  | Forward (p : Params)
  | Criterion
  | Backward (graph current : Params)
  | Step (before after : Params)
  | Item
  | Print (x : Scalar).

Record state : Type := State {
  weights : Params;
  grad : Grads;
  trace : list event
}.

(** An output remembers the graph that produced it, which the backward
    pass walks. *)
Record traced_output : Type := Out {
  out_value : Output;
  out_params : Params;
  out_images : Images
}.

Record traced_loss : Type := Loss {
  loss_value : Scalar;
  loss_of : traced_output;
  loss_labels : Labels
}.

(** A computation returns a value or raises, and leaves a state in both
    cases. *)
Definition T (X : Type) : Type := state → outcome X * state.

#[global] Instance T_ret : MRet T := λ X x st, (Returned x, st).
#[global] Instance T_bind : MBind T := λ X Y f m st,
  match m st with
  | (Returned x, st') => f x st'
  | (Raised e, st') => (Raised e, st')
  end.

Definition raise {X : Type} (e : exn) : T X := λ st, (Raised e, st).

Definition log (e : event) (st : state) : state :=
  State (weights st) (grad st) (trace st ++ [e]).

(** [optimizer.zero_grad()] *)
Definition optimizer_zero_grad : T unit := λ st,
  (Returned tt,
   log ZeroGrad (State (weights st) (zero_grads (grad st)) (trace st))).

(** [images.view(images.shape[0], -1)] *)
Definition images_view (images : Images) : T Images := λ st,
  match flatten images with
  | Some x => (Returned x, log View st)
  | None => (Raised FrameworkError, st)
  end.

(** [model.forward(images)] *)
Definition model_forward (images : Images) : T traced_output := λ st,
  match network (weights st) images with
  | Some y => (Returned (Out y (weights st) images),
               log (Forward (weights st)) st)
  | None => (Raised FrameworkError, st)
  end.

(** [criterion(out, labels)] *)
Definition criterion (out : traced_output) (labels : Labels)
  : T traced_loss := λ st,
  match nll (out_value out) labels with
  | Some l => (Returned (Loss l out labels), log Criterion st)
  | None => (Raised FrameworkError, st)
  end.

(** [loss.backward()] *)
Definition loss_backward (loss : traced_loss) : T unit := λ st,
  let out := loss_of loss in
  match gradient (out_params out) (out_images out) (loss_labels loss)
          (grad st) with
  | Some g => (Returned tt,
               log (Backward (out_params out) (weights st))
                 (State (weights st) g (trace st)))
  | None => (Raised FrameworkError, st)
  end.

(** [optimizer.step()] *)
Definition optimizer_step : T unit := λ st,
  match sgd (weights st) (grad st) with
  | Some p' => (Returned tt,
                log (Step (weights st) p') (State p' (grad st) (trace st)))
  | None => (Raised FrameworkError, st)
  end.

(** [loss.item()]: the criterion returned one number. *)
Definition loss_item (loss : traced_loss) : T Scalar := λ st,
  (Returned (loss_value loss), log Item st).

(** [running_loss/len(trainloader)] *)
Definition divide (running_loss : Scalar) (n : nat) : T Scalar :=
  match n with
  | O => raise ZeroDivisionError
  | S _ => mret (div running_loss n)
  end.

Definition print (x : Scalar) : T unit := λ st,
  (Returned tt, log (Print x) st).

(** The body of the inner loop, for one batch:
    [optimizer.zero_grad(); images = images.view(...);
     out = model.forward(images); loss = criterion(out, labels);
     loss.backward(); optimizer.step(); running_loss += loss.item()]. *)
Definition training_pass (batch : Images * Labels) (running_loss : Scalar)
  : T Scalar :=
  let (images, labels) := batch in
  optimizer_zero_grad ;;
  images ← images_view images;
  out ← model_forward images;
  loss ← criterion out labels;
  loss_backward loss ;;
  optimizer_step ;;
  x ← loss_item loss;
  mret (add running_loss x).

(** [for images, labels in trainloader: ...] *)
Fixpoint batches_loop (batches : list (Images * Labels))
    (running_loss : Scalar) : T Scalar :=
  match batches with
  | [] => mret running_loss
  | batch :: batches' =>
      running_loss' ← training_pass batch running_loss;
      batches_loop batches' running_loss'
  end.

(** One epoch: [running_loss = 0], the inner loop, and
    [print(running_loss/len(trainloader))]. *)
Definition epoch (batches : list (Images * Labels)) : T unit :=
  running_loss ← batches_loop batches zero;
  x ← divide running_loss (length batches);
  print x.

(** [for e in range(epochs): ...]; the loader shuffles, so that the
    batches of an epoch depend on the epoch. *)
Fixpoint epochs_loop (trainloader : nat → list (Images * Labels))
    (e n : nat) : T unit :=
  match n with
  | O => mret tt
  | S n' => epoch (trainloader e) ;; epochs_loop trainloader (S e) n'
  end.

Definition epochs : nat := 5.

Definition train (trainloader : nat → list (Images * Labels)) : T unit :=
  epochs_loop trainloader 0 epochs.

(** The calls of one batch that starts on weights [p] and ends on [p']. *)
Definition batch_events (p p' : Params) : list event :=
  [ZeroGrad; View; Forward p; Criterion; Backward p p; Step p p'; Item].

(** The calls of a batch on weights [p] up to its step, the step left
    out: a batch in which a call raises has made an initial part of
    them. *)
Definition before_step (p : Params) : list event :=
  [ZeroGrad; View; Forward p; Criterion; Backward p p].

(** Traces made of whole batches, each in the order of [batch_events], the
    weights passing from one batch to the next, with the prints of the
    epochs in between. *)
Inductive sequenced : Params → list event → Params → Prop :=
  | sequenced_nil p : sequenced p [] p
  | sequenced_batch p p' p'' tr :
      sequenced p' tr p'' → sequenced p (batch_events p p' ++ tr) p''
  | sequenced_print p x tr p' :
      sequenced p tr p' → sequenced p (Print x :: tr) p'.

Definition is_step (e : event) : bool :=
  match e with
  | Step _ _ => true
  | _ => false
  end.

Definition is_backward (e : event) : bool :=
  match e with
  | Backward _ _ => true
  | _ => false
  end.

End Loop.

End Training.

(** ** Reshaping, transposition and matrix product

    The cells of the training notebook flatten their images with [view];
    the introductory notebook (Part 1) multiplies matrices after
    transposing or reshaping one of them. *)

Module Shape.
Import Torch.

(** The scan of the requested shape: the product of the sizes given, and
    the position of the one size left to infer ([-1]), if any.  A second
    [-1] and any other negative size are refused. *)
Fixpoint infer_scan (shape : list Z) (newsize : Z) (infer_dim : option nat)
    (dim : nat) : option (Z * option nat) :=
  match shape with
  | [] => Some (newsize, infer_dim)
  | s :: shape' =>
      if s =? -1
      then match infer_dim with
           | Some _ => None
           | None => infer_scan shape' newsize (Some dim) (S dim)
           end
      else if 0 <=? s
           then infer_scan shape' (newsize * s) infer_dim (S dim)
           else None
  end.

(** The sizes a tensor of [numel] elements takes for a requested shape:
    the shape must hold [numel] elements, the inferred size being chosen
    for that when there is one to choose (and something to divide by). *)
Definition infer_size (shape : list Z) (numel : Z) : option (list Z) :=
  '(newsize, infer_dim) ← infer_scan shape 1 None 0;
  if (numel =? newsize)
     || (bool_decide (is_Some infer_dim) && (0 <? newsize)
         && (Z.rem numel newsize =? 0))
  then match infer_dim with
       | Some d =>
           if newsize =? 0 then None
           else Some (<[d := Z.quot numel newsize]> shape)
       | None => Some shape
       end
  else None.

(** [t.view(shape)]: the same elements in the same order under other
    sizes.  The tensors of the notebooks are contiguous, for which [view]
    never refuses a shape of the right number of elements, and for which
    [reshape] is [view]. *)
Definition view {A} (t : tensor A) (shape : list Z) : option (tensor A) :=
  sz ← infer_size shape (numel_of (sizes t)); Some (Tensor sz (data t)).

Definition reshape {A} (t : tensor A) (shape : list Z) : option (tensor A) :=
  view t shape.

(** [images.view(images.shape[0], -1)] *)
Definition flatten {A} (images : tensor A) : option (tensor A) :=
  n ← tensor_len images; view images [n; -1].

(** Column [j] of rows. *)
Definition column {A} (rows : list (list A)) (j : nat) : list A :=
  omap (λ row, row !! j) rows.

(** [torch.t(a)]: the transpose of a matrix; other ranks are refused. *)
Definition t {A} (a : tensor A) : option (tensor A) :=
  match sizes a with
  | [n; m] =>
      let rows := NN.rows_of (Z.to_nat m) (Z.to_nat n) (data a) in
      Some (Tensor [m; n] (concat (column rows <$> seq 0 (Z.to_nat m))))
  | _ => None
  end.

Section Product.
Context {R : Type}.
Variables (Rzero : R) (Radd Rmul : R → R → R).

(** [torch.mm(a, b)]: both operands are matrices, and [a] has as many
    columns as [b] has rows. *)
Definition mm (a b : tensor R) : option (tensor R) :=
  match sizes a, sizes b with
  | [n; k], [k'; m] =>
      if k =? k'
      then
        let rows := NN.rows_of (Z.to_nat k) (Z.to_nat n) (data a) in
        let cols :=
          column (NN.rows_of (Z.to_nat m) (Z.to_nat k') (data b))
            <$> seq 0 (Z.to_nat m) in
        Some (Tensor [n; m]
                (concat ((λ r, NN.dot Rzero Radd Rmul r <$> cols) <$> rows)))
      else None
  | _, _ => None
  end.

End Product.

End Shape.

(** ** The losses and the cells that compute them *)

Module Loss.
Import Torch.

Section Losses.
Context {R : Type}.
Variables (Rzero : R) (Radd Rmul Rsub Rdiv : R → R → R).
Variables (Rneg Rrelu Rexp Rlog : R → R) (Rofnat : nat → R).

(** The log-probability a target picks, at position [p] of the targets:
    targets equal to the ignored index pick nothing; any other target
    must be a class. *)
Definition pick (input : list R) (C inner : nat) (p : nat) (target : Z)
  : option (option R) :=
  if target =? -100 then Some None
  else if (0 <=? target) && (target <? Z.of_nat C)
       then Some <$> input !! (p / inner * (C * inner)
                               + Z.to_nat target * inner + p `mod` inner)%nat
       else None.

(** [nn.NLLLoss()(input, target)], with its defaults (mean over the
    targets that are not ignored, ignored index -100): the input has sizes
    (N, C, ...) and the target (N, ...). *)
Definition nll_loss (input : tensor R) (target : tensor Z) : option R :=
  match sizes input with
  | N :: C :: rest =>
      if bool_decide (sizes target = N :: rest)
      then
        picks ← mapM (λ pt, pick (data input) (Z.to_nat C)
                              (Z.to_nat (numel_of rest)) pt.1 pt.2)
                  (zip (seq 0 (length (data target))) (data target));
        let picked := omap id picks in
        Some (Rdiv (Rneg (NN.Rsum Rzero Radd picked)) (Rofnat (length picked)))
      else None
  | _ => None
  end.

(** [nn.CrossEntropyLoss()(input, target)]: "this criterion combines
    LogSoftmax and NLLLoss in one single class". *)
Definition cross_entropy (input : tensor R) (target : tensor Z) : option R :=
  logp ← NN.log_softmax_forward Rzero Radd Rsub Rexp Rlog 1 input;
  nll_loss logp target.

(** Part 3, In[2]: the network without the last layer, which returns the
    logits. *)
Definition logits_model (w1 b1 w2 b2 w3 b3 : list R) : list NN.module :=
  [NN.Linear_ (NN.nn_Linear 784 128 w1 b1); NN.ReLU;
   NN.Linear_ (NN.nn_Linear 128 64 w2 b2); NN.ReLU;
   NN.Linear_ (NN.nn_Linear 64 10 w3 b3)].

Definition run (ms : list NN.module) (x : tensor R) : option (tensor R) :=
  NN.Sequential Rzero Radd Rmul Rsub Rrelu Rexp Rlog ms x.

(** Part 3, In[2]: flatten, forward pass to the logits, cross-entropy. *)
Definition In2_loss (w1 b1 w2 b2 w3 b3 : list R) (images : tensor R)
    (labels : tensor Z) : option R :=
  images ← Shape.flatten images;
  logits ← run (logits_model w1 b1 w2 b2 w3 b3) images;
  cross_entropy logits labels.

(** Part 3, In[4]: flatten, forward pass to the log-probabilities,
    negative log-likelihood. *)
Definition In4_loss (w1 b1 w2 b2 w3 b3 : list R) (images : tensor R)
    (labels : tensor Z) : option R :=
  images ← Shape.flatten images;
  logp ← run (NN.model w1 b1 w2 b2 w3 b3) images;
  nll_loss logp labels.

(** Part 3, the last cell: [img = images[0].view(1, 784)] and
    [logps = model(img)]. *)
Definition first_image (images : tensor R) : option (tensor R) :=
  img ← select images 0; Shape.view img [1; 784].

Definition predict (w1 b1 w2 b2 w3 b3 : list R) (images : tensor R)
  : option (tensor R) :=
  img ← first_image images; run (NN.model w1 b1 w2 b2 w3 b3) img.

(** A batch of [B] images as the loader yields them, and its labels. *)
Definition is_images (B : Z) (images : tensor R) : bool :=
  bool_decide (sizes images = [B; 1; 28; 28])
  && (len (data images) =? B * 784).

Definition is_labels (B : Z) (labels : tensor Z) : bool :=
  bool_decide (sizes labels = [B]) && (len (data labels) =? B)
  && forallb (λ t, (0 <=? t) && (t <? 10)) (data labels).

End Losses.

End Loss.

(** ** Arrays and tensors over one memory (Part 1)

    [torch.from_numpy] makes a tensor over the memory of the array, and
    [.numpy()] an array over the memory of the tensor; [torch.tensor]
    copies.  [mul_] writes in place. *)

Module Numpy.
Import Torch.

Section Memory.
Context {A : Type}.

(** The tensor or array value an object stands for, for storages of any
    element type. *)
Definition read (h : list (list A)) (x : Store.view) : option (tensor A) :=
  st ← h !! Store.storage x;
  let k := numel_of (Store.vsizes x) in
  if forallb (λ s, 0 <=? s) (Store.vsizes x)
     && (0 <=? Store.offset x) && (Store.offset x + k <=? len st)
  then Some (Tensor (Store.vsizes x)
               (take (Z.to_nat k) (drop (Z.to_nat (Store.offset x)) st)))
  else None.

Definition from_numpy (a : Store.view) : Store.view := a.

Definition numpy (b : Store.view) : Store.view := b.

(** [torch.tensor(a)]: a copy in a new storage. *)
Definition torch_tensor (a : Store.view) (h : list (list A))
  : option (Store.view * list (list A)) :=
  t ← read h a;
  Some (Store.View (length h) 0 (sizes t), h ++ [data t]).

(** An elementwise operation in place: the elements of the object are
    overwritten in its storage, the rest of the storage is kept. *)
Definition inplace (f : A → A) (b : Store.view) (h : list (list A))
  : option (Store.view * list (list A)) :=
  t ← read h b;
  st ← h !! Store.storage b;
  let off := Z.to_nat (Store.offset b) in
  let k := Z.to_nat (numel_of (Store.vsizes b)) in
  Some (b, <[Store.storage b :=
               take off st ++ (f <$> data t) ++ drop (off + k) st]> h).

End Memory.

(** [b.mul_(c)] *)
Definition mul_ (b : Store.view) (c : float)
  : list (list float) → option (Store.view * list (list float)) :=
  inplace (λ x, PrimFloat.mul x c) b.

(** Part 1, In[60] to In[56]: [torch.tensor(a)], [b = torch.from_numpy(a)],
    [b.mul_(2)]; the copy and [b] are returned. *)
Definition sharing_cells (a : Store.view) (h : list (list float))
  : option (Store.view * Store.view * list (list float)) :=
  '(c, h1) ← torch_tensor a h;
  let b := from_numpy a in
  '(b', h2) ← mul_ b 2%float h1;
  Some (c, b', h2).

End Numpy.

(** ** What a run of the training loop amounts to *)

Module Descent.

Section Update.
Context {Params Grads Images Labels Output Scalar : Type}.
Variable zero_grads : Grads → Grads.
Variable flatten : Images → option Images.
Variable network : Params → Images → option Output.
Variable nll : Output → Labels → option Scalar.
Variable gradient : Params → Images → Labels → Grads → option Grads.
Variable sgd : Params → Grads → option Params.

(** One batch on the weights and the gradient buffers, when none of its
    calls refuses: the buffers are zeroed, they receive the gradients of
    the batch at the current weights, and the weights take one step along
    them. *)
Definition after_batch (s : Params * Grads) (batch : Images * Labels)
  : option (Params * Grads) :=
  x ← flatten batch.1;
  out ← network s.1 x;
  _ ← nll out batch.2;
  g ← gradient s.1 x batch.2 (zero_grads s.2);
  p ← sgd s.1 g;
  Some (p, g).

Fixpoint after_batches (s : Params * Grads) (batches : list (Images * Labels))
  : option (Params * Grads) :=
  match batches with
  | [] => Some s
  | batch :: batches' =>
      s' ← after_batch s batch; after_batches s' batches'
  end.

End Update.

(** The part of the state of a run that the updates act on. *)
Definition core {Params Grads Scalar : Type}
    (st : @Training.state Params Grads Scalar) : Params * Grads :=
  (Training.weights st, Training.grad st).

End Descent.

(** ** Inputs on which the statements about the cells are exercised *)

Module CellExamples.
Import Torch.

Definition images : tensor Z :=
  Tensor [64; 1; 28; 28] (replicate (Z.to_nat (64 * 784)) 1).

Definition labels : tensor Z :=
  Tensor [64] ((λ k, k `mod` 10) <$> seqZ 0 64).

Definition w1 : list Z := NN.constant_parameters (128 * 784).
Definition b1 : list Z := NN.constant_parameters 128.
Definition w2 : list Z := NN.constant_parameters (64 * 128).
Definition b2 : list Z := NN.constant_parameters 64.
Definition w3 : list Z := NN.constant_parameters (10 * 64).
Definition b3 : list Z := NN.constant_parameters 10.

End CellExamples.

(** ** A descent on which the statements about the loop are exercised *)

Module LoopExamples.

(** A loader of two batches per epoch over integers, for a descent on one
    integer weight, and the framework's computations on them: a linear
    model, a loss that refuses the labels that are no digit, its
    gradient, and the step. *)
Definition trainloader (e : nat) : list (Z * Z) :=
  [(Z.of_nat e, 1); (2, 3)].

Definition flatten (x : Z) : option Z := Some x.

Definition network (p x : Z) : option Z := Some (p * x).

Definition nll (out label : Z) : option Z :=
  if (0 <=? label) && (label <? 10) then Some (out - label) else None.

Definition gradient (p x label g : Z) : option Z :=
  Some (g + (p * x - label) * x).

Definition sgd (p g : Z) : option Z := Some (p - g).

Definition mean (s : Z) (n : nat) : Z := s / Z.of_nat n.

(** A loader whose second batch of the second epoch carries the label 12,
    and a loader of no batches. *)
Definition mislabelled (e : nat) : list (Z * Z) :=
  if (e =? 1)%nat then [(1, 1); (2, 12); (3, 3)] else [(Z.of_nat e, 1)].

Definition empty_loader (e : nat) : list (Z * Z) := [].

End LoopExamples.

(** * Properties *)

Section TensorFacts.
Import Torch.
Context {A : Type}.
Implicit Types (v t : tensor A) (n i j : Z).

Lemma len_app (l k : list A) : len (l ++ k) = len l + len k.
Proof. unfold len. rewrite length_app. lia. Qed.

(** What [wf] says of a one-dimensional tensor. *)
Lemma wf_vec v n : sizes v = [n] → wf v = true ↔ 0 <= n ∧ len (data v) = n.
Proof.
  intros Hs. unfold wf. rewrite Hs. simpl. rewrite andb_true_r.
  rewrite andb_true_iff, Z.leb_le, Z.eqb_eq. lia.
Qed.

Lemma nonneg_spec (sz : list Z) :
  forallb (λ s, 0 <=? s) sz = true ↔ Forall (λ s, 0 <= s) sz.
Proof.
  induction sz as [|s sz IH]; simpl.
  - split; [constructor|done].
  - rewrite Forall_cons_iff, andb_true_iff, Z.leb_le, IH. tauto.
Qed.

Lemma numel_nonneg (sz : list Z) : Forall (λ s, 0 <= s) sz → 0 <= numel_of sz.
Proof. induction 1; simpl; lia. Qed.

(** What [wf] says in general. *)
Lemma wf_spec t :
  wf t = true ↔
  Forall (λ s, 0 <= s) (sizes t) ∧ len (data t) = numel_of (sizes t).
Proof. unfold wf. by rewrite andb_true_iff, nonneg_spec, Z.eqb_eq. Qed.

Lemma slice_bound_in n i : 0 <= i <= n → slice_bound n i = i.
Proof. intros. unfold slice_bound. destruct (Z.ltb_spec i 0); lia. Qed.

Lemma slice_vec v n a b :
  sizes v = [n] → 0 <= a → a <= b → b <= n →
  slice v a (Some b)
  = Some (Tensor [b - a] (take (Z.to_nat (b - a)) (drop (Z.to_nat a) (data v)))).
Proof.
  intros Hs Ha Hab Hb. unfold slice. rewrite Hs. simpl.
  rewrite !slice_bound_in by lia.
  replace (Z.max 0 (b - a)) with (b - a) by lia.
  by rewrite !Z.mul_1_r.
Qed.

Lemma slice_vec_from v n a :
  sizes v = [n] → len (data v) = n → 0 <= a → a <= n →
  slice v a None = Some (Tensor [n - a] (drop (Z.to_nat a) (data v))).
Proof.
  intros Hs Hl Ha Hb. unfold slice. rewrite Hs. simpl.
  rewrite slice_bound_in by lia.
  replace (Z.max 0 (n - a)) with (n - a) by lia.
  rewrite !Z.mul_1_r. rewrite take_ge; [done|].
  rewrite length_drop. unfold len in Hl. lia.
Qed.

(** Concatenating two well-formed one-dimensional tensors, whichever of
    them is empty. *)
Lemma cat_vec_pair (da db : list A) :
  cat [Tensor [len da] da; Tensor [len db] db]
  = Some (Tensor [len da + len db] (da ++ db)).
Proof.
  unfold cat, legacy_empty. simpl.
  destruct (Z.eqb_spec (len da) 0) as [Ha|Ha];
    destruct (Z.eqb_spec (len db) 0) as [Hb|Hb]; simpl.
  - destruct da; [|by unfold len in Ha]. destruct db; [|by unfold len in Hb].
    done.
  - destruct da; [|by unfold len in Ha]. simpl.
    unfold dim0. simpl. by rewrite Z.add_0_r, app_nil_r.
  - destruct db; [|by unfold len in Hb].
    unfold dim0. simpl. by rewrite !app_nil_r, Z.add_0_r, Z.add_0_r.
  - unfold same_trailing, dim0. simpl. rewrite app_nil_r.
    by rewrite Z.add_0_r.
Qed.

Lemma item_take_drop (l : list A) (k : nat) :
  item (Tensor [] (take 1 (drop k l))) = l !! k.
Proof.
  unfold item. simpl. rewrite <- (Nat.add_0_r k) at 2.
  rewrite <- lookup_drop. destruct (drop k l) as [|x [|y r]]; done.
Qed.

(** Reading element [j] of a one-dimensional tensor. *)
Lemma elem_vec v n j :
  sizes v = [n] → 0 <= j < n → elem v j = data v !! Z.to_nat j.
Proof.
  intros Hs Hj. unfold elem, select. rewrite Hs. simpl.
  destruct (Z.ltb_spec j 0); [lia|].
  destruct (Z.leb_spec 0 j); [|lia]. destruct (Z.ltb_spec j n); [|lia].
  simpl. rewrite Z.mul_1_r. apply item_take_drop.
Qed.

End TensorFacts.

Section LeaveOneOut.
Import Torch DP.
Context {A : Type}.
Implicit Types (v db : tensor A) (n i j : Z).

(** The construction of In[6] on a vector, in closed form: the data with
    position [i] deleted. *)
Lemma leave_one_out_delete v n i :
  sizes v = [n] → len (data v) = n → 0 <= i < n →
  leave_one_out v i = Some (Tensor [n - 1] (delete (Z.to_nat i) (data v))).
Proof.
  intros Hs Hl Hi. unfold leave_one_out.
  rewrite (slice_vec v n 0 i) by (done || lia).
  rewrite (slice_vec_from v n (i + 1)) by (done || lia).
  cbn [mbind option_bind]. rewrite Z.sub_0_r. change (Z.to_nat 0) with 0%nat.
  rewrite drop_0.
  assert (Hla : len (take (Z.to_nat i) (data v)) = i).
  { unfold len in *. rewrite length_take. lia. }
  assert (Hlb : len (drop (Z.to_nat (i + 1)) (data v)) = n - (i + 1)).
  { unfold len in *. rewrite length_drop. lia. }
  pose proof (cat_vec_pair (take (Z.to_nat i) (data v))
                (drop (Z.to_nat (i + 1)) (data v))) as Hcat.
  rewrite Hla, Hlb in Hcat. rewrite Hcat, delete_take_drop.
  replace (Z.to_nat (i + 1)) with (S (Z.to_nat i)) by lia.
  do 3 f_equal. lia.
Qed.

Lemma add64_small i : 0 <= i < 2 ^ 63 - 1 → add64 i 1 = i + 1.
Proof.
  intros Hi. unfold add64, wrap64.
  rewrite Z.mod_small; lia.
Qed.

(** The loop body's database is the construction of In[6] at the drawn
    index. *)
Lemma new_db_leave_one_out v i :
  0 <= i < 2 ^ 63 - 1 → new_db v (scalar i) = leave_one_out v i.
Proof.
  intros Hi. unfold new_db, leave_one_out, item, add_scalar. simpl.
  by rewrite add64_small.
Qed.

(** C1. For a vector of length [n] and an index [0 <= i < n], the
    construction [torch.cat((v[0:i], v[i+1:]), 0)] succeeds with a vector of
    length [n - 1]; its element [j] is [v[j]] below [i] and [v[j+1]] from [i]
    on, so that it is [v] with record [i] deleted and the other records in
    their order.  The loop body of In[20], where the index is an element of
    a [LongTensor], builds the same database (for lengths a 64-bit index
    can hold). *)
Theorem leave_one_out_removes_record v n i :
  wf v = true → sizes v = [n] → 0 <= i < n →
  ∃ db, leave_one_out v i = Some db
    ∧ sizes db = [n - 1] ∧ wf db = true
    ∧ (∀ j, 0 <= j < i → ∃ x, elem v j = Some x ∧ elem db j = Some x)
    ∧ (∀ j, i <= j < n - 1 → ∃ x, elem v (j + 1) = Some x ∧ elem db j = Some x)
    ∧ data db = delete (Z.to_nat i) (data v)
    ∧ (n < 2 ^ 63 → new_db v (scalar i) = Some db).
Proof.
  intros Hwf Hs Hi. apply (wf_vec v n Hs) in Hwf as [Hn Hl].
  eexists. split; [by apply leave_one_out_delete|]. simpl.
  assert (Hld : len (delete (Z.to_nat i) (data v)) = n - 1).
  { unfold len in *. rewrite length_delete; [lia|].
    apply lookup_lt_is_Some. lia. }
  split_and!; [done| |..|done|].
  4:{ intros Hn63. rewrite new_db_leave_one_out by lia.
      by apply leave_one_out_delete. }
  - apply (wf_vec _ (n - 1)); [done|]. simpl. lia.
  - intros j Hj. rewrite (elem_vec v n), (elem_vec _ (n - 1)) by (done || lia).
    simpl. rewrite list_lookup_delete_lt by lia.
    destruct (lookup_lt_is_Some_2 (data v) (Z.to_nat j)) as [x Hx];
      [unfold len in Hl; lia|]. eauto.
  - intros j Hj. rewrite (elem_vec v n), (elem_vec _ (n - 1)) by (done || lia).
    simpl. rewrite list_lookup_delete_ge by lia.
    replace (Z.to_nat (j + 1)) with (S (Z.to_nat j)) by lia.
    destruct (lookup_lt_is_Some_2 (data v) (S (Z.to_nat j))) as [x Hx];
      [unfold len in Hl; lia|]. eauto.
Qed.

(** Every step of the slicing loop of In[5] succeeds on a tensor that has a
    first dimension. *)
Lemma slicing_loop_snoc v n r db k :
  sizes v = n :: r → 0 <= k →
  slicing_loop v (k + 1) db = slice v 0 (Some k).
Proof.
  intros Hs Hk. unfold slicing_loop.
  rewrite (seqZ_app 0 k 1) by lia. rewrite foldl_app. simpl.
  assert (Hok : ∀ l st, is_Some st →
            is_Some (foldl (λ st i, _ ← st; slice v 0 (Some i)) st l)).
  { induction l as [|a l IH]; intros st Hst; [done|]. simpl. apply IH.
    destruct Hst as [t ->]. simpl. unfold slice. rewrite Hs. eauto. }
  destruct (Hok (seqZ 0 k) (Some db)) as [t ->]; [eauto|]. done.
Qed.

(** C9. The construction is defined at both ends of the index range: at
    [i = 0] it is the suffix [v[1:]], at [i = n - 1] the prefix [v[0:n-1]],
    of length [n - 1] both; for every [i] of the range the slice bounds
    [0], [i] and [i + 1] lie within [0, n] as they are (nothing is clamped)
    and the construction succeeds; and the last value the slicing loop of
    In[5] leaves in [db] is the database for the last index. *)
Theorem leave_one_out_boundaries v n :
  wf v = true → sizes v = [n] → 1 <= n →
  leave_one_out v 0 = slice v 1 None
  ∧ leave_one_out v 0 = Some (Tensor [n - 1] (drop 1 (data v)))
  ∧ leave_one_out v (n - 1) = slice v 0 (Some (n - 1))
  ∧ leave_one_out v (n - 1)
    = Some (Tensor [n - 1] (take (Z.to_nat (n - 1)) (data v)))
  ∧ (∀ i, 0 <= i < n →
       slice_bound n 0 = 0 ∧ slice_bound n i = i
       ∧ slice_bound n (i + 1) = i + 1
       ∧ ∃ db, leave_one_out v i = Some db ∧ sizes db = [n - 1])
  ∧ (∀ db, slicing_loop v n db = leave_one_out v (n - 1)).
Proof.
  intros Hwf Hs Hn. apply (wf_vec v n Hs) in Hwf as [_ Hl].
  assert (H0 : leave_one_out v 0 = Some (Tensor [n - 1] (drop 1 (data v)))).
  { rewrite (leave_one_out_delete v n) by (done || lia).
    by rewrite delete_take_drop. }
  assert (Hlast : leave_one_out v (n - 1)
            = Some (Tensor [n - 1] (take (Z.to_nat (n - 1)) (data v)))).
  { rewrite (leave_one_out_delete v n) by (done || lia).
    rewrite delete_take_drop, drop_ge, app_nil_r; [done|].
    unfold len in Hl. lia. }
  assert (Hpre : slice v 0 (Some (n - 1))
            = Some (Tensor [n - 1] (take (Z.to_nat (n - 1)) (data v)))).
  { rewrite (slice_vec v n) by (done || lia).
    by rewrite Z.sub_0_r. }
  split_and!.
  - rewrite H0, (slice_vec_from v n) by (done || lia). done.
  - done.
  - by rewrite Hlast, Hpre.
  - done.
  - intros i Hi. rewrite !slice_bound_in by lia. split_and!; [done..|].
    eexists. split; [by apply (leave_one_out_delete v n)|done].
  - intros db. replace n with ((n - 1) + 1) at 1 by lia.
    rewrite (slicing_loop_snoc v n []) by (done || lia).
    by rewrite Hlast, Hpre.
Qed.

End LeaveOneOut.

Section LeaveOneOutExamples.
Import Torch DP.

(** The construction on a vector of five records. *)
Example leave_one_out_middle :
  leave_one_out small_vec 2 = Some (Tensor [4] [1; 0; 1; 1]).
Proof. reflexivity. Qed.

(** Outside the index range nothing is left out, or records are repeated:
    slices clamp their bounds, and a negative bound counts from the end. *)
Example leave_one_out_beyond :
  leave_one_out small_vec 7 = Some small_vec.
Proof. reflexivity. Qed.

Example leave_one_out_negative :
  leave_one_out small_vec (-1) = Some (Tensor [9] [1; 0; 0; 1; 1; 0; 0; 1; 1]).
Proof. reflexivity. Qed.

Example ori_vec_threshold :
  ori_vec (Tensor [4] [0.25; 0.5; 0.75; 1]%float) = Tensor [4] [0; 0; 1; 1].
Proof. reflexivity. Qed.

Example cat_nothing : cat (A := Z) [] = None.
Proof. reflexivity. Qed.

Example randomized_db_torch_small :
  randomized_db_torch small_vec (Tensor [3] [0; 4; 2])
  = Some (Tensor [3; 4] [0; 0; 1; 1; 1; 0; 0; 1; 1; 0; 1; 1]).
Proof. reflexivity. Qed.

Lemma leave_one_out_removes_record_witness :
  wf small_vec = true ∧ sizes small_vec = [5] ∧ 0 <= 2 < 5
  ∧ ∃ d : tensor Z, leave_one_out small_vec 2 = Some d
      ∧ sizes d = [5 - 1] ∧ wf d = true
      ∧ (∀ j, 0 <= j < 2 →
           ∃ x, elem small_vec j = Some x ∧ elem d j = Some x)
      ∧ (∀ j, 2 <= j < 5 - 1 →
           ∃ x, elem small_vec (j + 1) = Some x ∧ elem d j = Some x)
      ∧ data d = delete (Z.to_nat 2) (data small_vec)
      ∧ (5 < 2 ^ 63 → new_db small_vec (scalar 2) = Some d).
Proof.
  split; [reflexivity|]. split; [reflexivity|]. split; [lia|].
  apply (leave_one_out_removes_record small_vec 5 2); [reflexivity|reflexivity|lia].
Defined.

Lemma leave_one_out_boundaries_witness :
  wf small_vec = true ∧ sizes small_vec = [5] ∧ 1 <= 5
  ∧ leave_one_out small_vec 0 = slice small_vec 1 None
  ∧ leave_one_out small_vec 0 = Some (Tensor [5 - 1] (drop 1 (data small_vec)))
  ∧ leave_one_out small_vec (5 - 1) = slice small_vec 0 (Some (5 - 1))
  ∧ leave_one_out small_vec (5 - 1)
    = Some (Tensor [5 - 1] (take (Z.to_nat (5 - 1)) (data small_vec)))
  ∧ (∀ i, 0 <= i < 5 →
       slice_bound 5 0 = 0 ∧ slice_bound 5 i = i
       ∧ slice_bound 5 (i + 1) = i + 1
       ∧ ∃ d : tensor Z, leave_one_out small_vec i = Some d ∧ sizes d = [5 - 1])
  ∧ (∀ d : tensor Z, slicing_loop small_vec 5 d = leave_one_out small_vec (5 - 1)).
Proof.
  split; [reflexivity|]. split; [reflexivity|]. split; [lia|].
  apply (leave_one_out_boundaries small_vec 5); [reflexivity|reflexivity|lia].
Defined.

End LeaveOneOutExamples.

Section ConstructionLoop.
Import Torch DP.
Context {A : Type}.
Implicit Types (v db : tensor A) (idx : tensor Z) (n m i j k : Z).

Lemma is_random__spec lo hi m idx :
  is_random_ lo hi m idx = true ↔
  sizes idx = [m] ∧ len (data idx) = m ∧ Forall (λ x, lo <= x < hi) (data idx).
Proof.
  unfold is_random_. rewrite !andb_true_iff, bool_decide_eq_true, Z.eqb_eq.
  assert (forallb (λ x, (lo <=? x) && (x <? hi)) (data idx) = true
          ↔ Forall (λ x, lo <= x < hi) (data idx)) as ->; [|tauto].
  induction (data idx) as [|x l IH]; simpl.
  - split; [constructor|done].
  - rewrite Forall_cons_iff, !andb_true_iff, Z.leb_le, Z.ltb_lt, IH. tauto.
Qed.

Lemma mapM_select_vec idx m (k : nat) :
  sizes idx = [m] → len (data idx) = m → (k <= Z.to_nat m)%nat →
  mapM (select idx) (seqZ (m - Z.of_nat k) (Z.of_nat k))
  = Some (scalar <$> drop (Z.to_nat (m - Z.of_nat k)) (data idx)).
Proof.
  intros Hs Hl. induction k as [|k IH]; intros Hk.
  - simpl. rewrite drop_ge; [done|]. unfold len in Hl. lia.
  - rewrite seqZ_cons by lia. simpl.
    replace (Z.succ (m - Z.of_nat (S k))) with (m - Z.of_nat k) by lia.
    replace (Z.pred (Z.of_nat (S k))) with (Z.of_nat k) by lia.
    rewrite IH by lia. unfold select at 1. rewrite Hs. simpl.
    destruct (Z.ltb_spec (m - Z.of_nat (S k)) 0); [lia|].
    destruct (Z.leb_spec 0 (m - Z.of_nat (S k))); [|lia].
    destruct (Z.ltb_spec (m - Z.of_nat (S k)) m); [|lia]. simpl.
    rewrite Z.mul_1_r.
    destruct (lookup_lt_is_Some_2 (data idx) (Z.to_nat (m - Z.of_nat (S k))))
      as [x Hx]; [unfold len in Hl; lia|].
    rewrite (drop_S _ x) by done.
    replace (S (Z.to_nat (m - Z.of_nat (S k)))) with (Z.to_nat (m - Z.of_nat k))
      by lia.
    simpl. destruct (drop (Z.to_nat (m - Z.of_nat k)) (data idx)); done.
Qed.

(** Iterating over a vector yields its elements, in order, as
    zero-dimensional tensors. *)
Lemma iter_vec idx m :
  sizes idx = [m] → len (data idx) = m → iter idx = Some (scalar <$> data idx).
Proof.
  intros Hs Hl. unfold iter, tensor_len. rewrite Hs. simpl.
  pose proof (mapM_select_vec idx m (Z.to_nat m) Hs Hl) as H.
  assert (0 <= m) by (unfold len in Hl; lia).
  rewrite Z2Nat.id, Z.sub_diag in H by done. rewrite H by lia. done.
Qed.

Lemma construction_loop_closed v n (ixs : list Z) acc :
  sizes v = [n] → len (data v) = n → n < 2 ^ 63 →
  Forall (λ x, 0 <= x < n) ixs →
  construction_loop v (scalar <$> ixs) acc
  = Some (acc ++ ((λ i, Tensor [1; n - 1] (delete (Z.to_nat i) (data v))) <$> ixs)).
Proof.
  intros Hs Hl Hn His. revert acc.
  induction His as [|i ixs Hi _ IH]; intros acc; simpl.
  - by rewrite app_nil_r.
  - rewrite new_db_leave_one_out by lia.
    rewrite (leave_one_out_delete v n) by done. simpl.
    rewrite IH. by rewrite <- app_assoc.
Qed.

Lemma filter_all {B} (f : B → bool) (l : list B) :
  Forall (λ x, f x = true) l → List.filter f l = l.
Proof. induction 1 as [|x l Hx _ IH]; simpl; [done|]. by rewrite Hx, IH. Qed.

(** Stacking databases of one row each. *)
Lemma cat_rows (ts : list (tensor A)) c :
  ts ≠ [] → Forall (λ t, sizes t = [1; c]) ts →
  cat ts = Some (Tensor [len ts; c] (concat (data <$> ts))).
Proof.
  intros Hne Hts. unfold cat. rewrite filter_all.
  2:{ eapply Forall_impl; [|exact Hts]. intros t Ht. unfold legacy_empty.
      by rewrite Ht. }
  destruct ts as [|t us]; [done|]. apply Forall_cons_iff in Hts as [Ht Hus].
  rewrite Ht.
  assert (forallb (same_trailing [c]) us = true) as ->.
  { clear -Hus. induction Hus as [|u us Hu _ IH]; simpl; [done|].
    rewrite IH, andb_true_r. unfold same_trailing. rewrite Hu.
    by apply bool_decide_eq_true. }
  do 3 f_equal.
  assert (∀ l : list (tensor A), Forall (λ t, sizes t = [1; c]) l →
            foldr Z.add 0 (dim0 <$> l) = len l) as Hsum.
  { induction 1 as [|u l Hu _ IH]; [done|]. rewrite fmap_cons. cbn [foldr].
    rewrite IH. unfold dim0, len. rewrite Hu. simpl. lia. }
  apply Hsum. by constructor.
Qed.

(** Row [k] of a stack of rows of equal length. *)
Lemma take_drop_concat (rows : list (list A)) (c k : nat) r :
  Forall (λ r, length r = c) rows → rows !! k = Some r →
  take c (drop (k * c) (concat rows)) = r.
Proof.
  intros Hrows. revert k. induction Hrows as [|r0 rows Hr0 _ IH]; intros k Hk.
  - done.
  - destruct k as [|k]; simpl in *.
    + injection Hk as ->. rewrite drop_0, take_app_length'; done.
    + rewrite drop_app_add'; [|done]. by apply IH.
Qed.

Lemma select_rows (rows : list (list A)) c k r :
  0 <= c → 0 <= k → Forall (λ r, len r = c) rows →
  rows !! Z.to_nat k = Some r →
  select (Tensor [len rows; c] (concat rows)) k = Some (Tensor [c] r).
Proof.
  intros Hc Hk Hrows Hr. unfold select. simpl.
  destruct (Z.ltb_spec k 0); [lia|]. destruct (Z.leb_spec 0 k); [|lia].
  apply lookup_lt_Some in Hr as Hlt.
  destruct (Z.ltb_spec k (len rows)); [|unfold len in *; lia]. simpl.
  do 2 f_equal. rewrite Z.mul_1_r.
  replace (Z.to_nat (k * c)) with (Z.to_nat k * Z.to_nat c)%nat by lia.
  apply take_drop_concat; [|done].
  eapply Forall_impl; [|exact Hrows]. intros r' Hr'. unfold len in Hr'. lia.
Qed.

End ConstructionLoop.

Section ParallelDatabases.
Import Torch DP.
Context {A : Type}.
Implicit Types (v db : tensor A) (idx : tensor Z) (n m i j k : Z).

(** The list of databases after In[20]'s loop, in closed form. *)
Lemma randomized_db_closed v n idx m :
  sizes v = [n] → len (data v) = n → n < 2 ^ 63 →
  is_random_ 0 n m idx = true →
  randomized_db v idx
  = Some ((λ i, Tensor [1; n - 1] (delete (Z.to_nat i) (data v))) <$> data idx).
Proof.
  intros Hs Hl Hn (Hsi & Hli & Hr)%is_random__spec. unfold randomized_db.
  rewrite (iter_vec idx m) by done. simpl.
  by rewrite (construction_loop_closed v n).
Qed.

Lemma len_concat_rows (rows : list (list A)) c :
  Forall (λ r, len r = c) rows → len (concat rows) = len rows * c.
Proof.
  induction 1 as [|r rows Hr _ IH]; simpl; [done|].
  rewrite len_app, IH, Hr. unfold len. simpl. lia.
Qed.

Lemma len_delete (l : list A) (i : Z) :
  0 <= i < len l → len (delete (Z.to_nat i) l) = len l - 1.
Proof.
  intros Hi. unfold len in *. rewrite length_delete; [lia|].
  apply lookup_lt_is_Some. lia.
Qed.

Lemma len_fmap {B C} (f : B → C) (l : list B) : len (f <$> l) = len l.
Proof. unfold len. by rewrite length_fmap. Qed.

(** The stacked tensor after In[20], in closed form. *)
Lemma randomized_db_torch_closed v n idx m :
  sizes v = [n] → len (data v) = n → n < 2 ^ 63 →
  is_random_ 0 n m idx = true → 1 <= m →
  randomized_db_torch v idx
  = Some (Tensor [m; n - 1]
            (concat ((λ i, delete (Z.to_nat i) (data v)) <$> data idx))).
Proof.
  intros Hs Hl Hn Hidx Hm. unfold randomized_db_torch.
  rewrite (randomized_db_closed v n idx m) by done.
  apply is_random__spec in Hidx as (Hsi & Hli & Hr).
  cbn [mbind option_bind]. rewrite (cat_rows _ (n - 1)).
  - rewrite len_fmap, Hli, <- list_fmap_compose. done.
  - destruct (data idx); [unfold len in Hli; simpl in Hli; lia|done].
  - apply Forall_fmap, Forall_true. done.
Qed.

(** Selecting a row of the stack, in closed form. *)
Lemma select_stacked v n idx m k i :
  len (data v) = n → is_random_ 0 n m idx = true → 0 <= k →
  data idx !! Z.to_nat k = Some i →
  select (Tensor [m; n - 1]
            (concat ((λ i, delete (Z.to_nat i) (data v)) <$> data idx))) k
  = Some (Tensor [n - 1] (delete (Z.to_nat i) (data v))).
Proof.
  intros Hl (Hsi & Hli & Hr)%is_random__spec Hk Hi.
  pose proof (proj1 (Forall_lookup _ _) Hr _ _ Hi) as Hrange.
  cbv beta in Hrange.
  pose proof (select_rows
      ((λ i, delete (Z.to_nat i) (data v)) <$> data idx)
      (n - 1) k (delete (Z.to_nat i) (data v))) as Hsel.
  rewrite len_fmap, Hli in Hsel. apply Hsel; [lia|lia| |].
  - apply Forall_fmap. eapply Forall_impl; [|exact Hr]. intros j Hj.
    cbn [compose]. cbv beta in Hj. rewrite len_delete; lia.
  - by rewrite list_lookup_fmap, Hi.
Qed.

End ParallelDatabases.

Section Notebook.
Import Torch DP.
Implicit Types (rand : tensor float) (idx : tensor Z) (m i j k : Z).

Lemma ori_vec_shape rand n :
  is_rand n rand = true →
  sizes (ori_vec rand) = [n] ∧ len (data (ori_vec rand)) = n.
Proof.
  unfold is_rand. rewrite andb_true_iff, bool_decide_eq_true, Z.eqb_eq.
  intros [Hs Hl]. unfold ori_vec, gt. simpl. by rewrite len_fmap.
Qed.

Lemma ori_vec_bits rand : Forall (λ x, x = 0 ∨ x = 1) (data (ori_vec rand)).
Proof.
  unfold ori_vec, gt. simpl. apply Forall_fmap, Forall_true.
  intros x. simpl. destruct (PrimFloat.ltb _ _); auto.
Qed.

Local Arguments ori_vec : simpl never.

(** C2. From the vector of length 5000, the loop of In[20] builds one
    database per drawn index, whatever the indices: [m] indices give [m]
    databases, each a vector of length 4999 unsqueezed to sizes (1, 4999);
    stacked, they form a tensor of sizes (m, 4999), that is (5000, 4999)
    for the 5000 indices the notebook draws. *)
Theorem parallel_databases_shape rand idx m :
  is_rand 5000 rand = true → is_random_ 0 5000 m idx = true → 1 <= m →
  ∃ dbs T,
    randomized_db (ori_vec rand) idx = Some dbs
    ∧ len dbs = m ∧ tensor_len idx = Some m
    ∧ Forall (λ db, ∃ d, db = unsqueeze0 d ∧ sizes d = [4999] ∧ wf d = true
                      ∧ sizes db = [1; 4999]) dbs
    ∧ randomized_db_torch (ori_vec rand) idx = Some T
    ∧ sizes T = [m; 4999] ∧ wf T = true.
Proof.
  intros [Hs Hl]%ori_vec_shape Hidx Hm.
  pose proof Hidx as (Hsi & Hli & Hr)%is_random__spec.
  eexists _, _. split_and!.
  - by apply (randomized_db_closed _ 5000 idx m).
  - by rewrite len_fmap.
  - unfold tensor_len. by rewrite Hsi.
  - apply Forall_fmap. eapply Forall_impl; [|exact Hr]. intros i Hi.
    cbn [compose sizes data]. cbv beta in Hi.
    exists (Tensor [4999] (delete (Z.to_nat i) (data (ori_vec rand)))).
    split_and!; [done|done| |done].
    apply (wf_vec _ 4999); [done|]. cbn [data]. rewrite len_delete; lia.
  - by apply (randomized_db_torch_closed _ 5000 idx m).
  - done.
  - apply wf_spec. cbn [sizes data numel_of foldr]. split.
    + repeat constructor; lia.
    + rewrite (len_concat_rows _ 4999), len_fmap; [lia|].
      apply Forall_fmap. eapply Forall_impl; [|exact Hr]. intros i Hi.
      cbn [compose]. cbv beta in Hi. rewrite len_delete; lia.
Qed.

Lemma parallel_databases_shape_witness :
  is_rand 5000 rand_example = true
  ∧ is_random_ 0 5000 5000 random_seq_index_example = true
  ∧ ∃ dbs T,
      randomized_db (ori_vec rand_example) random_seq_index_example = Some dbs
      ∧ len dbs = 5000 ∧ tensor_len random_seq_index_example = Some 5000
      ∧ Forall (λ db, ∃ d, db = unsqueeze0 d ∧ sizes d = [4999]
                        ∧ wf d = true ∧ sizes db = [1; 4999]) dbs
      ∧ randomized_db_torch (ori_vec rand_example) random_seq_index_example
        = Some T
      ∧ sizes T = [5000; 4999] ∧ wf T = true.
Proof.
  split; [vm_compute; reflexivity|]. split; [vm_compute; reflexivity|].
  apply (parallel_databases_shape rand_example random_seq_index_example 5000);
    [vm_compute; reflexivity | vm_compute; reflexivity | lia].
Defined.

(** C3. Every database the loop builds is a subsequence of the original
    vector, in the original order: its entries are entries of [ori_vec],
    none altered and none added; and as [ori_vec], the outcome of a
    comparison, holds only 0 and 1, so does every database. *)
Theorem databases_are_subsequences rand idx m :
  is_rand 5000 rand = true → is_random_ 0 5000 m idx = true →
  Forall (λ x, x = 0 ∨ x = 1) (data (ori_vec rand))
  ∧ ∃ dbs,
      randomized_db (ori_vec rand) idx = Some dbs
      ∧ Forall (λ db, data db `sublist_of` data (ori_vec rand)
                      ∧ (∀ x, x ∈ data db → x ∈ data (ori_vec rand))
                      ∧ Forall (λ x, x = 0 ∨ x = 1) (data db)) dbs.
Proof.
  intros [Hs Hl]%ori_vec_shape Hidx. split; [apply ori_vec_bits|].
  eexists. split; [by apply (randomized_db_closed _ 5000 idx m)|].
  apply Forall_fmap, Forall_true. intros i. cbn [compose data].
  pose proof (sublist_delete (data (ori_vec rand)) (Z.to_nat i)) as Hsub.
  split_and!; [done| |].
  - intros x Hx. by eapply sublist_subseteq.
  - apply list.Forall_forall. intros x Hx.
    apply (proj1 (list.Forall_forall _ _) (ori_vec_bits rand)).
    by eapply sublist_subseteq.
Qed.

Lemma databases_are_subsequences_witness :
  is_rand 5000 rand_example = true
  ∧ is_random_ 0 5000 5000 random_seq_index_example = true
  ∧ Forall (λ x, x = 0 ∨ x = 1) (data (ori_vec rand_example))
  ∧ ∃ dbs,
      randomized_db (ori_vec rand_example) random_seq_index_example = Some dbs
      ∧ Forall (λ db, data db `sublist_of` data (ori_vec rand_example)
                      ∧ (∀ x, x ∈ data db → x ∈ data (ori_vec rand_example))
                      ∧ Forall (λ x, x = 0 ∨ x = 1) (data db)) dbs.
Proof.
  split; [vm_compute; reflexivity|]. split; [vm_compute; reflexivity|].
  apply (databases_are_subsequences rand_example random_seq_index_example 5000);
    vm_compute; reflexivity.
Defined.

(** C4. Row [k] of the stacked tensor is the leave-one-out database of
    [ori_vec] at the [k]-th drawn index: the database is kept unchanged,
    unsqueezed to one row, at position [k] of the list, and is what
    selecting row [k] of the stack returns. *)
Theorem stacked_row_is_database rand idx k :
  is_rand 5000 rand = true → is_random_ 0 5000 5000 idx = true →
  0 <= k < 5000 →
  ∃ T dbs i db,
    randomized_db_torch (ori_vec rand) idx = Some T
    ∧ randomized_db (ori_vec rand) idx = Some dbs
    ∧ elem idx k = Some i
    ∧ leave_one_out (ori_vec rand) i = Some db
    ∧ sizes db = [4999]
    ∧ dbs !! Z.to_nat k = Some (unsqueeze0 db)
    ∧ sizes (unsqueeze0 db) = [1; 4999]
    ∧ select T k = Some db.
Proof.
  intros [Hs Hl]%ori_vec_shape Hidx Hk.
  pose proof Hidx as (Hsi & Hli & Hr)%is_random__spec.
  destruct (lookup_lt_is_Some_2 (data idx) (Z.to_nat k)) as [i Hi];
    [unfold len in Hli; lia|].
  pose proof (proj1 (Forall_lookup _ _) Hr _ _ Hi) as Hrange.
  cbv beta in Hrange.
  exists (Tensor [5000; 4999]
            (concat ((λ i, delete (Z.to_nat i) (data (ori_vec rand)))
                       <$> data idx))).
  eexists _, i, (Tensor [4999] (delete (Z.to_nat i) (data (ori_vec rand)))).
  split_and!.
  - by rewrite (randomized_db_torch_closed _ 5000 idx 5000).
  - by apply (randomized_db_closed _ 5000 idx 5000).
  - by rewrite (elem_vec idx 5000).
  - by rewrite (leave_one_out_delete _ 5000).
  - done.
  - rewrite list_lookup_fmap, Hi. done.
  - done.
  - apply (select_stacked (ori_vec rand) 5000 idx 5000 k i); (done || lia).
Qed.

Lemma stacked_row_is_database_witness :
  is_rand 5000 rand_example = true
  ∧ is_random_ 0 5000 5000 random_seq_index_example = true
  ∧ ∃ T dbs i db,
      randomized_db_torch (ori_vec rand_example) random_seq_index_example
      = Some T
      ∧ randomized_db (ori_vec rand_example) random_seq_index_example
        = Some dbs
      ∧ elem random_seq_index_example 3 = Some i
      ∧ leave_one_out (ori_vec rand_example) i = Some db
      ∧ sizes db = [4999]
      ∧ dbs !! Z.to_nat 3 = Some (unsqueeze0 db)
      ∧ sizes (unsqueeze0 db) = [1; 4999]
      ∧ select T 3 = Some db.
Proof.
  split; [vm_compute; reflexivity|]. split; [vm_compute; reflexivity|].
  apply (stacked_row_is_database rand_example random_seq_index_example 3);
    [vm_compute; reflexivity | vm_compute; reflexivity | lia].
Defined.

Lemma elem_repeated_index k x : elem repeated_index k = Some x → x = 0.
Proof.
  unfold elem, select, repeated_index. cbn [sizes data].
  destruct (_ && _); [|done]. cbn [mbind option_bind numel_of foldr].
  rewrite item_take_drop. by intros [-> _]%lookup_replicate.
Qed.

(** C5. The indices are drawn with replacement, so the databases need not
    be the 5000 distinct leave-one-out databases: there is a sequence the
    draw can return in which two positions hold the same index, so that the
    two databases, and the two rows of the stack, are the same whatever the
    original vector, and in which some record is left out by no database. *)
Theorem repeated_draws_miss_records :
  ∃ idx,
    is_random_ 0 5000 5000 idx = true
    ∧ (∃ k1 k2 i,
         k1 ≠ k2 ∧ 0 <= k1 < 5000 ∧ 0 <= k2 < 5000
         ∧ elem idx k1 = Some i ∧ elem idx k2 = Some i
         ∧ ∀ rand, is_rand 5000 rand = true →
             ∃ T dbs db row,
               randomized_db (ori_vec rand) idx = Some dbs
               ∧ dbs !! Z.to_nat k1 = Some db ∧ dbs !! Z.to_nat k2 = Some db
               ∧ randomized_db_torch (ori_vec rand) idx = Some T
               ∧ select T k1 = Some row ∧ select T k2 = Some row)
    ∧ (∃ j, 0 <= j < 5000 ∧ ∀ k, elem idx k ≠ Some j).
Proof.
  assert (Hidx : is_random_ 0 5000 5000 repeated_index = true)
    by (vm_compute; reflexivity).
  assert (H0 : data repeated_index !! Z.to_nat 0 = Some 0) by reflexivity.
  assert (H1 : data repeated_index !! Z.to_nat 1 = Some 0) by reflexivity.
  exists repeated_index. split_and!; [done| |].
  - exists 0, 1, 0. split_and!; [done|lia|lia|lia|lia| | |].
    + by rewrite (elem_vec _ 5000).
    + by rewrite (elem_vec _ 5000).
    + intros rand [Hs Hl]%ori_vec_shape.
      eexists _, _, _, _. split_and!.
      * by apply (randomized_db_closed _ 5000 _ 5000).
      * by rewrite list_lookup_fmap, H0.
      * by rewrite list_lookup_fmap, H1.
      * by apply (randomized_db_torch_closed _ 5000 _ 5000).
      * by apply (select_stacked (ori_vec rand) 5000 _ 5000 0 0).
      * by apply (select_stacked (ori_vec rand) 5000 _ 5000 1 0).
  - exists 1. split; [lia|]. intros k Hk.
    by apply elem_repeated_index in Hk.
Qed.

End Notebook.

Section StoreFacts.
Import Torch Store.
Implicit Types (h : heap) (x y : view) (t : tensor Z) (st : list Z).

(** What it takes for an object to stand for a tensor. *)
Lemma read_spec h x t :
  read h x = Some t ↔
  ∃ st, h !! storage x = Some st
    ∧ Forall (λ s, 0 <= s) (vsizes x)
    ∧ 0 <= offset x ∧ offset x + numel_of (vsizes x) <= len st
    ∧ t = Tensor (vsizes x)
            (take (Z.to_nat (numel_of (vsizes x)))
               (drop (Z.to_nat (offset x)) st)).
Proof.
  unfold read. destruct (h !! storage x) as [st|]; simpl.
  - destruct (forallb _ _ && _ && _) eqn:Hc.
    + apply andb_true_iff in Hc as [[Hn Ho]%andb_true_iff Hk].
      apply nonneg_spec in Hn. apply Z.leb_le in Ho, Hk.
      split; [intros [= <-]; eauto 10|]. intros (? & [= <-] & _ & _ & _ & ->).
      done.
    + split; [done|]. intros (? & [= <-] & Hn & Ho & Hk & _).
      apply nonneg_spec in Hn. apply Z.leb_le in Ho, Hk.
      by rewrite Hn, Ho, Hk in Hc.
  - split; [done|]. by intros (? & ? & _).
Qed.

Lemma read_wf h x t : read h x = Some t → wf t = true.
Proof.
  intros (st & _ & Hn & Ho & Hk & ->)%read_spec. apply wf_spec. simpl.
  split; [done|]. pose proof (numel_nonneg _ Hn).
  unfold len in *. rewrite length_take, length_drop. lia.
Qed.

Lemma read_sizes h x t : read h x = Some t → sizes t = vsizes x.
Proof. by intros (st & _ & _ & _ & _ & ->)%read_spec. Qed.

(** Storages are only ever added: an object keeps its value. *)
Lemma read_app h k x t : read h x = Some t → read (h ++ k) x = Some t.
Proof.
  intros (st & Hst & H)%read_spec. apply read_spec. exists st.
  split; [|done]. by apply lookup_app_l_Some.
Qed.

Lemma read_alloc h t :
  wf t = true →
  read (h ++ [data t]) (View (length h) 0 (sizes t)) = Some t.
Proof.
  intros [Hn Hl]%wf_spec. apply read_spec. exists (data t).
  cbn [storage offset vsizes]. split_and!; [|done|done|lia|].
  - rewrite lookup_app_r by lia. by rewrite Nat.sub_diag.
  - destruct t as [sz d]. cbn [sizes data] in *. f_equal.
    change (Z.to_nat 0) with 0%nat. rewrite drop_0, take_ge; [done|].
    unfold len in Hl. lia.
Qed.

Lemma take_drop_take (l : list Z) (c a N : nat) :
  (a + c <= N)%nat → take c (drop a (take N l)) = take c (drop a l).
Proof.
  intros H. rewrite !take_drop_commute, take_take. do 2 f_equal. lia.
Qed.

Lemma slice_bound_range n i : 0 <= n → 0 <= slice_bound n i <= n.
Proof. intros. unfold slice_bound. destruct (Z.ltb_spec i 0); lia. Qed.

(** Slicing an object is slicing the tensor it stands for. *)
Lemma vslice_sim h x t start stop t' :
  read h x = Some t → slice t start stop = Some t' →
  ∃ x', vslice x start stop = Some x' ∧ read h x' = Some t'.
Proof.
  intros (st & Hst & Hn & Ho & Hk & ->)%read_spec. unfold slice, vslice.
  cbn [sizes data]. destruct (vsizes x) as [|n rest] eqn:Hsz; [done|].
  intros [= <-]. eexists. split; [done|]. apply read_spec. exists st.
  cbn [storage offset vsizes]. apply Forall_cons_iff in Hn as [Hn0 Hrest].
  pose proof (numel_nonneg _ Hrest) as Hs.
  cbn [numel_of foldr] in *. fold (numel_of rest) in *.
  set (a := slice_bound n start). set (b := from_option _ _ _).
  assert (0 <= a <= n) by (apply slice_bound_range; lia).
  assert (0 <= b <= n).
  { subst b. destruct stop; simpl; [apply slice_bound_range|]; lia. }
  set (m := Z.max 0 (b - a)). assert (0 <= m ∧ a + m <= n) as [??] by lia.
  split_and!; [done|constructor; done|nia|nia|]. f_equal.
  rewrite take_drop_take by nia. rewrite drop_drop. do 2 f_equal. nia.
Qed.

Lemma vselect_sim h x t k t' :
  read h x = Some t → select t k = Some t' →
  ∃ x', vselect x k = Some x' ∧ read h x' = Some t'.
Proof.
  intros (st & Hst & Hn & Ho & Hk & ->)%read_spec. unfold select, vselect.
  cbn [sizes data]. destruct (vsizes x) as [|n rest] eqn:Hsz; [done|].
  set (k' := if k <? 0 then k + n else k).
  destruct (_ && _) eqn:Hc; [|done]. intros [= <-].
  apply andb_true_iff in Hc as [Hk1%Z.leb_le Hk2%Z.ltb_lt].
  eexists. split; [done|]. apply read_spec. exists st.
  cbn [storage offset vsizes]. apply Forall_cons_iff in Hn as [Hn0 Hrest].
  pose proof (numel_nonneg _ Hrest) as Hs.
  cbn [numel_of foldr] in *. fold (numel_of rest) in *.
  split_and!; [done|done|nia|nia|]. f_equal.
  rewrite take_drop_take by nia. rewrite drop_drop. do 2 f_equal. nia.
Qed.

Lemma vunsqueeze0_sim h x t :
  read h x = Some t → read h (vunsqueeze0 x) = Some (unsqueeze0 t).
Proof.
  intros (st & Hst & Hn & Ho & Hk & ->)%read_spec. apply read_spec.
  exists st. unfold vunsqueeze0, unsqueeze0. cbn [storage offset vsizes sizes data].
  cbn [numel_of foldr]. fold (numel_of (vsizes x)).
  rewrite Z.mul_1_l. split_and!; [done|constructor; [lia|done]|done|done|done].
Qed.

Lemma mapM_vselect_sim h x t (ks : list Z) ts :
  read h x = Some t → mapM (select t) ks = Some ts →
  ∃ xs, mapM (vselect x) ks = Some xs
    ∧ Forall2 (λ y u, read h y = Some u) xs ts.
Proof.
  intros Hx. revert ts. induction ks as [|k ks IH]; intros ts Hts.
  - injection Hts as <-. by exists [].
  - simpl in Hts. destruct (select t k) as [u|] eqn:Hu; [|done].
    simpl in Hts. destruct (mapM (select t) ks) as [us|]; [|done].
    injection Hts as <-.
    destruct (vselect_sim _ _ _ _ _ Hx Hu) as (y & Hy & Hyu).
    destruct (IH us eq_refl) as (ys & Hys & Hall).
    exists (y :: ys). simpl. rewrite Hy. simpl. rewrite Hys. simpl.
    split; [done|]. by constructor.
Qed.

Lemma viter_sim h x t ts :
  read h x = Some t → DP.iter t = Some ts →
  ∃ xs, viter x = Some xs ∧ Forall2 (λ y u, read h y = Some u) xs ts.
Proof.
  intros Hx. unfold DP.iter, viter, tensor_len.
  rewrite (read_sizes _ _ _ Hx). destruct (head (vsizes x)) as [n|]; [|done].
  simpl. by apply mapM_vselect_sim.
Qed.

Lemma Forall_List_filter {B} (P : B → Prop) (f : B → bool) (l : list B) :
  Forall P l → Forall P (List.filter f l).
Proof.
  induction 1 as [|b l Hb _ IH]; simpl; [constructor|].
  destruct (f b); [by constructor|done].
Qed.

Lemma stack_totals (rest : list Z) (l : list (tensor Z)) :
  Forall (λ u, wf u = true) l → forallb (same_trailing rest) l = true →
  0 <= foldr Z.add 0 (dim0 <$> l)
  ∧ len (concat (data <$> l)) = foldr Z.add 0 (dim0 <$> l) * numel_of rest.
Proof.
  induction 1 as [|u l Hu _ IH]; intros Hsame.
  - by split.
  - simpl in Hsame. apply andb_true_iff in Hsame as [Hu' Hl].
    destruct (IH Hl) as [IH1 IH2]. rewrite !fmap_cons. cbn [foldr concat].
    rewrite len_app, IH2. unfold same_trailing in Hu'.
    apply wf_spec in Hu as [Hn Hlen]. unfold dim0 in *.
    destruct (sizes u) as [|d r]; [done|]. apply bool_decide_eq_true in Hu'.
    subst r. apply Forall_cons_iff in Hn as [Hd _].
    cbn [numel_of foldr] in Hlen. fold (numel_of rest) in Hlen. simpl.
    split; [lia|]. rewrite Z.mul_add_distr_r. lia.
Qed.

(** [torch.cat] of well-formed tensors is well formed. *)
Lemma cat_wf (ts : list (tensor Z)) t :
  Forall (λ u, wf u = true) ts → cat ts = Some t → wf t = true.
Proof.
  intros Hts. unfold cat. destruct ts as [|t0 ts0]; [done|].
  pose proof (Forall_List_filter _ (λ t, negb (legacy_empty t)) _ Hts) as Hf.
  destruct (List.filter _ _) as [|u us]; [by intros [= <-]|].
  destruct (sizes u) as [|d rest] eqn:Hsu; [done|].
  destruct (forallb _ us) eqn:Hsame; [|done]. intros [= <-].
  destruct (stack_totals rest (u :: us) Hf) as [H1 H2].
  { simpl. rewrite Hsame, andb_true_r. unfold same_trailing. rewrite Hsu.
    by apply bool_decide_eq_true. }
  apply wf_spec. cbn [sizes data]. split.
  - constructor; [done|]. apply Forall_cons_iff in Hf as [Hu _].
    apply wf_spec in Hu as [Hn _]. rewrite Hsu in Hn.
    by apply Forall_cons_iff in Hn as [_ ?].
  - exact H2.
Qed.

Lemma M_bind_Some {X Y} (m : M X) (f : X → M Y) h a h' :
  m h = Some (a, h') → (m ≫= f) h = f a h'.
Proof. intros H. unfold mbind, M_bind. by rewrite H. Qed.

Lemma M_bind_lift {X Y} (o : option X) (f : X → M Y) h a :
  o = Some a → (lift o ≫= f) h = f a h.
Proof. intros ->. done. Qed.

Lemma load_sim h x t : read h x = Some t → load x h = Some (t, h).
Proof. intros H. unfold load, lift. by rewrite H. Qed.

Lemma load_all_sim h xs ts :
  Forall2 (λ y u, read h y = Some u) xs ts → load_all xs h = Some (ts, h).
Proof.
  induction 1 as [|x t xs ts Hx _ IH]; [done|]. simpl.
  rewrite (M_bind_Some _ _ _ _ _ (load_sim _ _ _ Hx)).
  by rewrite (M_bind_Some _ _ _ _ _ IH).
Qed.

(** Concatenation reads its operands and writes one new storage. *)
Lemma vcat_sim h xs ts t :
  Forall2 (λ y u, read h y = Some u) xs ts → cat ts = Some t →
  ∃ y, vcat xs h = Some (y, h ++ [data t])
    ∧ read (h ++ [data t]) y = Some t.
Proof.
  intros Hxs Ht. exists (View (length h) 0 (sizes t)). split.
  - unfold vcat. rewrite (M_bind_Some _ _ _ _ _ (load_all_sim _ _ _ Hxs)).
    unfold mbind, M_bind, lift. rewrite Ht. done.
  - apply read_alloc. apply (cat_wf ts); [|done].
    clear -Hxs. induction Hxs as [|x u xs us Hx _ IH]; constructor; [|done].
    by eapply read_wf.
Qed.

Lemma vitem_sim h x t a :
  read h x = Some t → item t = Some a → vitem x h = Some (a, h).
Proof.
  intros Hx Ha. unfold vitem.
  rewrite (M_bind_Some _ _ _ _ _ (load_sim _ _ _ Hx)). unfold lift.
  by rewrite Ha.
Qed.

Lemma vadd_scalar_sim h x t c :
  read h x = Some t →
  ∃ y, vadd_scalar x c h = Some (y, h ++ [data (add_scalar t c)])
    ∧ read (h ++ [data (add_scalar t c)]) y = Some (add_scalar t c).
Proof.
  intros Hx. exists (View (length h) 0 (sizes (add_scalar t c))). split.
  - unfold vadd_scalar. by rewrite (M_bind_Some _ _ _ _ _ (load_sim _ _ _ Hx)).
  - apply read_alloc. apply read_wf in Hx. apply wf_spec in Hx as [Hn Hl].
    apply wf_spec. unfold add_scalar. cbn [sizes data]. by rewrite len_fmap.
Qed.

Lemma read_mono h h' x t :
  h `prefix_of` h' → read h x = Some t → read h' x = Some t.
Proof. intros [k ->]. apply read_app. Qed.

Lemma reads_mono h h' xs (ts : list (tensor Z)) :
  h `prefix_of` h' →
  Forall2 (λ y u, read h y = Some u) xs ts →
  Forall2 (λ y u, read h' y = Some u) xs ts.
Proof.
  intros Hp. apply Forall2_impl. intros y u. by apply read_mono.
Qed.

(** The loop body at the two levels. *)
Lemma new_db_sim h ori seq v sq d :
  read h ori = Some v → read h seq = Some sq → DP.new_db v sq = Some d →
  ∃ y h', new_db ori seq h = Some (y, h')
    ∧ h `prefix_of` h' ∧ read h' y = Some d.
Proof.
  intros Hori Hseq. unfold DP.new_db.
  destruct (item sq) as [i|] eqn:Hi; [|done]. cbn [mbind option_bind].
  destruct (slice v 0 (Some i)) as [a|] eqn:Ha; [|done].
  cbn [mbind option_bind].
  destruct (item (add_scalar sq 1)) as [j|] eqn:Hj; [|done].
  cbn [mbind option_bind].
  destruct (slice v j None) as [b|] eqn:Hb; [|done].
  cbn [mbind option_bind]. intros Hd.
  destruct (vslice_sim _ _ _ _ _ _ Hori Ha) as (xa & Hxa & Hra).
  destruct (vslice_sim _ _ _ _ _ _ Hori Hb) as (xb & Hxb & Hrb).
  destruct (vadd_scalar_sim h seq sq 1 Hseq) as (s & Hs & Hrs).
  set (h1 := h ++ [data (add_scalar sq 1)]) in *.
  assert (Hp : h `prefix_of` h1) by (by eexists).
  destruct (vcat_sim h1 [xa; xb] [a; b] d) as (y & Hy & Hry); [|done|].
  { repeat constructor; by eapply read_mono. }
  exists y, (h1 ++ [data d]). split_and!; [|by etrans; [|eexists]|done].
  unfold new_db.
  rewrite (M_bind_Some _ _ _ _ _ (vitem_sim _ _ _ _ Hseq Hi)).
  rewrite (M_bind_lift _ _ _ _ Hxa).
  rewrite (M_bind_Some _ _ _ _ _ Hs).
  rewrite (M_bind_Some _ _ _ _ _ (vitem_sim _ _ _ _ Hrs Hj)).
  by rewrite (M_bind_lift _ _ _ _ Hxb).
Qed.

(** The loop at the two levels. *)
Lemma construction_loop_sim ori v seqs seqsV :
  ∀ h acc accV resV,
    read h ori = Some v →
    Forall2 (λ y u, read h y = Some u) seqs seqsV →
    Forall2 (λ y u, read h y = Some u) acc accV →
    DP.construction_loop v seqsV accV = Some resV →
    ∃ res h', construction_loop ori seqs acc h = Some (res, h')
      ∧ h `prefix_of` h'
      ∧ Forall2 (λ y u, read h' y = Some u) res resV.
Proof.
  revert seqsV. induction seqs as [|seq seqs IH];
    intros seqsV h acc accV resV Hori Hseqs Hacc Hres.
  - apply Forall2_nil_inv_l in Hseqs as ->. injection Hres as <-.
    by exists acc, h.
  - apply Forall2_cons_inv_l in Hseqs as (sq & seqsV' & Hsq & Hseqs & ->).
    cbn [DP.construction_loop] in Hres.
    destruct (DP.new_db v sq) as [d|] eqn:Hd; [|done].
    cbn [mbind option_bind] in Hres.
    destruct (new_db_sim _ _ _ _ _ _ Hori Hsq Hd) as (y & h1 & Hy & Hp & Hry).
    destruct (IH seqsV' h1 (acc ++ [vunsqueeze0 y]) (accV ++ [unsqueeze0 d]) resV)
      as (res & h' & Hrun & Hp' & Hreads); [by eapply read_mono| | |done|].
    + by eapply reads_mono.
    + apply Forall2_app; [by eapply reads_mono|].
      repeat constructor. by apply vunsqueeze0_sim.
    + exists res, h'. split_and!; [|by etrans|done].
      cbn [construction_loop]. by rewrite (M_bind_Some _ _ _ _ _ Hy).
Qed.

(** In[20] at the two levels: whenever the cell succeeds on the tensor
    values, it succeeds on every state of the storages in which the two
    objects stand for these values; storages are added and none is
    changed; and the objects it returns stand for the values computed. *)
Lemma cell20_sim h ori rsi v idx dbsV T :
  read h ori = Some v → read h rsi = Some idx →
  DP.randomized_db v idx = Some dbsV → cat dbsV = Some T →
  ∃ dbs y h', cell20 ori rsi h = Some ((dbs, y), h')
    ∧ h `prefix_of` h'
    ∧ Forall2 (λ y u, read h' y = Some u) dbs dbsV
    ∧ read h' y = Some T.
Proof.
  intros Hori Hrsi Hdbs HT. unfold DP.randomized_db in Hdbs.
  destruct (DP.iter idx) as [seqsV|] eqn:Hit; [|done].
  cbn [mbind option_bind] in Hdbs.
  destruct (viter_sim _ _ _ _ Hrsi Hit) as (seqs & Hseqs & Hreads).
  destruct (construction_loop_sim ori v seqs seqsV h [] [] dbsV)
    as (dbs & h1 & Hrun & Hp & Hdbsr); [done|done|constructor|done|].
  destruct (vcat_sim h1 dbs dbsV T Hdbsr HT) as (y & Hy & Hry).
  assert (Hp1 : h1 `prefix_of` h1 ++ [data T]) by (by eexists).
  exists dbs, y, (h1 ++ [data T]). split_and!; [|by etrans| |done].
  - unfold cell20. rewrite (M_bind_lift _ _ _ _ Hseqs).
    rewrite (M_bind_Some _ _ _ _ _ Hrun).
    by rewrite (M_bind_Some _ _ _ _ _ Hy).
  - by eapply reads_mono.
Qed.

End StoreFacts.

Section CellEffects.
Import Torch Store.
Implicit Types (h : heap) (ori rsi : view) (v idx : tensor Z).

(** C6. The construction is a function of the vector and of the indices:
    two runs of In[20], from whatever states of the storages in which
    [ori_vec] and [random_seq_index] stand for the same vector and the same
    indices, both succeed, and their lists of databases and their stacked
    tensors stand for the same values, which are the ones the cell computes
    on the values alone. *)
Theorem construction_is_deterministic h1 h2 ori1 ori2 rsi1 rsi2 v idx n m :
  wf v = true → sizes v = [n] → n < 2 ^ 63 →
  DP.is_random_ 0 n m idx = true → 1 <= m →
  read h1 ori1 = Some v → read h1 rsi1 = Some idx →
  read h2 ori2 = Some v → read h2 rsi2 = Some idx →
  ∃ dbsV TV dbs1 T1 h1' dbs2 T2 h2',
    DP.randomized_db v idx = Some dbsV
    ∧ DP.randomized_db_torch v idx = Some TV
    ∧ cell20 ori1 rsi1 h1 = Some ((dbs1, T1), h1')
    ∧ cell20 ori2 rsi2 h2 = Some ((dbs2, T2), h2')
    ∧ Forall2 (λ y u, read h1' y = Some u) dbs1 dbsV
    ∧ Forall2 (λ y u, read h2' y = Some u) dbs2 dbsV
    ∧ read h1' T1 = Some TV ∧ read h2' T2 = Some TV.
Proof.
  intros Hwf Hs Hn Hidx Hm Ho1 Hr1 Ho2 Hr2.
  apply (wf_vec v n Hs) in Hwf as [_ Hl].
  pose proof (randomized_db_closed v n idx m Hs Hl Hn Hidx) as Hdbs.
  pose proof (randomized_db_torch_closed v n idx m Hs Hl Hn Hidx Hm) as HT.
  pose proof HT as Hcat. unfold DP.randomized_db_torch in Hcat.
  rewrite Hdbs in Hcat. cbn [mbind option_bind] in Hcat.
  destruct (cell20_sim h1 ori1 rsi1 v idx _ _ Ho1 Hr1 Hdbs Hcat)
    as (dbs1 & T1 & h1' & Hrun1 & _ & Hd1 & Ht1).
  destruct (cell20_sim h2 ori2 rsi2 v idx _ _ Ho2 Hr2 Hdbs Hcat)
    as (dbs2 & T2 & h2' & Hrun2 & _ & Hd2 & Ht2).
  eexists _, _, dbs1, T1, h1', dbs2, T2, h2'. split_and!; done.
Qed.

Lemma construction_is_deterministic_witness :
  wf DP.small_vec = true ∧ sizes DP.small_vec = [5]
  ∧ DP.is_random_ 0 5 3 (Tensor [3] [0; 4; 2]) = true
  ∧ read heap_a ori_vec_a = Some DP.small_vec
  ∧ read heap_a random_seq_index_a = Some (Tensor [3] [0; 4; 2])
  ∧ read heap_b ori_vec_b = Some DP.small_vec
  ∧ read heap_b random_seq_index_b = Some (Tensor [3] [0; 4; 2])
  ∧ ∃ dbsV TV dbs1 T1 h1' dbs2 T2 h2',
      DP.randomized_db DP.small_vec (Tensor [3] [0; 4; 2]) = Some dbsV
      ∧ DP.randomized_db_torch DP.small_vec (Tensor [3] [0; 4; 2]) = Some TV
      ∧ cell20 ori_vec_a random_seq_index_a heap_a = Some ((dbs1, T1), h1')
      ∧ cell20 ori_vec_b random_seq_index_b heap_b = Some ((dbs2, T2), h2')
      ∧ Forall2 (λ y u, read h1' y = Some u) dbs1 dbsV
      ∧ Forall2 (λ y u, read h2' y = Some u) dbs2 dbsV
      ∧ read h1' T1 = Some TV ∧ read h2' T2 = Some TV.
Proof.
  do 7 (split; [reflexivity|]).
  apply (construction_is_deterministic heap_a heap_b ori_vec_a ori_vec_b
           random_seq_index_a random_seq_index_b DP.small_vec
           (Tensor [3] [0; 4; 2]) 5 3);
    (reflexivity || lia).
Defined.

(** C10. Running In[20], the loop and the final concatenation, leaves
    [ori_vec] as it was: the object still stands for the same vector of
    5000 entries, its storage is unchanged, and so is every storage that
    existed before the cell ran (the cell only adds storages). *)
Theorem construction_preserves_ori_vec h ori rsi rand idx :
  DP.is_rand 5000 rand = true → DP.is_random_ 0 5000 5000 idx = true →
  read h ori = Some (DP.ori_vec rand) → read h rsi = Some idx →
  ∃ dbs T h',
    cell20 ori rsi h = Some ((dbs, T), h')
    ∧ read h' ori = Some (DP.ori_vec rand)
    ∧ (read h' ori ≫= tensor_len) = Some 5000
    ∧ h' !! storage ori = h !! storage ori
    ∧ (∀ s st, h !! s = Some st → h' !! s = Some st)
    ∧ read h' rsi = Some idx.
Proof.
  intros [Hs Hl]%ori_vec_shape Hidx Hori Hrsi.
  pose proof (randomized_db_closed _ 5000 idx 5000 Hs Hl eq_refl Hidx) as Hdbs.
  pose proof (randomized_db_torch_closed _ 5000 idx 5000 Hs Hl eq_refl Hidx)
    as HT.
  specialize (HT ltac:(lia)). pose proof HT as Hcat.
  unfold DP.randomized_db_torch in Hcat.
  rewrite Hdbs in Hcat. cbn [mbind option_bind] in Hcat.
  destruct (cell20_sim h ori rsi _ idx _ _ Hori Hrsi Hdbs Hcat)
    as (dbs & T & h' & Hrun & [k ->] & _ & _).
  exists dbs, T, (h ++ k). split_and!; [done|by apply read_app| | |
    |by apply read_app].
  - rewrite (read_app _ _ _ _ Hori). cbn [mbind option_bind].
    unfold tensor_len. by rewrite Hs.
  - apply read_spec in Hori as (st & Hst & _). rewrite Hst.
    by apply lookup_app_l_Some.
  - intros s st Hst. by apply lookup_app_l_Some.
Qed.

Lemma construction_preserves_ori_vec_witness :
  DP.is_rand 5000 DP.rand_example = true
  ∧ DP.is_random_ 0 5000 5000 DP.random_seq_index_example = true
  ∧ read notebook_heap notebook_ori_vec = Some (DP.ori_vec DP.rand_example)
  ∧ read notebook_heap notebook_random_seq_index
    = Some DP.random_seq_index_example
  ∧ ∃ dbs T h',
      cell20 notebook_ori_vec notebook_random_seq_index notebook_heap
      = Some ((dbs, T), h')
      ∧ read h' notebook_ori_vec = Some (DP.ori_vec DP.rand_example)
      ∧ (read h' notebook_ori_vec ≫= tensor_len) = Some 5000
      ∧ h' !! storage notebook_ori_vec
        = notebook_heap !! storage notebook_ori_vec
      ∧ (∀ s st, notebook_heap !! s = Some st → h' !! s = Some st)
      ∧ read h' notebook_random_seq_index = Some DP.random_seq_index_example.
Proof.
  do 4 (split; [vm_compute; reflexivity|]).
  apply (construction_preserves_ori_vec notebook_heap notebook_ori_vec
           notebook_random_seq_index DP.rand_example
           DP.random_seq_index_example);
    vm_compute; reflexivity.
Defined.

End CellEffects.

Section Classifier.
Import Torch NN.
Context {R : Type}.
Variables (Rzero : R) (Radd Rmul Rsub : R → R → R) (Rrelu Rexp Rlog : R → R).
Implicit Types (x y : tensor R) (B : Z).

Lemma length_rows_of (c k : nat) (l : list R) : length (rows_of c k l) = k.
Proof. revert l. induction k as [|k IH]; intros l; simpl; [done|]. by rewrite IH. Qed.

Lemma length_concat_const {C} (ls : list (list C)) (c : nat) :
  Forall (λ r, length r = c) ls → length (concat ls) = (length ls * c)%nat.
Proof.
  induction 1 as [|r ls Hr _ IH]; simpl; [done|].
  rewrite length_app, IH, Hr. done.
Qed.

Lemma length_affine (W : list (list R)) (b row : list R) :
  length (affine Rzero Radd Rmul W b row) = (length W `min` length b)%nat.
Proof. unfold affine. by rewrite length_zip_with, length_fmap. Qed.

(** A linear layer on a batch: [B] rows in, [B] rows of [o] elements out. *)
Lemma linear_forward_batch (i o : Z) (w b : list R) x B :
  0 <= o → len b = o → sizes x = [B; i] → 0 <= B →
  ∃ y, linear_forward Rzero Radd Rmul (nn_Linear i o w b) x = Some y
    ∧ sizes y = [B; o] ∧ len (data y) = B * o.
Proof.
  intros Ho Hb Hs HB. unfold linear_forward, nn_Linear.
  cbn [weight bias sizes data]. rewrite Hs. cbn [reverse rev_append].
  rewrite !Z.eqb_refl. cbn [andb]. eexists. split; [done|].
  cbn [sizes data numel_of foldr app]. split; [done|].
  unfold len. rewrite (length_concat_const _ (Z.to_nat o)).
  - rewrite length_fmap, length_rows_of. lia.
  - apply Forall_fmap, Forall_true. intros row. cbn [compose].
    rewrite length_affine, length_rows_of. unfold len in Hb. lia.
Qed.

Lemma relu_forward_batch x B c :
  sizes x = [B; c] → len (data x) = B * c →
  sizes (relu_forward Rrelu x) = [B; c]
  ∧ len (data (relu_forward Rrelu x)) = B * c.
Proof. intros Hs Hl. unfold relu_forward. simpl. by rewrite len_fmap. Qed.

Lemma log_softmax_forward_batch x B c :
  sizes x = [B; c] → len (data x) = B * c →
  ∃ y, log_softmax_forward Rzero Radd Rsub Rexp Rlog 1 x = Some y
    ∧ sizes y = [B; c] ∧ len (data y) = B * c.
Proof.
  intros Hs Hl. unfold log_softmax_forward, dim. rewrite Hs. simpl.
  eexists. split; [done|]. simpl. split; [done|].
  unfold len in *. by rewrite length_imap.
Qed.

Lemma is_parameters_spec (w1 b1 w2 b2 w3 b3 : list R) :
  is_parameters w1 b1 w2 b2 w3 b3 = true →
  len b1 = 128 ∧ len b2 = 64 ∧ len b3 = 10.
Proof.
  unfold is_parameters. rewrite !andb_true_iff, !Z.eqb_eq. tauto.
Qed.

(** C8. The classifier maps every batch of [B >= 1] vectors of 784
    elements to a batch of [B] vectors of 10 elements: the forward pass
    succeeds, and its output has sizes ([B], 10) and holds [B * 10]
    elements. *)
Theorem classifier_output_shape (w1 b1 w2 b2 w3 b3 : list R) x B :
  is_parameters w1 b1 w2 b2 w3 b3 = true → is_batch B x = true → 1 <= B →
  ∃ y, Sequential Rzero Radd Rmul Rsub Rrelu Rexp Rlog
         (model w1 b1 w2 b2 w3 b3) x = Some y
    ∧ sizes y = [B; 10] ∧ wf y = true
    ∧ length (rows_of 10 (Z.to_nat B) (data y)) = Z.to_nat B.
Proof.
  intros (Hb1 & Hb2 & Hb3)%is_parameters_spec Hx HB.
  unfold is_batch in Hx.
  apply andb_true_iff in Hx as [Hs%bool_decide_eq_true Hl%Z.eqb_eq].
  destruct (linear_forward_batch 784 128 w1 b1 x B) as (y1 & H1 & Hs1 & Hl1);
    [lia|done|done|lia|].
  destruct (relu_forward_batch y1 B 128 Hs1 Hl1) as [Hs2 Hl2].
  destruct (linear_forward_batch 128 64 w2 b2 (relu_forward Rrelu y1) B)
    as (y3 & H3 & Hs3 & Hl3); [lia|done|done|lia|].
  destruct (relu_forward_batch y3 B 64 Hs3 Hl3) as [Hs4 Hl4].
  destruct (linear_forward_batch 64 10 w3 b3 (relu_forward Rrelu y3) B)
    as (y5 & H5 & Hs5 & Hl5); [lia|done|done|lia|].
  destruct (log_softmax_forward_batch y5 B 10 Hs5 Hl5) as (y & H6 & Hs6 & Hl6).
  exists y. split_and!.
  - unfold model. cbn [Sequential module_forward].
    rewrite H1. cbn [mbind option_bind]. rewrite H3. cbn [mbind option_bind].
    rewrite H5. cbn [mbind option_bind]. rewrite H6. done.
  - done.
  - apply wf_spec. rewrite Hs6. split; [repeat constructor; lia|].
    rewrite Hl6. simpl. lia.
  - apply length_rows_of.
Qed.

End Classifier.

Section ClassifierExample.
Import Torch NN.

Lemma classifier_output_shape_witness :
  is_parameters
    (constant_parameters (128 * 784)) (constant_parameters 128)
    (constant_parameters (64 * 128)) (constant_parameters 64)
    (constant_parameters (10 * 64)) (constant_parameters 10) = true
  ∧ is_batch 64 example_batch = true
  ∧ 1 <= 64
  ∧ ∃ y, Sequential 0 Z.add Z.mul Z.sub (Z.max 0) (Z.pow 2) Z.log2
           (model
              (constant_parameters (128 * 784)) (constant_parameters 128)
              (constant_parameters (64 * 128)) (constant_parameters 64)
              (constant_parameters (10 * 64)) (constant_parameters 10))
           example_batch = Some y
      ∧ sizes y = [64; 10] ∧ wf y = true
      ∧ length (rows_of 10 (Z.to_nat 64) (data y)) = Z.to_nat 64.
Proof.
  split; [vm_compute; reflexivity|]. split; [vm_compute; reflexivity|].
  split; [lia|].
  apply (classifier_output_shape 0 Z.add Z.mul Z.sub (Z.max 0) (Z.pow 2)
           Z.log2);
    [vm_compute; reflexivity | vm_compute; reflexivity | lia].
Defined.

End ClassifierExample.

Section TrainingOrder.
Import Training Descent.
Context {Params Grads Images Labels Output Scalar : Type}.
Variable zero_grads : Grads → Grads.
Variable flatten : Images → option Images.
Variable network : Params → Images → option Output.
Variable nll : Output → Labels → option Scalar.
Variable gradient : Params → Images → Labels → Grads → option Grads.
Variable sgd : Params → Grads → option Params.
Variables (zero : Scalar) (add : Scalar → Scalar → Scalar).
Variable div : Scalar → nat → Scalar.

Local Abbreviation pass :=
  (training_pass zero_grads flatten network nll gradient sgd add).
Local Abbreviation inner :=
  (batches_loop zero_grads flatten network nll gradient sgd add).
Local Abbreviation one_epoch :=
  (epoch zero_grads flatten network nll gradient sgd zero add div).
Local Abbreviation outer :=
  (epochs_loop zero_grads flatten network nll gradient sgd zero add div).
Local Abbreviation training :=
  (train zero_grads flatten network nll gradient sgd zero add div).
Local Abbreviation update :=
  (after_batch zero_grads flatten network nll gradient sgd).
Local Abbreviation updates :=
  (after_batches zero_grads flatten network nll gradient sgd).
Local Abbreviation steps tr := (length (List.filter is_step tr)).

Implicit Types (st : @state Params Grads Scalar) (p : Params)
  (tr : list (@event Params Scalar)).

Lemma T_bind_returned {X Y} (m : T X) (f : X → T Y) st x st' :
  m st = (Returned x, st') → (m ≫= f) st = f x st'.
Proof. intros H. unfold mbind, T_bind. by rewrite H. Qed.

Lemma T_bind_raised {X Y} (m : T X) (f : X → T Y) st e st' :
  m st = (Raised e, st') → (m ≫= f) st = (Raised e, st').
Proof. intros H. unfold mbind, T_bind. by rewrite H. Qed.

(** One batch, call by call: the pass stops at the first call that
    refuses, with what the calls before it have done. *)
Lemma training_pass_run (batch : Images * Labels) (rl : Scalar) st :
  pass batch rl st
  = match flatten batch.1 with
    | None =>
        (Raised FrameworkError,
         State (weights st) (zero_grads (grad st)) (trace st ++ [ZeroGrad]))
    | Some x =>
      match network (weights st) x with
      | None =>
          (Raised FrameworkError,
           State (weights st) (zero_grads (grad st))
             (trace st ++ [ZeroGrad; View]))
      | Some out =>
        match nll out batch.2 with
        | None =>
            (Raised FrameworkError,
             State (weights st) (zero_grads (grad st))
               (trace st ++ [ZeroGrad; View; Forward (weights st)]))
        | Some l =>
          match gradient (weights st) x batch.2 (zero_grads (grad st)) with
          | None =>
              (Raised FrameworkError,
               State (weights st) (zero_grads (grad st))
                 (trace st
                  ++ [ZeroGrad; View; Forward (weights st); Criterion]))
          | Some g =>
            match sgd (weights st) g with
            | None =>
                (Raised FrameworkError,
                 State (weights st) g (trace st ++ before_step (weights st)))
            | Some w' =>
                (Returned (add rl l),
                 State w' g (trace st ++ batch_events (weights st) w'))
            end
          end
        end
      end
    end.
Proof.
  destruct batch as [images labels]. destruct st as [w g tr].
  unfold training_pass, mbind, T_bind, mret, T_ret, optimizer_zero_grad,
    images_view, model_forward, criterion, loss_backward, optimizer_step,
    loss_item, log, before_step, batch_events.
  cbn. destruct (flatten images) as [x|]; cbn; [|done].
  destruct (network w x) as [out|]; cbn; [|by rewrite <- ?app_assoc].
  destruct (nll out labels) as [l|]; cbn; [|by rewrite <- ?app_assoc].
  destruct (gradient w x labels (zero_grads g)) as [g'|]; cbn;
    [|by rewrite <- ?app_assoc].
  destruct (sgd w g') as [w'|]; cbn; by rewrite <- ?app_assoc.
Qed.

Lemma pass_returned (batch : Images * Labels) (rl rl' : Scalar) st :
  (pass batch rl st).1 = Returned rl' →
  ∃ x out l g w',
    flatten batch.1 = Some x
    ∧ network (weights st) x = Some out
    ∧ nll out batch.2 = Some l
    ∧ gradient (weights st) x batch.2 (zero_grads (grad st)) = Some g
    ∧ sgd (weights st) g = Some w'
    ∧ update (core st) batch = Some (w', g)
    ∧ pass batch rl st
      = (Returned (add rl l),
         State w' g (trace st ++ batch_events (weights st) w')).
Proof.
  rewrite training_pass_run. unfold after_batch, core. cbn [fst snd].
  destruct (flatten batch.1) as [x|]; [|done].
  destruct (network (weights st) x) as [out|] eqn:Hout; [|done].
  destruct (nll out batch.2) as [l|] eqn:Hl; [|done].
  destruct (gradient _ x _ _) as [g|] eqn:Hg; [|done].
  destruct (sgd _ g) as [w'|] eqn:Hs; [|done].
  intros _. exists x, out, l, g, w'. cbn [mbind option_bind].
  rewrite Hout. cbn [mbind option_bind]. rewrite Hl. cbn [mbind option_bind].
  rewrite Hg. cbn [mbind option_bind]. rewrite Hs. done.
Qed.

Lemma pass_raised (batch : Images * Labels) (rl : Scalar) st e :
  (pass batch rl st).1 = Raised e →
  e = FrameworkError
  ∧ weights (pass batch rl st).2 = weights st
  ∧ update (core st) batch = None
  ∧ ∃ last, trace (pass batch rl st).2 = trace st ++ last
      ∧ last `prefix_of` before_step (weights st).
Proof.
  rewrite training_pass_run. unfold after_batch, core, before_step.
  cbn [fst snd].
  destruct (flatten batch.1) as [x|]; cbn [mbind option_bind].
  2:{ intros [= <-]. split_and!; [done..|]. eexists. split; [done|].
      by eexists. }
  destruct (network (weights st) x) as [out|]; cbn [mbind option_bind].
  2:{ intros [= <-]. split_and!; [done..|]. eexists. split; [done|].
      by eexists. }
  destruct (nll out batch.2) as [l|]; cbn [mbind option_bind].
  2:{ intros [= <-]. split_and!; [done..|]. eexists. split; [done|].
      by eexists. }
  destruct (gradient _ x _ _) as [g|]; cbn [mbind option_bind].
  2:{ intros [= <-]. split_and!; [done..|]. eexists. split; [done|].
      by eexists. }
  destruct (sgd _ g) as [w'|]; cbn [mbind option_bind]; [done|].
  intros [= <-]. split_and!; [done..|]. eexists. split; [done|]. done.
Qed.

Lemma sequenced_app p p' p'' tr1 tr2 :
  sequenced p tr1 p' → sequenced p' tr2 p'' → sequenced p (tr1 ++ tr2) p''.
Proof.
  induction 1 as [|p p' q tr _ IH|p x tr p' _ IH]; intros H2; [done| |].
  - rewrite <- app_assoc. apply sequenced_batch. by apply IH.
  - simpl. apply sequenced_print. by apply IH.
Qed.

Lemma steps_app tr1 tr2 : steps (tr1 ++ tr2) = (steps tr1 + steps tr2)%nat.
Proof. by rewrite List.filter_app, length_app. Qed.

(** In whole batches there are as many backward passes as steps. *)
Lemma sequenced_backwards p tr p' :
  sequenced p tr p' → length (List.filter is_backward tr) = steps tr.
Proof. induction 1 as [| |q x tr q' _ IH]; simpl; [done|lia|done]. Qed.

Lemma batches_loop_run (batches : list (Images * Labels)) :
  ∀ rl st, ∃ done last,
    trace (inner batches rl st).2 = trace st ++ done ++ last
    ∧ sequenced (weights st) done (weights (inner batches rl st).2)
    ∧ last `prefix_of` before_step (weights (inner batches rl st).2)
    ∧ (∀ rl', (inner batches rl st).1 = Returned rl' →
         last = [] ∧ steps done = length batches).
Proof.
  induction batches as [|batch batches IH]; intros rl st.
  - exists [], []. cbn. rewrite app_nil_r.
    split_and!; [done|constructor|apply prefix_nil|done].
  - cbn [batches_loop].
    destruct (pass batch rl st) as [[rl1|e] st1] eqn:Hp.
    + rewrite (T_bind_returned _ _ _ _ _ Hp).
      destruct (pass_returned batch rl rl1 st) as (x & out & l & g & w' & _ &
        _ & _ & _ & _ & _ & Hrun); [by rewrite Hp|].
      rewrite Hp in Hrun. injection Hrun as -> ->.
      match goal with |- context [inner batches ?r ?s] =>
        destruct (IH r s) as (done & last & Htr & Hseq & Hlast & Hret) end.
      exists (batch_events (weights st) w' ++ done), last.
      rewrite Htr. cbn [trace weights] in *. split_and!.
      * by rewrite <- !app_assoc.
      * by apply sequenced_batch.
      * done.
      * intros rl' Hr. destruct (Hret rl' Hr) as [-> Hn]. split; [done|].
        rewrite steps_app, Hn. done.
    + rewrite (T_bind_raised _ _ _ _ _ Hp). cbn [fst snd].
      destruct (pass_raised batch rl st e) as (_ & Hw & _ & last & Htr & Hlast);
        [by rewrite Hp|].
      rewrite Hp in Hw, Htr. cbn [snd] in Hw, Htr.
      exists [], last. rewrite Hw. split_and!; [done|constructor|done|done].
Qed.

Lemma epoch_run (batches : list (Images * Labels)) st :
  ∃ done last,
    trace (one_epoch batches st).2 = trace st ++ done ++ last
    ∧ sequenced (weights st) done (weights (one_epoch batches st).2)
    ∧ last `prefix_of` before_step (weights (one_epoch batches st).2)
    ∧ ((one_epoch batches st).1 = Returned tt →
         last = [] ∧ steps done = length batches).
Proof.
  unfold epoch.
  destruct (batches_loop_run batches zero st)
    as (done & last & Htr & Hseq & Hlast & Hret).
  destruct (inner batches zero st) as [[rl|e] st1] eqn:Hin.
  - rewrite (T_bind_returned _ _ _ _ _ Hin). cbn [fst snd] in *.
    destruct (Hret rl eq_refl) as [-> Hn]. rewrite app_nil_r in Htr.
    destruct batches as [|batch batches].
    + exists done, []. cbn. rewrite app_nil_r.
      split_and!; [done|done|apply prefix_nil|done].
    + exists (done ++ [Print (div rl (length (batch :: batches)))]), [].
      unfold divide, mbind, T_bind, mret, T_ret, print, log. cbn.
      rewrite app_nil_r, Htr.
      split_and!.
      * by rewrite <- app_assoc.
      * eapply sequenced_app; [done|]. apply sequenced_print, sequenced_nil.
      * apply prefix_nil.
      * intros _. split; [done|]. rewrite steps_app, Hn. simpl. lia.
  - rewrite (T_bind_raised _ _ _ _ _ Hin). cbn [fst snd] in *.
    exists done, last. split_and!; [done|done|done|done].
Qed.

Lemma epochs_loop_run (trainloader : nat → list (Images * Labels)) (n : nat) :
  ∀ e st, ∃ done last,
    trace (outer trainloader e n st).2 = trace st ++ done ++ last
    ∧ sequenced (weights st) done (weights (outer trainloader e n st).2)
    ∧ last `prefix_of` before_step (weights (outer trainloader e n st).2)
    ∧ ((outer trainloader e n st).1 = Returned tt →
         last = []
         ∧ steps done = sum_list ((λ k, length (trainloader k)) <$> seq e n)).
Proof.
  induction n as [|n IH]; intros e st.
  - exists [], []. cbn. rewrite app_nil_r.
    split_and!; [done|constructor|apply prefix_nil|done].
  - cbn [epochs_loop].
    destruct (epoch_run (trainloader e) st)
      as (done1 & last1 & Htr1 & Hseq1 & Hlast1 & Hret1).
    destruct (one_epoch (trainloader e) st) as [[[]|x] st1] eqn:He.
    + rewrite (T_bind_returned _ _ _ _ _ He). cbn [fst snd] in *.
      destruct (Hret1 eq_refl) as [-> Hn1]. rewrite app_nil_r in Htr1.
      destruct (IH (S e) st1) as (done2 & last2 & Htr2 & Hseq2 & Hlast2 & Hret2).
      exists (done1 ++ done2), last2. rewrite Htr2, Htr1. split_and!.
      * by rewrite <- !app_assoc.
      * by eapply sequenced_app.
      * done.
      * intros Hr. destruct (Hret2 Hr) as [-> Hn2]. split; [done|].
        rewrite steps_app, Hn1, Hn2. done.
    + rewrite (T_bind_raised _ _ _ _ _ He). cbn [fst snd] in *.
      exists done1, last1. split_and!; [done|done|done|done].
Qed.

Lemma after_batches_app (l1 l2 : list (Images * Labels)) (s : Params * Grads) :
  updates s (l1 ++ l2) = updates s l1 ≫= λ s', updates s' l2.
Proof.
  revert s. induction l1 as [|batch l1 IH]; intros s; [done|].
  cbn [app after_batches]. destruct (update s batch) as [s'|]; [|done].
  cbn [mbind option_bind]. apply IH.
Qed.

(** The inner loop on the weights and the buffers: it returns exactly
    when every batch can be applied in turn, with the result of applying
    them; if it raises, some number of whole batches has been applied. *)
Lemma batches_loop_core (batches : list (Images * Labels)) :
  ∀ rl st,
    match (inner batches rl st).1 with
    | Returned _ =>
        updates (core st) batches = Some (core (inner batches rl st).2)
    | Raised e =>
        e = FrameworkError
        ∧ updates (core st) batches = None
        ∧ ∃ k s, (k < length batches)%nat
            ∧ updates (core st) (take k batches) = Some s
            ∧ weights (inner batches rl st).2 = s.1
    end.
Proof.
  induction batches as [|batch batches IH]; intros rl st; [done|].
  cbn [batches_loop after_batches].
  destruct (pass batch rl st) as [[rl1|e] st1] eqn:Hp.
  - rewrite (T_bind_returned _ _ _ _ _ Hp).
    destruct (pass_returned batch rl rl1 st) as (x & out & l & g & w' & _ &
      _ & _ & _ & _ & Hup & Hrun); [by rewrite Hp|].
    rewrite Hp in Hrun. injection Hrun as -> ->.
    rewrite Hup. cbn [mbind option_bind].
    match goal with |- context [inner batches ?r ?s] =>
      specialize (IH r s); destruct (inner batches r s) as [[rl2|e] st2] end;
      cbn [fst snd] in *.
    + exact IH.
    + destruct IH as (-> & Hnone & k & s & Hk & Htake & Hw).
      split_and!; [done|done|]. exists (S k), s. cbn [take after_batches].
      rewrite Hup. cbn [mbind option_bind length].
      split_and!; [lia|done|done].
  - rewrite (T_bind_raised _ _ _ _ _ Hp). cbn [fst snd].
    destruct (pass_raised batch rl st e) as (-> & Hw & Hup & _);
      [by rewrite Hp|].
    rewrite Hp in Hw. cbn [snd] in Hw. rewrite Hup.
    split_and!; [done|done|]. exists 0%nat, (core st). cbn [length take].
    split_and!; [lia|done|done].
Qed.

Lemma epoch_core (batches : list (Images * Labels)) st :
  match (one_epoch batches st).1 with
  | Returned _ =>
      batches ≠ []
      ∧ updates (core st) batches = Some (core (one_epoch batches st).2)
  | Raised e =>
      (batches = [] ∨ updates (core st) batches = None)
      ∧ ∃ k s, (k ≤ length batches)%nat
          ∧ updates (core st) (take k batches) = Some s
          ∧ weights (one_epoch batches st).2 = s.1
  end.
Proof.
  unfold epoch. pose proof (batches_loop_core batches zero st) as Hin.
  destruct (inner batches zero st) as [[rl|e] st1] eqn:Hrun.
  - rewrite (T_bind_returned _ _ _ _ _ Hrun). cbn [fst snd] in *.
    destruct batches as [|batch batches].
    + unfold divide, raise, mbind, T_bind. cbn. split; [by left|].
      exists 0%nat, (core st). cbn. split_and!; [lia|done|].
      unfold core in Hin. cbn in Hin. by injection Hin as Hw _.
    + unfold divide, mbind, T_bind, mret, T_ret, print, log.
      cbn -[after_batches]. split; [done|]. exact Hin.
  - rewrite (T_bind_raised _ _ _ _ _ Hrun). cbn [fst snd] in *.
    destruct Hin as (_ & Hnone & k & s & Hk & Htake & Hw).
    split; [by right|]. exists k, s. split_and!; [lia|done|done].
Qed.

Lemma epochs_loop_core (trainloader : nat → list (Images * Labels)) (n : nat) :
  ∀ e st,
    match (outer trainloader e n st).1 with
    | Returned _ =>
        (∀ i, (e ≤ i < e + n)%nat → trainloader i ≠ [])
        ∧ updates (core st) (concat (trainloader <$> seq e n))
          = Some (core (outer trainloader e n st).2)
    | Raised x =>
        ((∃ i, (e ≤ i < e + n)%nat ∧ trainloader i = [])
         ∨ updates (core st) (concat (trainloader <$> seq e n)) = None)
        ∧ ∃ k s,
            updates (core st) (take k (concat (trainloader <$> seq e n)))
            = Some s
            ∧ weights (outer trainloader e n st).2 = s.1
    end.
Proof.
  induction n as [|n IH]; intros e st.
  - cbn. split; [|done]. intros i Hi. lia.
  - cbn [epochs_loop seq fmap list_fmap concat].
    pose proof (epoch_core (trainloader e) st) as He.
    destruct (one_epoch (trainloader e) st) as [[[]|x] st1] eqn:Hrun.
    + rewrite (T_bind_returned _ _ _ _ _ Hrun). cbn [fst snd] in *.
      destruct He as [Hne Hup]. specialize (IH (S e) st1).
      destruct (outer trainloader (S e) n st1) as [[[]|x] st2];
        cbn [fst snd] in *.
      * destruct IH as [Hall Hrest]. split.
        -- intros i Hi. destruct (decide (i = e)) as [->|]; [done|].
           apply Hall. lia.
        -- rewrite after_batches_app, Hup. exact Hrest.
      * destruct IH as [Hwhy (k & s & Htake & Hw)]. split.
        -- destruct Hwhy as [(i & Hi & Hnil)|Hnone].
           ++ left. exists i. split; [lia|done].
           ++ right. rewrite after_batches_app, Hup. exact Hnone.
        -- exists (length (trainloader e) + k)%nat, s.
           rewrite take_app_add, after_batches_app, Hup. done.
    + rewrite (T_bind_raised _ _ _ _ _ Hrun). cbn [fst snd] in *.
      destruct He as [Hwhy (k & s & Hk & Htake & Hw)]. split.
      * destruct Hwhy as [Hnil|Hnone].
        -- left. exists e. split; [lia|done].
        -- right. rewrite after_batches_app, Hnone. done.
      * exists k, s. by rewrite take_app_le.
Qed.

(** C7. For every batch the loop body makes the calls in the documented
    order: zero the gradients, flatten the images, forward pass, loss,
    backward pass, one optimizer step (and then reads the loss).  A batch
    whose pass returns has made all of them, each on an input it
    accepts: the forward and the backward pass on the weights the batch
    started with, the step on the gradients of that batch.  A pass in
    which a call raises has made an initial part of the calls before the
    step and leaves the weights as they were.  A run of the 5 epochs is
    made of whole batches in this order, followed, when it raises, by
    such an initial part; when it returns there is one step and one
    backward pass per batch of the loader.  It returns when every epoch
    has a batch and every batch can be applied in turn. *)
Theorem training_loop_order (trainloader : nat → list (Images * Labels)) st :
  (∀ (batch : Images * Labels) (rl : Scalar) st0,
     (∀ rl', (pass batch rl st0).1 = Returned rl' →
        ∃ x out l g w',
          flatten batch.1 = Some x
          ∧ network (weights st0) x = Some out
          ∧ nll out batch.2 = Some l
          ∧ gradient (weights st0) x batch.2 (zero_grads (grad st0)) = Some g
          ∧ sgd (weights st0) g = Some w'
          ∧ rl' = add rl l
          ∧ (pass batch rl st0).2
            = State w' g
                (trace st0
                 ++ [ZeroGrad; View; Forward (weights st0); Criterion;
                     Backward (weights st0) (weights st0);
                     Step (weights st0) w'; Item]))
     ∧ (∀ e, (pass batch rl st0).1 = Raised e →
          weights (pass batch rl st0).2 = weights st0
          ∧ ∃ last,
              trace (pass batch rl st0).2 = trace st0 ++ last
              ∧ last `prefix_of`
                  [ZeroGrad; View; Forward (weights st0); Criterion;
                   Backward (weights st0) (weights st0)]))
  ∧ (∃ done last,
       trace (training trainloader st).2 = trace st ++ done ++ last
       ∧ sequenced (weights st) done (weights (training trainloader st).2)
       ∧ length (List.filter is_backward done) = steps done
       ∧ last `prefix_of` before_step (weights (training trainloader st).2)
       ∧ ((training trainloader st).1 = Returned tt →
            last = []
            ∧ steps done
              = sum_list ((λ e, length (trainloader e)) <$> seq 0 epochs)))
  ∧ ((∀ e, (e < epochs)%nat → trainloader e ≠ []) →
     is_Some (updates (core st) (concat (trainloader <$> seq 0 epochs))) →
     (training trainloader st).1 = Returned tt).
Proof.
  split_and!.
  - intros batch rl st0. split.
    + intros rl' Hr.
      destruct (pass_returned batch rl rl' st0 Hr)
        as (x & out & l & g & w' & Hx & Hout & Hl & Hg & Hw & _ & Hrun).
      exists x, out, l, g, w'. rewrite Hrun in Hr |- *.
      injection Hr as <-. done.
    + intros e He.
      destruct (pass_raised batch rl st0 e He) as (_ & Hw & _ & Hlast). done.
  - destruct (epochs_loop_run trainloader epochs 0 st)
      as (done & last & Htr & Hseq & Hlast & Hret).
    exists done, last. split_and!; [done|done| |done|done].
    by eapply sequenced_backwards.
  - intros Hne [s Hs].
    pose proof (epochs_loop_core trainloader epochs 0 st) as Hcore.
    unfold train.
    destruct (outer trainloader 0 epochs st) as [[[]|x] st'];
      cbn [fst snd] in *; [done|].
    destruct Hcore as [[(i & Hi & Hnil)|Hnone] _].
    + exfalso. apply (Hne i); [lia|done].
    + by rewrite Hs in Hnone.
Qed.

(** The run of the five epochs returns exactly when every epoch has a
    batch and every batch can be applied in turn, none of its calls
    refusing; the weights and the gradient buffers are then those of one
    pass of per-batch updates over all the batches, epoch after epoch, in
    the order the loader yields them, and the running loss and the prints
    have no part in them.  When the run raises, the weights are those
    left by the batches applied until then. *)
Theorem training_is_a_fold (trainloader : nat → list (Images * Labels)) st :
  ((training trainloader st).1 = Returned tt
   ↔ (∀ e, (e < epochs)%nat → trainloader e ≠ [])
     ∧ is_Some (updates (weights st, grad st)
                  (concat (trainloader <$> seq 0 epochs))))
  ∧ ((training trainloader st).1 = Returned tt →
     updates (weights st, grad st) (concat (trainloader <$> seq 0 epochs))
     = Some (weights (training trainloader st).2,
             grad (training trainloader st).2))
  ∧ (∀ x, (training trainloader st).1 = Raised x →
       ∃ k s,
         updates (weights st, grad st)
           (take k (concat (trainloader <$> seq 0 epochs))) = Some s
         ∧ weights (training trainloader st).2 = s.1).
Proof.
  pose proof (epochs_loop_core trainloader epochs 0 st) as Hcore.
  unfold train, core in *.
  destruct (outer trainloader 0 epochs st) as [[[]|x] st'];
    cbn [fst snd] in *.
  - destruct Hcore as [Hne Hup]. split_and!.
    + split; [|done]. intros _. split; [|by eexists].
      intros e He. apply Hne. lia.
    + done.
    + done.
  - destruct Hcore as [Hwhy Htake]. split_and!.
    + split; [done|]. intros [Hne [s Hs]].
      destruct Hwhy as [(i & Hi & Hnil)|Hnone].
      * exfalso. apply (Hne i); [lia|done].
      * by rewrite Hs in Hnone.
    + done.
    + intros y _. exact Htake.
Qed.

Lemma pass_forgets (batch : Images * Labels) (rl : Scalar) st1 st2 :
  (∀ g g', zero_grads g = zero_grads g') →
  weights st1 = weights st2 →
  (pass batch rl st1).1 = (pass batch rl st2).1
  ∧ core (pass batch rl st1).2 = core (pass batch rl st2).2.
Proof.
  intros Hz Hw. rewrite !training_pass_run.
  rewrite Hw, (Hz (grad st1) (grad st2)). unfold core.
  destruct (flatten batch.1) as [x|]; [|done].
  destruct (network (weights st2) x) as [out|]; [|done].
  destruct (nll out batch.2) as [l|]; [|done].
  destruct (gradient _ x _ _) as [g|]; [|done].
  by destruct (sgd _ g) as [w'|].
Qed.

Lemma batches_loop_forgets (batches : list (Images * Labels)) :
  (∀ g g', zero_grads g = zero_grads g') →
  ∀ rl st1 st2,
    weights st1 = weights st2 →
    (inner batches rl st1).1 = (inner batches rl st2).1
    ∧ weights (inner batches rl st1).2 = weights (inner batches rl st2).2
    ∧ (batches ≠ [] ∨ grad st1 = grad st2 →
       grad (inner batches rl st1).2 = grad (inner batches rl st2).2).
Proof.
  intros Hz. induction batches as [|batch batches IH]; intros rl st1 st2 Hw.
  - cbn. split_and!; [done|done|]. by intros [|].
  - cbn [batches_loop].
    destruct (pass_forgets batch rl st1 st2 Hz Hw) as [Hr Hc].
    destruct (pass batch rl st1) as [[r1|e1] s1] eqn:H1;
      destruct (pass batch rl st2) as [[r2|e2] s2] eqn:H2;
      cbn [fst snd] in Hr, Hc; try done.
    + injection Hr as <-. injection Hc as Hw' Hg'.
      rewrite (T_bind_returned _ _ _ _ _ H1), (T_bind_returned _ _ _ _ _ H2).
      destruct (IH r1 s1 s2 Hw') as (Ho & Hws & Hgs).
      split_and!; [done|done|]. intros _. apply Hgs. by right.
    + injection Hr as <-. injection Hc as Hw' Hg'.
      rewrite (T_bind_raised _ _ _ _ _ H1), (T_bind_raised _ _ _ _ _ H2).
      done.
Qed.

Lemma epoch_forgets (batches : list (Images * Labels)) st1 st2 :
  (∀ g g', zero_grads g = zero_grads g') →
  weights st1 = weights st2 →
  (one_epoch batches st1).1 = (one_epoch batches st2).1
  ∧ weights (one_epoch batches st1).2 = weights (one_epoch batches st2).2
  ∧ (batches ≠ [] ∨ grad st1 = grad st2 →
     grad (one_epoch batches st1).2 = grad (one_epoch batches st2).2).
Proof.
  intros Hz Hw. unfold epoch.
  destruct (batches_loop_forgets batches Hz zero st1 st2 Hw) as (Hr & Hws & Hgs).
  destruct (inner batches zero st1) as [[r1|e1] s1] eqn:H1;
    destruct (inner batches zero st2) as [[r2|e2] s2] eqn:H2;
    cbn [fst snd] in Hr, Hws, Hgs; try done.
  - injection Hr as <-.
    rewrite (T_bind_returned _ _ _ _ _ H1), (T_bind_returned _ _ _ _ _ H2).
    by destruct batches.
  - injection Hr as <-.
    rewrite (T_bind_raised _ _ _ _ _ H1), (T_bind_raised _ _ _ _ _ H2).
    done.
Qed.

Lemma epochs_loop_forgets (trainloader : nat → list (Images * Labels))
    (n : nat) :
  (∀ g g', zero_grads g = zero_grads g') →
  ∀ e st1 st2,
    weights st1 = weights st2 →
    (outer trainloader e n st1).1 = (outer trainloader e n st2).1
    ∧ weights (outer trainloader e n st1).2
      = weights (outer trainloader e n st2).2
    ∧ ((n ≠ 0%nat ∧ trainloader e ≠ []) ∨ grad st1 = grad st2 →
       grad (outer trainloader e n st1).2
       = grad (outer trainloader e n st2).2).
Proof.
  intros Hz. induction n as [|n IH]; intros e st1 st2 Hw.
  - cbn. split_and!; [done|done|]. by intros [[]|].
  - cbn [epochs_loop].
    destruct (epoch_forgets (trainloader e) st1 st2 Hz Hw) as (Hr & Hws & Hgs).
    destruct (one_epoch (trainloader e) st1) as [[[]|e1] s1] eqn:H1;
      destruct (one_epoch (trainloader e) st2) as [[[]|e2] s2] eqn:H2;
      cbn [fst snd] in Hr, Hws, Hgs; try done.
    + rewrite (T_bind_returned _ _ _ _ _ H1), (T_bind_returned _ _ _ _ _ H2).
      destruct (IH (S e) s1 s2 Hws) as (Ho & Hw' & Hg').
      split_and!; [done|done|]. intros Hwhy. apply Hg'. right. apply Hgs.
      destruct Hwhy as [[_ Hne]|Hg]; [by left|by right].
    + injection Hr as <-.
      rewrite (T_bind_raised _ _ _ _ _ H1), (T_bind_raised _ _ _ _ _ H2).
      cbn [fst snd]. split_and!; [done|done|]. intros Hwhy. apply Hgs.
      destruct Hwhy as [[_ Hne]|Hg]; [by left|by right].
Qed.

(** Because every batch starts with [optimizer.zero_grad()], and as long
    as that call leaves the same buffers whatever they held, a run does
    not depend on the gradients left in the buffers before it: from the
    same weights, two runs return or raise alike and leave the same
    weights; they leave the same buffers too as soon as the first epoch
    has a batch. *)
Theorem training_forgets_old_gradients
    (trainloader : nat → list (Images * Labels)) st1 st2 :
  (∀ g g', zero_grads g = zero_grads g') →
  weights st1 = weights st2 →
  (training trainloader st1).1 = (training trainloader st2).1
  ∧ weights (training trainloader st1).2 = weights (training trainloader st2).2
  ∧ (trainloader 0%nat ≠ [] →
     grad (training trainloader st1).2 = grad (training trainloader st2).2).
Proof.
  intros Hz Hw.
  destruct (epochs_loop_forgets trainloader epochs Hz 0 st1 st2 Hw)
    as (Hr & Hws & Hgs).
  split_and!; [done|done|]. intros Hne. apply Hgs. left. by split.
Qed.

End TrainingOrder.

Section TrainingExamples.
Import Training Descent LoopExamples.

Local Abbreviation trainZ :=
  (train (λ _ : Z, 0) flatten network nll gradient sgd 0 Z.add mean).

(** On the loader of two good batches per epoch the run returns, after
    ten steps. *)
Example training_returns :
  (trainZ trainloader (State 10 7 [])).1 = Returned tt
  ∧ length (List.filter is_step (trace (trainZ trainloader (State 10 7 [])).2))
    = 10%nat.
Proof. by vm_compute. Qed.

(** The criterion refuses the label 12 of the second batch of the second
    epoch: the run raises there, after the forward pass of that batch and
    before its backward pass and its step; two steps were taken, by the
    batches before it. *)
Example training_stops_at_refused_label :
  trainZ mislabelled (State 10 7 [])
  = (Raised FrameworkError,
     State 1 0
       [ZeroGrad; View; Forward 10; Criterion; Backward 10 10; Step 10 10;
        Item; Print (-1);
        ZeroGrad; View; Forward 10; Criterion; Backward 10 10; Step 10 1;
        Item;
        ZeroGrad; View; Forward 1]).
Proof. by vm_compute. Qed.

(** On a loader of no batches the first epoch divides by zero: nothing is
    printed and the state is untouched. *)
Example training_on_empty_loader :
  trainZ empty_loader (State 10 7 [])
  = (Raised ZeroDivisionError, State 10 7 []).
Proof. by vm_compute. Qed.

Lemma training_forgets_old_gradients_witness :
  (∀ g g' : Z, (λ _ : Z, 0) g = (λ _ : Z, 0) g')
  ∧ weights (State 10 7 ([] : list (@event Z Z)))
    = weights (State 10 (-3) ([] : list (@event Z Z)))
  ∧ (trainZ trainloader (State 10 7 [])).1
    = (trainZ trainloader (State 10 (-3) [])).1
  ∧ weights (trainZ trainloader (State 10 7 [])).2
    = weights (trainZ trainloader (State 10 (-3) [])).2
  ∧ (trainloader 0%nat ≠ [] →
     grad (trainZ trainloader (State 10 7 [])).2
     = grad (trainZ trainloader (State 10 (-3) [])).2).
Proof.
  split; [reflexivity|]. split; [reflexivity|].
  apply (training_forgets_old_gradients (λ _ : Z, 0) flatten network nll
           gradient sgd 0 Z.add mean trainloader
           (State 10 7 []) (State 10 (-3) []));
    reflexivity.
Defined.

End TrainingExamples.

(** * Further properties of the differential-privacy cells *)

Section LeaveOneOutEdges.
Import Torch DP.
Context {A : Type}.
Implicit Types (v db : tensor A) (n i j : Z).

Lemma vec_eta v n : sizes v = [n] → Tensor [n] (data v) = v.
Proof. destruct v as [sz d]. simpl. by intros ->. Qed.

Lemma leave_one_out_beyond_ends v n i :
  wf v = true → sizes v = [n] → n <= i ∨ i < - n →
  leave_one_out v i = Some v.
Proof.
  intros Hwf Hs Hi. apply (wf_vec v n Hs) in Hwf as [Hn Hl].
  unfold leave_one_out, slice. rewrite Hs.
  cbn [from_option numel_of foldr mbind option_bind].
  rewrite !Z.mul_1_r.
  assert (Hall : take (Z.to_nat n) (data v) = data v).
  { apply take_ge. unfold len in Hl. lia. }
  pose proof (cat_vec_pair (data v) []) as Hr.
  pose proof (cat_vec_pair [] (data v)) as Hl'.
  rewrite Hl in Hr, Hl'. change (len (@nil A)) with 0 in Hr, Hl'.
  rewrite Z.add_0_r, app_nil_r in Hr. rewrite Z.add_0_l, app_nil_l in Hl'.
  rewrite (vec_eta v n Hs) in Hr, Hl'.
  destruct Hi as [Hi|Hi].
  - replace (slice_bound n 0) with 0
      by (unfold slice_bound; destruct (Z.ltb_spec 0 0); lia).
    replace (slice_bound n i) with n
      by (unfold slice_bound; destruct (Z.ltb_spec i 0); lia).
    replace (slice_bound n (i + 1)) with n
      by (unfold slice_bound; destruct (Z.ltb_spec (i + 1) 0); lia).
    rewrite Z.sub_0_r, Z.sub_diag.
    replace (Z.max 0 n) with n by lia. change (Z.max 0 0) with 0.
    change (Z.to_nat 0) with 0%nat. rewrite drop_0, take_0, Hall.
    by rewrite (vec_eta v n Hs).
  - replace (slice_bound n 0) with 0
      by (unfold slice_bound; destruct (Z.ltb_spec 0 0); lia).
    replace (slice_bound n i) with 0
      by (unfold slice_bound; destruct (Z.ltb_spec i 0); lia).
    replace (slice_bound n (i + 1)) with 0
      by (unfold slice_bound; destruct (Z.ltb_spec (i + 1) 0); lia).
    rewrite !Z.sub_0_r.
    replace (Z.max 0 n) with n by lia. change (Z.max 0 0) with 0.
    change (Z.to_nat 0) with 0%nat. rewrite drop_0, take_0, Hall.
    by rewrite (vec_eta v n Hs).
Qed.

Lemma add64_no_wrap i : - 2 ^ 63 <= i < 2 ^ 63 - 1 → add64 i 1 = i + 1.
Proof.
  intros Hi. unfold add64, wrap64.
  rewrite Z.mod_small; lia.
Qed.

(** With an index beyond either end of the vector the construction of
    In[6] removes nothing: the slices clamp their bounds, one of them is
    the whole vector and the other is empty.  The loop body of In[20],
    whose index is an element of a [LongTensor], does the same for every
    such index but the largest one: at [2^63 - 1] the sum [seq + 1] wraps
    to [-2^63], both slices are the whole vector, and the result is the
    vector twice. *)
Theorem leave_one_out_outside_range v n i :
  wf v = true → sizes v = [n] → n <= i ∨ i < - n →
  leave_one_out v i = Some v
  ∧ (- 2 ^ 63 <= i < 2 ^ 63 - 1 → new_db v (scalar i) = Some v)
  ∧ (i = 2 ^ 63 - 1 →
     new_db v (scalar i) = Some (Tensor [2 * n] (data v ++ data v))).
Proof.
  intros Hwf Hs Hi.
  pose proof (leave_one_out_beyond_ends v n i Hwf Hs Hi) as Hout.
  split_and!; [done| |].
  - intros Hr. rewrite <- Hout.
    unfold new_db, leave_one_out, item, add_scalar. simpl.
    by rewrite add64_no_wrap.
  - intros ->. apply (wf_vec v n Hs) in Hwf as [Hn Hl].
    assert (Hn' : n <= 2 ^ 63 - 1) by lia.
    change (new_db v (scalar (2 ^ 63 - 1)))
      with (a ← slice v 0 (Some (2 ^ 63 - 1));
            b ← slice v (- 2 ^ 63) None; cat [a; b]).
    assert (Hall : take (Z.to_nat n) (data v) = data v).
    { apply take_ge. unfold len in Hl. lia. }
    assert (H1 : slice v 0 (Some (2 ^ 63 - 1)) = Some v).
    { unfold slice. rewrite Hs. cbn [from_option numel_of foldr].
      rewrite !Z.mul_1_r.
      replace (slice_bound n 0) with 0
        by (unfold slice_bound; destruct (Z.ltb_spec 0 0); lia).
      replace (slice_bound n (2 ^ 63 - 1)) with n
        by (unfold slice_bound; destruct (Z.ltb_spec (2 ^ 63 - 1) 0); lia).
      rewrite Z.sub_0_r. replace (Z.max 0 n) with n by lia.
      change (Z.to_nat 0) with 0%nat. rewrite drop_0, Hall.
      by rewrite (vec_eta v n Hs). }
    assert (H2 : slice v (- 2 ^ 63) None = Some v).
    { unfold slice. rewrite Hs. cbn [from_option numel_of foldr].
      rewrite !Z.mul_1_r.
      replace (slice_bound n (- 2 ^ 63)) with 0
        by (unfold slice_bound; destruct (Z.ltb_spec (- 2 ^ 63) 0); lia).
      replace (slice_bound n n) with n
        by (unfold slice_bound; destruct (Z.ltb_spec n 0); lia).
      rewrite Z.sub_0_r. replace (Z.max 0 n) with n by lia.
      change (Z.to_nat 0) with 0%nat. rewrite drop_0, Hall.
      by rewrite (vec_eta v n Hs). }
    rewrite H1. cbn [mbind option_bind]. rewrite H2. cbn [mbind option_bind].
    pose proof (cat_vec_pair (data v) (data v)) as Hc.
    rewrite Hl, (vec_eta v n Hs) in Hc. rewrite Hc. do 3 f_equal. lia.
Qed.

Lemma slice_bound_negative n i :
  - n <= i < 0 → slice_bound n i = slice_bound n (n + i).
Proof.
  intros Hi. unfold slice_bound.
  destruct (Z.ltb_spec i 0); [|lia]. destruct (Z.ltb_spec (n + i) 0); lia.
Qed.

(** A negative index counts from the end, as Python's indices do, down to
    [-2]: the index [i] leaves out record [n + i].  The index [-1] does
    not: [i + 1] is then 0, the second slice is the whole vector, and the
    result is the vector without its last record followed by the whole
    vector. *)
Theorem leave_one_out_negative_index v n i :
  wf v = true → sizes v = [n] → - n <= i < 0 →
  (i <= -2 → leave_one_out v i = leave_one_out v (n + i))
  ∧ (i = -1 →
       leave_one_out v i
       = Some (Tensor [2 * n - 1]
                 (take (Z.to_nat (n - 1)) (data v) ++ data v))).
Proof.
  intros Hwf Hs Hi. apply (wf_vec v n Hs) in Hwf as [Hn Hl]. split.
  - intros Hi2. unfold leave_one_out, slice. rewrite Hs.
    cbn [from_option]. rewrite (slice_bound_negative n i) by lia.
    rewrite (slice_bound_negative n (i + 1)) by lia.
    by replace (n + (i + 1)) with (n + i + 1) by lia.
  - intros ->. unfold leave_one_out.
    assert (H1 : slice v 0 (Some (-1))
              = Some (Tensor [n - 1] (take (Z.to_nat (n - 1)) (data v)))).
    { unfold slice. rewrite Hs.
      cbn [from_option numel_of foldr]. rewrite !Z.mul_1_r.
      replace (slice_bound n 0) with 0
        by (unfold slice_bound; destruct (Z.ltb_spec 0 0); lia).
      replace (slice_bound n (-1)) with (n - 1)
        by (unfold slice_bound; simpl; lia).
      rewrite Z.sub_0_r. replace (Z.max 0 (n - 1)) with (n - 1) by lia.
      change (Z.to_nat 0) with 0%nat. by rewrite drop_0. }
    assert (H2 : slice v (-1 + 1) None = Some v).
    { rewrite (slice_vec_from v n) by (done || lia).
      change (Z.to_nat (-1 + 1)) with 0%nat. rewrite drop_0.
      replace (n - (-1 + 1)) with n by lia. by rewrite (vec_eta v n Hs). }
    rewrite H1, H2. cbn [mbind option_bind].
    pose proof (cat_vec_pair (take (Z.to_nat (n - 1)) (data v)) (data v)) as Hc.
    assert (Hlt : len (take (Z.to_nat (n - 1)) (data v)) = n - 1).
    { unfold len in *. rewrite length_take. lia. }
    rewrite Hlt, Hl in Hc. rewrite (vec_eta v n Hs) in Hc. rewrite Hc.
    do 3 f_equal. lia.
Qed.

(** The database and the record left out make up the original vector:
    nothing else is lost and nothing is duplicated. *)
Theorem leave_one_out_permutation v n i :
  wf v = true → sizes v = [n] → 0 <= i < n →
  ∃ x db, elem v i = Some x ∧ leave_one_out v i = Some db
    ∧ data v ≡ₚ x :: data db.
Proof.
  intros Hwf Hs Hi. apply (wf_vec v n Hs) in Hwf as [Hn Hl].
  destruct (lookup_lt_is_Some_2 (data v) (Z.to_nat i)) as [x Hx];
    [unfold len in Hl; lia|].
  exists x, (Tensor [n - 1] (delete (Z.to_nat i) (data v))). split_and!.
  - by rewrite (elem_vec v n).
  - by apply leave_one_out_delete.
  - by apply delete_Permutation.
Qed.

End LeaveOneOutEdges.

Section LeaveOneOutEdgesExamples.
Import Torch DP.

Lemma leave_one_out_outside_range_witness :
  wf small_vec = true ∧ sizes small_vec = [5] ∧ (5 <= 9 ∨ 9 < - 5)
  ∧ leave_one_out small_vec 9 = Some small_vec
  ∧ (- 2 ^ 63 <= 9 < 2 ^ 63 - 1 → new_db small_vec (scalar 9) = Some small_vec)
  ∧ (9 = 2 ^ 63 - 1 →
     new_db small_vec (scalar 9)
     = Some (Tensor [2 * 5] (data small_vec ++ data small_vec))).
Proof.
  split; [reflexivity|]. split; [reflexivity|]. split; [lia|].
  apply (leave_one_out_outside_range small_vec 5 9);
    [reflexivity | reflexivity | lia].
Defined.

(** The largest index a [LongTensor] holds, in the loop body of In[20]. *)
Example new_db_at_largest_index :
  new_db small_vec (scalar (2 ^ 63 - 1))
  = Some (Tensor [10] [1; 0; 0; 1; 1; 1; 0; 0; 1; 1]).
Proof. reflexivity. Qed.

Lemma leave_one_out_negative_index_witness :
  wf small_vec = true ∧ sizes small_vec = [5] ∧ - 5 <= -3 < 0
  ∧ (-3 <= -2 → leave_one_out small_vec (-3) = leave_one_out small_vec (5 + -3))
  ∧ (-3 = -1 →
       leave_one_out small_vec (-3)
       = Some (Tensor [2 * 5 - 1]
                 (take (Z.to_nat (5 - 1)) (data small_vec) ++ data small_vec))).
Proof.
  split; [reflexivity|]. split; [reflexivity|]. split; [lia|].
  apply (leave_one_out_negative_index small_vec 5 (-3));
    [reflexivity | reflexivity | lia].
Defined.

Lemma leave_one_out_permutation_witness :
  wf small_vec = true ∧ sizes small_vec = [5] ∧ 0 <= 2 < 5
  ∧ ∃ x d, elem small_vec 2 = Some x ∧ leave_one_out small_vec 2 = Some d
      ∧ data small_vec ≡ₚ x :: data d.
Proof.
  split; [reflexivity|]. split; [reflexivity|]. split; [lia|].
  apply (leave_one_out_permutation small_vec 5 2);
    [reflexivity | reflexivity | lia].
Defined.

End LeaveOneOutEdgesExamples.

Section Coverage.
Import Torch DP.
Context {A : Type}.
Implicit Types (idx : tensor Z) (n j : Z).

Lemma draws_Permutation (l : list Z) n :
  len l = n → Forall (λ x, 0 <= x < n) l → NoDup l → l ≡ₚ seqZ 0 n.
Proof.
  intros Hl Hr Hnd. assert (Hn : 0 <= n) by (unfold len in Hl; lia).
  apply submseteq_length_Permutation.
  - apply NoDup_submseteq; [done|]. intros x Hx. apply elem_of_seqZ.
    apply (proj1 (list.Forall_forall _ _) Hr) in Hx. lia.
  - rewrite length_seqZ. unfold len in Hl. lia.
Qed.

Lemma drawn_Permutation_iff (l : list Z) n :
  len l = n → Forall (λ x, 0 <= x < n) l →
  (NoDup l ↔ ∀ j, 0 <= j < n → j ∈ l).
Proof.
  intros Hl Hr. assert (Hn : 0 <= n) by (unfold len in Hl; lia).
  assert (Hlen : length (seqZ 0 n) = length l).
  { rewrite length_seqZ. unfold len in Hl. lia. }
  split.
  - intros Hnd j Hj.
    assert (l ≡ₚ seqZ 0 n) as ->.
    { apply submseteq_length_Permutation; [|lia].
      apply NoDup_submseteq; [done|]. intros x Hx. apply elem_of_seqZ.
      apply (proj1 (list.Forall_forall _ _) Hr) in Hx. lia. }
    apply elem_of_seqZ. lia.
  - intros Hall.
    assert (seqZ 0 n ≡ₚ l) as <-; [|apply NoDup_seqZ].
    apply submseteq_length_Permutation; [|lia].
    apply NoDup_submseteq; [apply NoDup_seqZ|]. intros x Hx.
    apply elem_of_seqZ in Hx. apply Hall. lia.
Qed.

(** As many indices as records are drawn, and In[20] builds as many
    databases.  Every record is left out by some database, the one built
    at the position where its index was drawn, exactly when no index is
    drawn twice; the databases are then, in some order, the leave-one-out
    databases of all the records. *)
Theorem distinct_draws_cover_all (v : tensor A) idx n :
  wf v = true → sizes v = [n] → n < 2 ^ 63 →
  is_random_ 0 n n idx = true →
  ∃ dbs,
    randomized_db v idx = Some dbs
    ∧ length dbs = Z.to_nat n
    ∧ (NoDup (data idx)
       ↔ ∀ j, 0 <= j < n →
           ∃ (k : nat) db,
             elem idx (Z.of_nat k) = Some j
             ∧ leave_one_out v j = Some db
             ∧ dbs !! k = Some (unsqueeze0 db))
    ∧ (NoDup (data idx) →
       ∃ all,
         mapM (λ j, unsqueeze0 <$> leave_one_out v j) (seqZ 0 n) = Some all
         ∧ dbs ≡ₚ all).
Proof.
  intros Hwf Hs Hn Hidx. apply (wf_vec v n Hs) in Hwf as [Hn0 Hl].
  pose proof Hidx as (Hsi & Hli & Hr)%is_random__spec.
  eexists. split; [by apply (randomized_db_closed v n idx n)|].
  split; [rewrite length_fmap; unfold len in Hli; lia|].
  assert (Hloo : ∀ j, 0 <= j < n →
            unsqueeze0 <$> leave_one_out v j
            = Some (Tensor [1; n - 1] (delete (Z.to_nat j) (data v)))).
  { intros j Hj. by rewrite (leave_one_out_delete v n). }
  split.
  - rewrite (drawn_Permutation_iff _ n Hli Hr).
    split.
    + intros H j Hj.
      destruct (proj1 (list_elem_of_lookup _ _) (H j Hj)) as [k Hk].
      apply lookup_lt_Some in Hk as Hlt.
      exists k, (Tensor [n - 1] (delete (Z.to_nat j) (data v))). split_and!.
      * rewrite (elem_vec idx n) by (done || unfold len in Hli; lia).
        by rewrite Nat2Z.id.
      * by apply leave_one_out_delete.
      * by rewrite list_lookup_fmap, Hk.
    + intros H j Hj. destruct (H j Hj) as (k & db & He & _ & Hk).
      apply lookup_lt_Some in Hk. rewrite length_fmap in Hk.
      rewrite (elem_vec idx n) in He by (done || unfold len in Hli; lia).
      apply list_elem_of_lookup. eauto.
  - intros Hnd.
    exists ((λ i, Tensor [1; n - 1] (delete (Z.to_nat i) (data v)))
              <$> seqZ 0 n).
    split.
    + apply mapM_Some. apply Forall2_fmap_r, Forall_Forall2_diag.
      apply list.Forall_forall. intros j Hj%elem_of_seqZ.
      apply Hloo. lia.
    + apply fmap_Permutation. by apply (draws_Permutation _ n).
Qed.

End Coverage.

Section CoverageExample.
Import Torch DP.

Lemma distinct_draws_cover_all_witness :
  wf small_vec = true ∧ sizes small_vec = [5] ∧ 5 < 2 ^ 63
  ∧ is_random_ 0 5 5 (Tensor [5] [3; 0; 4; 1; 2]) = true
  ∧ ∃ dbs,
      randomized_db small_vec (Tensor [5] [3; 0; 4; 1; 2]) = Some dbs
      ∧ length dbs = Z.to_nat 5
      ∧ (NoDup (data (Tensor [5] [3; 0; 4; 1; 2]))
         ↔ ∀ j, 0 <= j < 5 →
             ∃ (k : nat) db,
               elem (Tensor [5] [3; 0; 4; 1; 2]) (Z.of_nat k) = Some j
               ∧ leave_one_out small_vec j = Some db
               ∧ dbs !! k = Some (unsqueeze0 db))
      ∧ (NoDup (data (Tensor [5] [3; 0; 4; 1; 2])) →
         ∃ all,
           mapM (λ j, unsqueeze0 <$> leave_one_out small_vec j) (seqZ 0 5)
           = Some all
           ∧ dbs ≡ₚ all).
Proof.
  split; [reflexivity|]. split; [reflexivity|]. split; [lia|].
  split; [reflexivity|].
  apply (distinct_draws_cover_all small_vec (Tensor [5] [3; 0; 4; 1; 2]) 5);
    [reflexivity | reflexivity | lia | reflexivity].
Defined.

End CoverageExample.

(** * Further properties of In[20] on storages *)

Section Allocation.
Import Torch Store.
Implicit Types (h : heap) (x y ori rsi : view).

Lemma M_bind_inv {X Y} (m : M X) (f : X → M Y) h r :
  (m ≫= f) h = Some r → ∃ a h1, m h = Some (a, h1) ∧ f a h1 = Some r.
Proof.
  unfold mbind, M_bind. destruct (m h) as [[a h1]|]; [|done]. eauto.
Qed.

Lemma lift_inv {X} (o : option X) h a h' :
  lift o h = Some (a, h') → o = Some a ∧ h' = h.
Proof. unfold lift. destruct o; simpl; [|done]. by intros [= -> ->]. Qed.

Lemma load_inv x h t h' : load x h = Some (t, h') → h' = h.
Proof. unfold load. by intros [_ ->]%lift_inv. Qed.

Lemma load_all_inv xs h ts h' : load_all xs h = Some (ts, h') → h' = h.
Proof.
  revert ts h'. induction xs as [|x xs IH]; intros ts h'; simpl.
  - by intros [= _ <-].
  - intros (t & h1 & ->%load_inv & (ts' & h2 & ->%IH & [= _ <-])%M_bind_inv)%M_bind_inv.
    done.
Qed.

Lemma vitem_inv x h a h' : vitem x h = Some (a, h') → h' = h.
Proof.
  unfold vitem. intros (t & h1 & ->%load_inv & [_ ->]%lift_inv)%M_bind_inv.
  done.
Qed.

(** [torch.cat] and [seq + 1] write exactly one storage, the next one. *)
Lemma vcat_inv xs h y h' :
  vcat xs h = Some (y, h') →
  ∃ d, h' = h ++ [d] ∧ storage y = length h.
Proof.
  unfold vcat.
  intros (ts & h1 & ->%load_all_inv
          & (t & h2 & [_ ->]%lift_inv & [= <- <-])%M_bind_inv)%M_bind_inv.
  eauto.
Qed.

Lemma vadd_scalar_inv x c h y h' :
  vadd_scalar x c h = Some (y, h') →
  ∃ d, h' = h ++ [d] ∧ storage y = length h.
Proof.
  unfold vadd_scalar. intros (t & h1 & ->%load_inv & [= <- <-])%M_bind_inv.
  eauto.
Qed.

Lemma new_db_inv ori seq h y h' :
  new_db ori seq h = Some (y, h') →
  ∃ d1 d2, h' = h ++ [d1; d2] ∧ storage y = S (length h).
Proof.
  unfold new_db.
  intros (i & h1 & ->%vitem_inv & H)%M_bind_inv.
  apply M_bind_inv in H as (a & h2 & [_ ->]%lift_inv & H).
  apply M_bind_inv in H as (s & h3 & (d1 & -> & _)%vadd_scalar_inv & H).
  apply M_bind_inv in H as (j & h4 & ->%vitem_inv & H).
  apply M_bind_inv in H as (b & h5 & [_ ->]%lift_inv & H).
  apply vcat_inv in H as (d2 & -> & Hy).
  exists d1, d2. rewrite <- app_assoc. split; [done|].
  rewrite Hy, length_app. simpl. lia.
Qed.

Lemma construction_loop_inv ori seqs :
  ∀ acc h res h',
    construction_loop ori seqs acc h = Some (res, h') →
    ∃ news k, res = acc ++ news ∧ h' = h ++ k
      ∧ length news = length seqs ∧ length k = (2 * length seqs)%nat
      ∧ ∀ j y, news !! j = Some y →
          storage y = (length h + 2 * j + 1)%nat.
Proof.
  induction seqs as [|seq seqs IH]; intros acc h res h'.
  - intros [= <- <-]. exists [], []. rewrite !app_nil_r.
    split_and!; [done..|]. intros j y Hj. by rewrite lookup_nil in Hj.
  - cbn [construction_loop].
    intros (y & h1 & (d1 & d2 & -> & Hy)%new_db_inv & Hrest)%M_bind_inv.
    apply IH in Hrest as (news & k & -> & -> & Hn & Hk & Hst).
    exists (vunsqueeze0 y :: news), ([d1; d2] ++ k).
    rewrite <- !app_assoc. split_and!; [done|done|simpl; lia| |].
    + rewrite length_app. simpl. lia.
    + intros [|j] z Hz; simpl in Hz.
      * injection Hz as <-. simpl. lia.
      * apply Hst in Hz. rewrite length_app in Hz. simpl in Hz. lia.
Qed.

(** No object that In[20] builds shares memory with another one or with
    a tensor that existed before: the databases and the stack lie in
    storages that are pairwise distinct, and distinct from the storage of
    [ori_vec], of [random_seq_index] and of every tensor of the state the
    cell started from. *)
Theorem cell20_shares_no_memory ori rsi h dbs T h' :
  cell20 ori rsi h = Some ((dbs, T), h') →
  NoDup (storage <$> T :: dbs)
  ∧ ∀ x, is_Some (read h x) →
      Forall (λ y, storage y ≠ storage x) (T :: dbs).
Proof.
  unfold cell20.
  intros (seqs & h1 & [_ ->]%lift_inv & H)%M_bind_inv.
  apply M_bind_inv in H as (dbs' & h2 & Hloop & H).
  apply M_bind_inv in H as (T' & h3 & (d & -> & HT)%vcat_inv & [= <- <- <-]).
  apply construction_loop_inv in Hloop as (news & k & -> & -> & Hn & Hk & Hst).
  rewrite app_nil_l in *.
  assert (HTs : storage T' = (length h + 2 * length news)%nat).
  { rewrite HT, length_app. lia. }
  assert (Hdb : ∀ y, y ∈ news →
            ∃ j, (j < length news)%nat ∧ storage y = (length h + 2 * j + 1)%nat).
  { intros y [j Hj]%list_elem_of_lookup. exists j.
    split; [by eapply lookup_lt_Some|by apply Hst]. }
  split.
  - rewrite fmap_cons. apply NoDup_cons_2.
    + intros (y & Hy & Hin)%list_elem_of_fmap.
      destruct (Hdb y Hin) as (j & Hj & Hsj). lia.
    + apply NoDup_alt. intros i j s Hi Hj.
      apply list_lookup_fmap_Some in Hi as (y & -> & Hy).
      apply list_lookup_fmap_Some in Hj as (z & Hs & Hz).
      apply Hst in Hy, Hz. lia.
  - intros x [t (st & Hx%lookup_lt_Some & _)%read_spec].
    constructor; [lia|]. apply list.Forall_forall. intros y Hy.
    destruct (Hdb y Hy) as (j & _ & Hsj). lia.
Qed.

Lemma cell20_shares_no_memory_witness :
  cell20 ori_vec_a random_seq_index_a heap_a
  = Some (([View 3 0 [1; 4]; View 5 0 [1; 4]; View 7 0 [1; 4]],
           View 8 0 [3; 4]),
          heap_a ++ [[1]; [0; 0; 1; 1]; [5]; [1; 0; 0; 1]; [3]; [1; 0; 1; 1];
                     [0; 0; 1; 1; 1; 0; 0; 1; 1; 0; 1; 1]])
  ∧ NoDup (storage <$> View 8 0 [3; 4]
             :: [View 3 0 [1; 4]; View 5 0 [1; 4]; View 7 0 [1; 4]])
  ∧ ∀ x, is_Some (read heap_a x) →
      Forall (λ y, storage y ≠ storage x)
        (View 8 0 [3; 4]
         :: [View 3 0 [1; 4]; View 5 0 [1; 4]; View 7 0 [1; 4]]).
Proof.
  split; [reflexivity|].
  apply (cell20_shares_no_memory ori_vec_a random_seq_index_a heap_a
           [View 3 0 [1; 4]; View 5 0 [1; 4]; View 7 0 [1; 4]]
           (View 8 0 [3; 4])
           (heap_a ++ [[1]; [0; 0; 1; 1]; [5]; [1; 0; 0; 1]; [3];
                       [1; 0; 1; 1];
                       [0; 0; 1; 1; 1; 0; 0; 1; 1; 0; 1; 1]])).
  reflexivity.
Defined.

End Allocation.

(** * Properties of [view], [t] and [mm] *)

Section ViewFacts.
Import Torch Shape.
Context {A : Type}.
Implicit Types (x y : tensor A) (shape sz : list Z) (n B : Z).

Lemma numel_of_app (l k : list Z) :
  numel_of (l ++ k) = numel_of l * numel_of k.
Proof.
  induction l as [|s l IH]; simpl; [by destruct (numel_of k)|].
  fold (numel_of (l ++ k)). fold (numel_of l). rewrite IH. lia.
Qed.

Lemma infer_scan_nonneg shape acc inf dim :
  Forall (λ s, 0 <= s) shape →
  infer_scan shape acc inf dim = Some (acc * numel_of shape, inf).
Proof.
  intros H. revert acc dim. induction H as [|s shape Hs _ IH]; intros acc dim.
  - simpl. by rewrite Z.mul_1_r.
  - simpl. destruct (Z.eqb_spec s (-1)); [lia|].
    destruct (Z.leb_spec 0 s); [|lia]. rewrite IH.
    fold (numel_of shape). by rewrite Z.mul_assoc.
Qed.

Lemma infer_scan_known shape acc d0 dim r :
  infer_scan shape acc (Some d0) dim = Some r →
  r = (acc * numel_of shape, Some d0) ∧ Forall (λ s, 0 <= s) shape.
Proof.
  revert acc dim. induction shape as [|s shape IH]; intros acc dim; simpl.
  - intros [= <-]. by rewrite Z.mul_1_r.
  - destruct (Z.eqb_spec s (-1)); [done|].
    destruct (Z.leb_spec 0 s); [|done]. intros [-> Hsh]%IH.
    fold (numel_of shape). rewrite Z.mul_assoc. split; [done|by constructor].
Qed.

Lemma infer_scan_unknown shape acc dim ns o :
  infer_scan shape acc None dim = Some (ns, o) →
  match o with
  | None => ns = acc * numel_of shape ∧ Forall (λ s, 0 <= s) shape
  | Some d =>
      ∃ pre post, shape = pre ++ -1 :: post ∧ d = (dim + length pre)%nat
        ∧ Forall (λ s, 0 <= s) pre ∧ Forall (λ s, 0 <= s) post
        ∧ ns = acc * numel_of pre * numel_of post
  end.
Proof.
  revert acc dim. induction shape as [|s shape IH]; intros acc dim; simpl.
  - intros [= <- <-]. by rewrite Z.mul_1_r.
  - destruct (Z.eqb_spec s (-1)) as [->|Hs].
    + intros [[= -> ->] Hpost]%infer_scan_known. exists [], shape.
      simpl. rewrite Z.mul_1_r, Nat.add_0_r. done.
    + destruct (Z.leb_spec 0 s); [|done]. intros Hrec%IH.
      fold (numel_of shape). destruct o as [d|].
      * destruct Hrec as (pre & post & -> & -> & Hpre & Hpost & ->).
        exists (s :: pre), post. simpl. fold (numel_of pre).
        split_and!; [done|lia|by constructor|done|lia].
      * destruct Hrec as [-> Hsh]. split; [lia|by constructor].
Qed.

(** The sizes [view] settles on hold as many elements as the tensor. *)
Lemma infer_size_spec shape n sz :
  0 <= n → infer_size shape n = Some sz →
  Forall (λ s, 0 <= s) sz ∧ numel_of sz = n.
Proof.
  intros Hn. unfold infer_size.
  destruct (infer_scan shape 1 None 0) as [[ns o]|] eqn:Hscan; [|done].
  apply infer_scan_unknown in Hscan. cbn [mbind option_bind].
  destruct (_ || _) eqn:Hc; [|done]. destruct o as [d|].
  - destruct Hscan as (pre & post & -> & -> & Hpre & Hpost & ->).
    rewrite Z.mul_1_l in *.
    destruct (Z.eqb_spec (numel_of pre * numel_of post) 0) as [|Hne]; [done|].
    intros [= <-]. pose proof (numel_nonneg _ Hpre).
    pose proof (numel_nonneg _ Hpost).
    set (ns := numel_of pre * numel_of post) in *.
    assert (0 < ns) by nia.
    assert (Z.rem n ns = 0) as Hrem.
    { apply orb_true_iff in Hc as [->%Z.eqb_eq|Hc].
      - apply Z.rem_same. lia.
      - by apply andb_true_iff in Hc as [_ ?%Z.eqb_eq]. }
    rewrite Z.rem_mod_nonneg in Hrem by lia.
    rewrite Z.quot_div_nonneg by lia.
    rewrite insert_app_r_alt by (simpl; lia).
    match goal with |- context [<[?k := _]> (-1 :: post)] =>
      replace k with 0%nat by lia end.
    cbn [insert list_insert]. split.
    + apply Forall_app. split; [done|]. constructor; [|done].
      apply Z.div_pos; lia.
    + rewrite numel_of_app. simpl. fold (numel_of post).
      apply Z.div_exact in Hrem; [|lia]. subst ns. nia.
  - destruct Hscan as [-> Hsh]. intros [= <-]. split; [done|].
    apply orb_true_iff in Hc as [->%Z.eqb_eq|Hc]; [lia|].
    by rewrite bool_decide_eq_false_2 in Hc by (by intros [??]).
Qed.

Lemma view_inv x shape y :
  wf x = true → view x shape = Some y →
  data y = data x ∧ Forall (λ s, 0 <= s) (sizes y)
  ∧ numel_of (sizes y) = numel_of (sizes x).
Proof.
  intros [Hn Hl]%wf_spec. unfold view.
  destruct (infer_size _ _) as [sz|] eqn:Hsz; [|done]. intros [= <-].
  apply infer_size_spec in Hsz as [Hsz Hnum]; [|by apply numel_nonneg].
  done.
Qed.

(** [view] keeps the elements and their order, and yields a well-formed
    tensor of as many elements, whatever shape it accepts. *)
Theorem view_keeps_elements x shape y :
  wf x = true → view x shape = Some y →
  data y = data x ∧ wf y = true ∧ numel_of (sizes y) = numel_of (sizes x).
Proof.
  intros Hwf Hv. destruct (view_inv x shape y Hwf Hv) as (Hd & Hsz & Hnum).
  split_and!; [done| |done]. apply wf_spec in Hwf as [_ Hl].
  apply wf_spec. split; [done|]. by rewrite Hd, Hnum.
Qed.

(** Viewing back under the original sizes restores the tensor, as
    [img.view(1, 28, 28)] does after [images[0].view(1, 784)]. *)
Theorem view_round_trip x shape y :
  wf x = true → view x shape = Some y → view y (sizes x) = Some x.
Proof.
  intros Hwf Hv. destruct (view_inv x shape y Hwf Hv) as (Hd & _ & Hnum).
  apply wf_spec in Hwf as [Hn Hl]. unfold view, infer_size.
  rewrite (infer_scan_nonneg _ 1 None 0 Hn), Z.mul_1_l.
  cbn [mbind option_bind]. rewrite Hnum, Z.eqb_refl. cbn [orb].
  rewrite Hd. by destruct x.
Qed.

Lemma flatten_some x B rest :
  wf x = true → sizes x = B :: rest → 1 <= B →
  flatten x = Some (Tensor [B; numel_of rest] (data x)).
Proof.
  intros [Hn Hl]%wf_spec Hs H1. rewrite Hs in Hn, Hl.
  apply Forall_cons_iff in Hn as [HB Hrest].
  pose proof (numel_nonneg _ Hrest) as Hr.
  unfold flatten, tensor_len, view, infer_size. rewrite Hs.
  cbn [head mbind option_bind infer_scan numel_of foldr].
  fold (numel_of rest).
  destruct (Z.eqb_spec B (-1)); [lia|].
  destruct (Z.leb_spec 0 B); [|lia]. cbn [Z.eqb Pos.eqb].
  rewrite Z.mul_1_l. cbn [mbind option_bind].
  assert (Z.rem (B * numel_of rest) B = 0) as Hrem.
  { rewrite Z.rem_mod_nonneg by nia. rewrite Z.mul_comm. apply Z_mod_mult. }
  rewrite Hrem. rewrite bool_decide_eq_true_2 by eauto.
  destruct (Z.ltb_spec 0 B); [|lia]. cbn [andb Z.eqb]. rewrite orb_true_r.
  destruct (Z.eqb_spec B 0); [lia|]. cbn [insert list_insert].
  rewrite Z.quot_div_nonneg by nia.
  by rewrite Z.mul_comm, Z.div_mul by lia.
Qed.

(** [images.view(images.shape[0], -1)] turns a batch of [B >= 1] images
    into [B] rows, each holding the elements of one image, in order; it
    refuses a batch of no images, for which the row length cannot be
    inferred. *)
Theorem flatten_rows x B rest :
  wf x = true → sizes x = B :: rest →
  (1 <= B → flatten x = Some (Tensor [B; numel_of rest] (data x)))
  ∧ (B = 0 → flatten x = None).
Proof.
  intros Hwf Hs. split; [by apply flatten_some|].
  intros ->. unfold flatten, tensor_len. rewrite Hs.
  cbn [head mbind option_bind]. unfold view. by rewrite Hs.
Qed.

End ViewFacts.

Section ViewExamples.
Import Torch Shape.

Example view_rejects_other_numel :
  view (Tensor [2; 6] (replicate 12 0)) [5; -1] = None
  ∧ view (Tensor [2; 6] (replicate 12 0)) [-1; -1] = None
  ∧ view (Tensor [2; 6] (replicate 12 0)) [4; 4] = None.
Proof. by split_and!. Qed.

Lemma view_keeps_elements_witness :
  wf (Tensor [2; 1; 2; 3] (seqZ 1 12)) = true
  ∧ view (Tensor [2; 1; 2; 3] (seqZ 1 12)) [3; -1]
    = Some (Tensor [3; 4] (seqZ 1 12))
  ∧ data (Tensor [3; 4] (seqZ 1 12)) = data (Tensor [2; 1; 2; 3] (seqZ 1 12))
  ∧ wf (Tensor [3; 4] (seqZ 1 12)) = true
  ∧ numel_of (sizes (Tensor [3; 4] (seqZ 1 12)))
    = numel_of (sizes (Tensor [2; 1; 2; 3] (seqZ 1 12))).
Proof.
  split; [reflexivity|]. split; [reflexivity|].
  apply (view_keeps_elements (Tensor [2; 1; 2; 3] (seqZ 1 12)) [3; -1]);
    reflexivity.
Defined.

Lemma view_round_trip_witness :
  wf (Tensor [1; 28; 28] (replicate 784 0)) = true
  ∧ view (Tensor [1; 28; 28] (replicate 784 0)) [1; 784]
    = Some (Tensor [1; 784] (replicate 784 0))
  ∧ view (Tensor [1; 784] (replicate 784 0))
         (sizes (Tensor [1; 28; 28] (replicate 784 0)))
    = Some (Tensor [1; 28; 28] (replicate 784 0)).
Proof.
  split; [vm_compute; reflexivity|]. split; [vm_compute; reflexivity|].
  apply (view_round_trip (Tensor [1; 28; 28] (replicate 784 0)) [1; 784]);
    vm_compute; reflexivity.
Defined.

Lemma flatten_rows_witness :
  wf (Tensor [2; 1; 2; 3] (seqZ 1 12)) = true
  ∧ sizes (Tensor [2; 1; 2; 3] (seqZ 1 12)) = [2; 1; 2; 3]
  ∧ (1 <= 2 →
       flatten (Tensor [2; 1; 2; 3] (seqZ 1 12))
       = Some (Tensor [2; numel_of [1; 2; 3]]
                 (data (Tensor [2; 1; 2; 3] (seqZ 1 12)))))
  ∧ (2 = 0 → flatten (Tensor [2; 1; 2; 3] (seqZ 1 12)) = None).
Proof.
  split; [reflexivity|]. split; [reflexivity|].
  apply (flatten_rows (Tensor [2; 1; 2; 3] (seqZ 1 12)) 2 [1; 2; 3]);
    reflexivity.
Defined.

End ViewExamples.

Section MatrixFacts.
Import Torch Shape.
Context {R : Type}.
Variables (Rzero : R) (Radd Rmul : R → R → R).
Implicit Types (a b w : tensor R) (n m k : Z).

Lemma column_single_row (l : list R) :
  concat (column [l] <$> seq 0 (length l)) = l.
Proof.
  induction l as [|x l IH]; [done|].
  cbn [length seq fmap list_fmap concat]. rewrite <- fmap_S_seq.
  rewrite <- list_fmap_compose. unfold column at 1. simpl.
  f_equal. etrans; [|exact IH]. by f_equal.
Qed.

(** For a matrix of a single row, as [weights] is in Part 1, the transpose
    and the reshape to one column are the same tensor: the two solutions
    of the exercise, [torch.mm(features, torch.t(weights))] and
    [torch.mm(features, weights.reshape(5, 1))], multiply by the same
    matrix. *)
Theorem t_of_single_row w n (features : tensor R) :
  wf w = true → sizes w = [1; n] →
  t w = Some (Tensor [n; 1] (data w))
  ∧ reshape w [n; 1] = t w
  ∧ (t w ≫= mm Rzero Radd Rmul features)
    = (reshape w [n; 1] ≫= mm Rzero Radd Rmul features).
Proof.
  intros [Hn Hl]%wf_spec Hs. rewrite Hs in Hn, Hl.
  apply Forall_cons_iff in Hn as [_ [Hn _]%Forall_cons_iff].
  cbn [numel_of foldr] in Hl. rewrite Z.mul_1_l, Z.mul_1_r in Hl.
  assert (Ht : t w = Some (Tensor [n; 1] (data w))).
  { unfold t. rewrite Hs. do 2 f_equal. change (Z.to_nat 1) with 1%nat.
    cbn [NN.rows_of]. rewrite take_ge by (unfold len in Hl; lia).
    replace (Z.to_nat n) with (length (data w)) by (unfold len in Hl; lia).
    apply column_single_row. }
  assert (Hr : reshape w [n; 1] = Some (Tensor [n; 1] (data w))).
  { unfold reshape, view, infer_size.
    rewrite (infer_scan_nonneg [n; 1]) by (repeat constructor; lia).
    rewrite Hs. cbn [numel_of foldr mbind option_bind].
    replace (1 * (n * (1 * 1))) with (1 * (n * 1)) by lia.
    by rewrite Z.eqb_refl. }
  by rewrite Ht, Hr.
Qed.

Lemma length_column_rows (rows : list (list R)) (m : nat) :
  length (column rows <$> seq 0 m) = m.
Proof. by rewrite length_fmap, length_seq. Qed.

(** [torch.mm] refuses operands whose inner sizes differ, as the notebook
    meets with [torch.mm(features, weights)] on two (1, 5) matrices;
    otherwise the product of an (n, k) by a (k, m) matrix is an (n, m)
    matrix. *)
Theorem mm_sizes a b n k k' m :
  sizes a = [n; k] → sizes b = [k'; m] → 0 <= n → 0 <= m →
  (k ≠ k' → mm Rzero Radd Rmul a b = None)
  ∧ (k = k' →
       ∃ c, mm Rzero Radd Rmul a b = Some c
         ∧ sizes c = [n; m] ∧ wf c = true).
Proof.
  intros Ha Hb Hn Hm. unfold mm. rewrite Ha, Hb. split.
  - intros Hk. by destruct (Z.eqb_spec k k').
  - intros <-. rewrite Z.eqb_refl. eexists. split; [done|].
    split; [done|]. apply wf_spec. cbn [sizes data numel_of foldr].
    split; [repeat constructor; lia|]. unfold len.
    rewrite (length_concat_const _ (Z.to_nat m)).
    + rewrite length_fmap, length_rows_of. lia.
    + apply Forall_fmap, Forall_true. intros r. cbn [compose].
      by rewrite length_fmap, length_column_rows.
Qed.

End MatrixFacts.

Section MatrixExamples.
Import Torch Shape.

(** On a matrix of several rows the transpose and the reshape differ. *)
Example t_is_not_reshape :
  t (Tensor [2; 3] [1; 2; 3; 4; 5; 6]) = Some (Tensor [3; 2] [1; 4; 2; 5; 3; 6])
  ∧ reshape (Tensor [2; 3] [1; 2; 3; 4; 5; 6]) [3; 2]
    = Some (Tensor [3; 2] [1; 2; 3; 4; 5; 6]).
Proof. by split. Qed.

Lemma t_of_single_row_witness :
  wf (Tensor [1; 5] [3; 1; 4; 1; 5]) = true
  ∧ t (Tensor [1; 5] [3; 1; 4; 1; 5]) = Some (Tensor [5; 1] [3; 1; 4; 1; 5])
  ∧ reshape (Tensor [1; 5] [3; 1; 4; 1; 5]) [5; 1]
    = t (Tensor [1; 5] [3; 1; 4; 1; 5])
  ∧ (t (Tensor [1; 5] [3; 1; 4; 1; 5])
       ≫= mm 0 Z.add Z.mul (Tensor [1; 5] [2; 7; 1; 8; 2]))
    = (reshape (Tensor [1; 5] [3; 1; 4; 1; 5]) [5; 1]
         ≫= mm 0 Z.add Z.mul (Tensor [1; 5] [2; 7; 1; 8; 2])).
Proof.
  split; [reflexivity|].
  apply (t_of_single_row 0 Z.add Z.mul (Tensor [1; 5] [3; 1; 4; 1; 5]) 5
           (Tensor [1; 5] [2; 7; 1; 8; 2]));
    reflexivity.
Defined.

Lemma mm_sizes_witness :
  sizes (Tensor [1; 5] [2; 7; 1; 8; 2]) = [1; 5]
  ∧ sizes (Tensor [1; 5] [3; 1; 4; 1; 5]) = [1; 5]
  ∧ (5 ≠ 1 →
       mm 0 Z.add Z.mul (Tensor [1; 5] [2; 7; 1; 8; 2])
         (Tensor [1; 5] [3; 1; 4; 1; 5]) = None)
  ∧ (5 = 1 →
       ∃ c, mm 0 Z.add Z.mul (Tensor [1; 5] [2; 7; 1; 8; 2])
              (Tensor [1; 5] [3; 1; 4; 1; 5]) = Some c
         ∧ sizes c = [1; 5] ∧ wf c = true).
Proof.
  split; [reflexivity|]. split; [reflexivity|].
  apply (mm_sizes 0 Z.add Z.mul (Tensor [1; 5] [2; 7; 1; 8; 2])
           (Tensor [1; 5] [3; 1; 4; 1; 5]) 1 5 1 5);
    (reflexivity || lia).
Defined.

End MatrixExamples.

(** * Properties of the classifier's cells *)

Section ClassifierCells.
Import Torch NN Shape Loss.
Context {R : Type}.
Variables (Rzero : R) (Radd Rmul Rsub Rdiv : R → R → R).
Variables (Rneg Rrelu Rexp Rlog : R → R) (Rofnat : nat → R).
Implicit Types (x y images : tensor R) (labels : tensor Z) (B : Z).

Local Abbreviation forward := (run Rzero Radd Rmul Rsub Rrelu Rexp Rlog).
Local Abbreviation nll := (nll_loss Rzero Radd Rdiv Rneg Rofnat).
Local Abbreviation xent :=
  (cross_entropy Rzero Radd Rsub Rdiv Rneg Rexp Rlog Rofnat).
Local Abbreviation In2 :=
  (In2_loss Rzero Radd Rmul Rsub Rdiv Rneg Rrelu Rexp Rlog Rofnat).
Local Abbreviation In4 :=
  (In4_loss Rzero Radd Rmul Rsub Rdiv Rneg Rrelu Rexp Rlog Rofnat).

(** A [Sequential] of two lists of modules runs the first list, then the
    second on its output. *)
Lemma Sequential_app (ms1 ms2 : list module) x :
  forward (ms1 ++ ms2) x = forward ms1 x ≫= forward ms2.
Proof.
  unfold run. revert x. induction ms1 as [|m ms1 IH]; intros x; [done|].
  cbn [app Sequential]. destruct (module_forward _ _ _ _ _ _ _ m x) as [y|];
    [|done].
  cbn [mbind option_bind]. apply IH.
Qed.

(** The two exercises of Part 3 compute the same loss: the network that
    ends in [LogSoftmax] under [NLLLoss] (In[4]) and the network that
    returns the logits under [CrossEntropyLoss] (In[2]), for the same
    parameters, images and labels; in particular one fails exactly when
    the other does. *)
Theorem losses_agree (w1 b1 w2 b2 w3 b3 : list R) images labels :
  In2 w1 b1 w2 b2 w3 b3 images labels = In4 w1 b1 w2 b2 w3 b3 images labels.
Proof.
  unfold In2_loss, In4_loss. destruct (flatten images) as [x|]; [|done].
  cbn [mbind option_bind].
  change (model w1 b1 w2 b2 w3 b3)
    with (logits_model w1 b1 w2 b2 w3 b3 ++ [LogSoftmax 1]).
  rewrite Sequential_app.
  destruct (forward (logits_model w1 b1 w2 b2 w3 b3) x) as [logits|]; [|done].
  cbn [mbind option_bind]. unfold cross_entropy, run.
  cbn [Sequential module_forward].
  by destruct (log_softmax_forward _ _ _ _ _ 1 logits).
Qed.

Lemma linear_forward_refuses (i o : Z) (w b : list R) x init last :
  sizes x = init ++ [last] → last ≠ i →
  linear_forward Rzero Radd Rmul (nn_Linear i o w b) x = None.
Proof.
  intros Hs Hlast. unfold linear_forward, nn_Linear.
  cbn [weight bias sizes]. rewrite Hs, reverse_snoc.
  apply Z.eqb_neq in Hlast. by rewrite Hlast.
Qed.

(** The first layer refuses every input whose last size is not 784: the
    images must be flattened first. *)
Theorem model_refuses_other_widths (w1 b1 w2 b2 w3 b3 : list R) x init last :
  sizes x = init ++ [last] → last ≠ 784 →
  forward (model w1 b1 w2 b2 w3 b3) x = None
  ∧ forward (logits_model w1 b1 w2 b2 w3 b3) x = None.
Proof.
  intros Hs Hlast. unfold run, model, logits_model.
  cbn [Sequential module_forward].
  by rewrite (linear_forward_refuses 784 128 w1 b1 x init last).
Qed.

Lemma linear_forward_vector (i o : Z) (w b : list R) x :
  0 <= o → len b = o → sizes x = [i] →
  ∃ y, linear_forward Rzero Radd Rmul (nn_Linear i o w b) x = Some y
    ∧ sizes y = [o] ∧ len (data y) = o.
Proof.
  intros Ho Hb Hs. unfold linear_forward, nn_Linear.
  cbn [weight bias sizes data]. rewrite Hs. cbn [reverse rev_append].
  rewrite !Z.eqb_refl. cbn [andb]. eexists. split; [done|].
  cbn [sizes data numel_of foldr app rows_of]. split; [done|].
  change (Z.to_nat 1) with 1%nat. cbn [rows_of fmap list_fmap concat].
  rewrite app_nil_r. unfold len.
  rewrite length_affine, length_rows_of. unfold len in Hb. lia.
Qed.

(** A single flattened image of sizes (784), without the batch dimension,
    goes through the layers up to the logits, of sizes (10), and is then
    refused by [LogSoftmax(dim=1)], for which there is no dimension 1: the
    last cell of Part 3 views its image as (1, 784). *)
Theorem model_on_single_vector (w1 b1 w2 b2 w3 b3 : list R) x :
  is_parameters w1 b1 w2 b2 w3 b3 = true → sizes x = [784] →
  (∃ y, forward (logits_model w1 b1 w2 b2 w3 b3) x = Some y ∧ sizes y = [10])
  ∧ forward (model w1 b1 w2 b2 w3 b3) x = None.
Proof.
  intros Hp Hs.
  apply (is_parameters_spec Rzero Radd Rmul Rsub Rrelu Rexp Rlog) in Hp
    as (Hb1 & Hb2 & Hb3).
  destruct (linear_forward_vector 784 128 w1 b1 x) as (y1 & H1 & Hs1 & _);
    [lia|done|done|].
  destruct (linear_forward_vector 128 64 w2 b2 (relu_forward Rrelu y1))
    as (y3 & H3 & Hs3 & _); [lia|done|done|].
  destruct (linear_forward_vector 64 10 w3 b3 (relu_forward Rrelu y3))
    as (y5 & H5 & Hs5 & _); [lia|done|done|].
  assert (Hlogits : forward (logits_model w1 b1 w2 b2 w3 b3) x = Some y5).
  { unfold run, logits_model. cbn [Sequential module_forward].
    rewrite H1. cbn [mbind option_bind]. rewrite H3. cbn [mbind option_bind].
    by rewrite H5. }
  split; [by exists y5|].
  change (model w1 b1 w2 b2 w3 b3)
    with (logits_model w1 b1 w2 b2 w3 b3 ++ [LogSoftmax 1]).
  rewrite Sequential_app, Hlogits. cbn [mbind option_bind].
  unfold run. cbn [Sequential module_forward].
  unfold log_softmax_forward, dim. by rewrite Hs5.
Qed.

Lemma model_forward_batch (w1 b1 w2 b2 w3 b3 : list R) x B :
  is_parameters w1 b1 w2 b2 w3 b3 = true →
  sizes x = [B; 784] → 0 <= B →
  ∃ y, forward (model w1 b1 w2 b2 w3 b3) x = Some y
    ∧ sizes y = [B; 10] ∧ len (data y) = B * 10.
Proof.
  intros Hp Hs HB.
  apply (is_parameters_spec Rzero Radd Rmul Rsub Rrelu Rexp Rlog) in Hp
    as (Hb1 & Hb2 & Hb3).
  destruct (linear_forward_batch Rzero Radd Rmul 784 128 w1 b1 x B)
    as (y1 & H1 & Hs1 & Hl1); [lia|done|done|lia|].
  destruct (relu_forward_batch Rrelu y1 B 128 Hs1 Hl1) as [Hs2 Hl2].
  destruct (linear_forward_batch Rzero Radd Rmul 128 64 w2 b2
              (relu_forward Rrelu y1) B)
    as (y3 & H3 & Hs3 & Hl3); [lia|done|done|lia|].
  destruct (relu_forward_batch Rrelu y3 B 64 Hs3 Hl3) as [Hs4 Hl4].
  destruct (linear_forward_batch Rzero Radd Rmul 64 10 w3 b3
              (relu_forward Rrelu y3) B)
    as (y5 & H5 & Hs5 & Hl5); [lia|done|done|lia|].
  destruct (log_softmax_forward_batch Rzero Radd Rsub Rexp Rlog y5 B 10
              Hs5 Hl5) as (y & H6 & Hs6 & Hl6).
  exists y. split; [|done]. unfold run, model.
  cbn [Sequential module_forward].
  rewrite H1. cbn [mbind option_bind]. rewrite H3. cbn [mbind option_bind].
  rewrite H5. cbn [mbind option_bind]. by rewrite H6.
Qed.

Lemma is_images_spec B images :
  is_images B images = true →
  sizes images = [B; 1; 28; 28] ∧ len (data images) = B * 784.
Proof.
  unfold is_images. by rewrite andb_true_iff, bool_decide_eq_true, Z.eqb_eq.
Qed.

Lemma is_labels_spec B labels :
  is_labels B labels = true →
  sizes labels = [B] ∧ len (data labels) = B
  ∧ Forall (λ t, 0 <= t < 10) (data labels).
Proof.
  intros H. change (is_labels B labels) with (DP.is_random_ 0 10 B labels) in H.
  by apply is_random__spec.
Qed.

Lemma pick_defined (input : list R) (C k : nat) (t : Z) :
  0 <= t < Z.of_nat C → (S k * C <= length input)%nat →
  is_Some (pick input C 1 k t).
Proof.
  intros Ht Hlen. unfold pick.
  destruct (Z.eqb_spec t (-100)); [lia|].
  destruct (Z.leb_spec 0 t); [|lia].
  destruct (Z.ltb_spec t (Z.of_nat C)); [|lia]. cbn [andb].
  destruct (lookup_lt_is_Some_2 input
              (k / 1 * (C * 1) + Z.to_nat t * 1 + k `mod` 1)%nat)
    as [x ->]; [|by eexists].
  rewrite Nat.div_1_r, Nat.mod_1_r. nia.
Qed.

Lemma mapM_pick_defined (input : list R) (C : nat) (l : list Z) (k : nat) :
  Forall (λ t, 0 <= t < Z.of_nat C) l →
  ((k + length l) * C <= length input)%nat →
  is_Some (mapM (λ pt, pick input C 1 pt.1 pt.2) (zip (seq k (length l)) l)).
Proof.
  intros Hl. revert k. induction Hl as [|t l Ht _ IH]; intros k Hlen.
  - by eexists.
  - cbn [length seq zip zip_with mapM fst snd].
    destruct (pick_defined input C k t) as [x ->];
      [done|simpl in Hlen; nia|].
    cbn [mbind option_bind].
    destruct (IH (S k)) as [r ->]; [simpl in Hlen; lia|]. by eexists.
Qed.

(** The negative log-likelihood of In[4] is defined on log-probabilities
    of sizes (B, C) and [B] targets that are classes. *)
Lemma nll_loss_defined (input : tensor R) labels B C :
  sizes input = [B; C] → len (data input) = B * C → 0 <= C →
  sizes labels = [B] → len (data labels) = B →
  Forall (λ t, 0 <= t < C) (data labels) →
  is_Some (nll input labels).
Proof.
  intros Hsi Hli HC Hsl Hll Hr. unfold nll_loss. rewrite Hsi, Hsl.
  rewrite bool_decide_eq_true_2 by done.
  cbn [numel_of foldr]. change (Z.to_nat 1) with 1%nat.
  destruct (mapM_pick_defined (data input) (Z.to_nat C) (data labels) 0)
    as [picks ->]; [| |by eexists].
  - eapply Forall_impl; [|exact Hr]. intros t Ht. cbv beta in Ht. lia.
  - unfold len in *. nia.
Qed.

(** In[4] as a whole, on every batch the loader can yield: [B >= 1] images
    of sizes (1, 28, 28) with [B] labels among the ten digits.  The images
    are flattened, the forward pass returns (B, 10) log-probabilities, and
    the loss is defined: no step refuses its input. *)
Theorem In4_loss_defined (w1 b1 w2 b2 w3 b3 : list R) images labels B :
  is_parameters w1 b1 w2 b2 w3 b3 = true →
  is_images B images = true → is_labels B labels = true → 1 <= B →
  ∃ x logp loss,
    flatten images = Some x ∧ sizes x = [B; 784]
    ∧ forward (model w1 b1 w2 b2 w3 b3) x = Some logp
    ∧ sizes logp = [B; 10]
    ∧ In4 w1 b1 w2 b2 w3 b3 images labels = Some loss.
Proof.
  intros Hp [Hsi Hli]%is_images_spec (Hsl & Hll & Hr)%is_labels_spec HB.
  assert (Hflat : flatten images = Some (Tensor [B; 784] (data images))).
  { apply (flatten_some images B [1; 28; 28]); [|done|done].
    apply wf_spec. rewrite Hsi. split; [repeat constructor; lia|].
    rewrite Hli. simpl. lia. }
  destruct (model_forward_batch w1 b1 w2 b2 w3 b3
              (Tensor [B; 784] (data images)) B Hp)
    as (logp & Hfw & Hs & Hl); [done|lia|].
  destruct (nll_loss_defined logp labels B 10) as [loss Hloss];
    [done|done|lia|done|done|done|].
  exists (Tensor [B; 784] (data images)), logp, loss.
  split_and!; [done|done|done|done|].
  unfold In4_loss. rewrite Hflat. cbn [mbind option_bind].
  rewrite Hfw. cbn [mbind option_bind]. done.
Qed.

(** [NLLLoss] refuses a number of targets other than the number of rows,
    and a target that is neither a class nor the ignored index: a label
    beyond the ten outputs makes the loss fail rather than be skipped. *)
Theorem nll_loss_rejects (input : tensor R) labels B C :
  sizes input = [B; C] →
  (sizes labels ≠ [B] → nll input labels = None)
  ∧ (∀ t, t ∈ data labels → t ≠ -100 → ¬ (0 <= t < C) →
       nll input labels = None).
Proof.
  intros Hsi. unfold nll_loss. rewrite Hsi. split.
  - intros Hsl. by rewrite bool_decide_eq_false_2.
  - intros t Ht H100 Hout. destruct (bool_decide _); [|done].
    cbn [numel_of foldr].
    destruct (mapM _ _) as [picks|] eqn:Hm; [|done]. exfalso.
    apply list_elem_of_lookup in Ht as [i Hi].
    assert (is_Some (mapM (λ pt : nat * Z,
                pick (data input) (Z.to_nat C) (Z.to_nat 1) pt.1 pt.2)
              (zip (seq 0 (length (data labels))) (data labels)))) as Hsome
      by (by eexists).
    apply mapM_is_Some_1 in Hsome.
    assert (zip (seq 0 (length (data labels))) (data labels) !! i
            = Some (i, t)) as Hz.
    { apply lookup_zip_with_Some. exists i, t. split_and!; [done| |done].
      apply lookup_seq. split; [done|by eapply lookup_lt_Some]. }
    apply (proj1 (Forall_lookup _ _) Hsome) in Hz as [r Hr].
    cbn [compose fst snd] in Hr. unfold pick in Hr.
    destruct (Z.eqb_spec t (-100)); [done|].
    destruct (Z.leb_spec 0 t); destruct (Z.ltb_spec t (Z.of_nat (Z.to_nat C)));
      cbn [andb] in Hr; try done. lia.
Qed.

(** The last cell of Part 3: the first image of a batch, viewed as one row
    of 784 elements, goes through the model, which returns one row of ten
    log-probabilities. *)
Theorem predict_first_image (w1 b1 w2 b2 w3 b3 : list R) images B :
  is_parameters w1 b1 w2 b2 w3 b3 = true →
  is_images B images = true → 1 <= B →
  ∃ img logps,
    first_image images = Some img
    ∧ img = Tensor [1; 784] (take 784 (data images))
    ∧ predict Rzero Radd Rmul Rsub Rrelu Rexp Rlog w1 b1 w2 b2 w3 b3 images
      = Some logps
    ∧ sizes logps = [1; 10].
Proof.
  intros Hp [Hsi Hli]%is_images_spec HB.
  assert (Hsel : select images 0
            = Some (Tensor [1; 28; 28] (take 784 (data images)))).
  { unfold select. rewrite Hsi. cbn [Z.ltb Z.compare Z.leb].
    destruct (Z.ltb_spec 0 B); [|lia]. cbn [andb]. by rewrite drop_0. }
  assert (Hlen : length (take 784 (data images)) = 784%nat).
  { rewrite length_take. unfold len in Hli. lia. }
  assert (Himg : first_image images
            = Some (Tensor [1; 784] (take 784 (data images)))).
  { unfold first_image. rewrite Hsel. cbn [mbind option_bind].
    unfold view, infer_size. cbn [sizes data]. done. }
  destruct (model_forward_batch w1 b1 w2 b2 w3 b3
              (Tensor [1; 784] (take 784 (data images))) 1 Hp)
    as (logps & Hfw & Hs & _); [done|lia|].
  eexists _, logps. split_and!; [done|done| |done].
  unfold predict. rewrite Himg. cbn [mbind option_bind]. exact Hfw.
Qed.

End ClassifierCells.

Section ClassifierCellsExamples.
Import Torch NN Shape Loss CellExamples.

Local Abbreviation forwardZ :=
  (run 0 Z.add Z.mul Z.sub (Z.max 0) (Z.pow 2) Z.log2).

(** A batch that was not flattened is refused by both networks. *)
Lemma model_refuses_other_widths_witness :
  sizes images = [64; 1; 28] ++ [28] ∧ 28 ≠ 784
  ∧ forwardZ (model w1 b1 w2 b2 w3 b3) images = None
  ∧ forwardZ (logits_model w1 b1 w2 b2 w3 b3) images = None.
Proof.
  split; [reflexivity|]. split; [lia|].
  apply (model_refuses_other_widths 0 Z.add Z.mul Z.sub (Z.max 0) (Z.pow 2)
           Z.log2 w1 b1 w2 b2 w3 b3 images [64; 1; 28] 28);
    [reflexivity | lia].
Defined.

Lemma model_on_single_vector_witness :
  is_parameters w1 b1 w2 b2 w3 b3 = true
  ∧ sizes (Tensor [784] (replicate 784 1)) = [784]
  ∧ (∃ y, forwardZ (logits_model w1 b1 w2 b2 w3 b3)
            (Tensor [784] (replicate 784 1)) = Some y
        ∧ sizes y = [10])
  ∧ forwardZ (model w1 b1 w2 b2 w3 b3) (Tensor [784] (replicate 784 1))
    = None.
Proof.
  split; [vm_compute; reflexivity|]. split; [reflexivity|].
  apply (model_on_single_vector 0 Z.add Z.mul Z.sub (Z.max 0) (Z.pow 2)
           Z.log2 w1 b1 w2 b2 w3 b3 (Tensor [784] (replicate 784 1)));
    [vm_compute; reflexivity | reflexivity].
Defined.

Lemma In4_loss_defined_witness :
  is_parameters w1 b1 w2 b2 w3 b3 = true
  ∧ is_images 64 images = true ∧ is_labels 64 labels = true ∧ 1 <= 64
  ∧ ∃ x logp loss,
      flatten images = Some x ∧ sizes x = [64; 784]
      ∧ forwardZ (model w1 b1 w2 b2 w3 b3) x = Some logp
      ∧ sizes logp = [64; 10]
      ∧ In4_loss 0 Z.add Z.mul Z.sub Z.div Z.opp (Z.max 0) (Z.pow 2) Z.log2
          Z.of_nat w1 b1 w2 b2 w3 b3 images labels = Some loss.
Proof.
  split; [vm_compute; reflexivity|]. split; [vm_compute; reflexivity|].
  split; [vm_compute; reflexivity|]. split; [lia|].
  apply (In4_loss_defined 0 Z.add Z.mul Z.sub Z.div Z.opp (Z.max 0) (Z.pow 2)
           Z.log2 Z.of_nat w1 b1 w2 b2 w3 b3 images labels 64);
    [vm_compute; reflexivity | vm_compute; reflexivity
    | vm_compute; reflexivity | lia].
Defined.

(** Two rows of three log-probabilities: one target too few, and a target
    beyond the three classes. *)
Lemma nll_loss_rejects_witness :
  sizes (Tensor [2; 3] [-1; -2; -3; -3; -2; -1]) = [2; 3]
  ∧ (sizes (Tensor [2] [0; 3]) ≠ [2] →
     nll_loss 0 Z.add Z.div Z.opp Z.of_nat
       (Tensor [2; 3] [-1; -2; -3; -3; -2; -1]) (Tensor [2] [0; 3]) = None)
  ∧ (∀ t, t ∈ data (Tensor [2] [0; 3]) → t ≠ -100 → ¬ (0 <= t < 3) →
     nll_loss 0 Z.add Z.div Z.opp Z.of_nat
       (Tensor [2; 3] [-1; -2; -3; -3; -2; -1]) (Tensor [2] [0; 3]) = None).
Proof.
  split; [reflexivity|].
  apply (nll_loss_rejects 0 Z.add Z.div Z.opp Z.of_nat
           (Tensor [2; 3] [-1; -2; -3; -3; -2; -1]) (Tensor [2] [0; 3]) 2 3).
  reflexivity.
Defined.

(** The negative log-likelihood on these rows: defined for targets among
    the classes, with the ignored index left out of the mean, and refused
    for the target 3. *)
Example nll_loss_values :
  nll_loss 0 Z.add Z.div Z.opp Z.of_nat
    (Tensor [2; 3] [-1; -2; -3; -3; -2; -1]) (Tensor [2] [0; 1]) = Some 1
  ∧ nll_loss 0 Z.add Z.div Z.opp Z.of_nat
      (Tensor [2; 3] [-1; -2; -3; -3; -2; -1]) (Tensor [2] [-100; 0])
    = Some 3
  ∧ nll_loss 0 Z.add Z.div Z.opp Z.of_nat
      (Tensor [2; 3] [-1; -2; -3; -3; -2; -1]) (Tensor [2] [0; 3]) = None
  ∧ nll_loss 0 Z.add Z.div Z.opp Z.of_nat
      (Tensor [2; 3] [-1; -2; -3; -3; -2; -1]) (Tensor [1] [0]) = None.
Proof. by vm_compute. Qed.

Lemma predict_first_image_witness :
  is_parameters w1 b1 w2 b2 w3 b3 = true
  ∧ is_images 64 images = true ∧ 1 <= 64
  ∧ ∃ img logps,
      first_image images = Some img
      ∧ img = Tensor [1; 784] (take 784 (data images))
      ∧ predict 0 Z.add Z.mul Z.sub (Z.max 0) (Z.pow 2) Z.log2
          w1 b1 w2 b2 w3 b3 images = Some logps
      ∧ sizes logps = [1; 10].
Proof.
  split; [vm_compute; reflexivity|]. split; [vm_compute; reflexivity|].
  split; [lia|].
  apply (predict_first_image 0 Z.add Z.mul Z.sub (Z.max 0) (Z.pow 2) Z.log2
           w1 b1 w2 b2 w3 b3 images 64);
    [vm_compute; reflexivity | vm_compute; reflexivity | lia].
Defined.

End ClassifierCellsExamples.

(** * Properties of arrays and tensors over one memory *)

Section SharedMemory.
Import Torch Numpy.
Context {A : Type}.
Implicit Types (h : list (list A)) (x a b c : Store.view) (t : tensor A).

Lemma nread_spec h x t :
  read h x = Some t ↔
  ∃ st, h !! Store.storage x = Some st
    ∧ Forall (λ s, 0 <= s) (Store.vsizes x)
    ∧ 0 <= Store.offset x
    ∧ Store.offset x + numel_of (Store.vsizes x) <= len st
    ∧ t = Tensor (Store.vsizes x)
            (take (Z.to_nat (numel_of (Store.vsizes x)))
               (drop (Z.to_nat (Store.offset x)) st)).
Proof.
  unfold read. destruct (h !! Store.storage x) as [st|]; simpl.
  - destruct (forallb _ _ && _ && _) eqn:Hc.
    + apply andb_true_iff in Hc as [[Hn Ho]%andb_true_iff Hk].
      apply nonneg_spec in Hn. apply Z.leb_le in Ho, Hk.
      split; [intros [= <-]; eauto 10|]. intros (? & [= <-] & _ & _ & _ & ->).
      done.
    + split; [done|]. intros (? & [= <-] & Hn & Ho & Hk & _).
      apply nonneg_spec in Hn. apply Z.leb_le in Ho, Hk.
      by rewrite Hn, Ho, Hk in Hc.
  - split; [done|]. by intros (? & ? & _).
Qed.

(** What an object stands for depends on its storage alone. *)
Lemma nread_ext h h' x :
  h !! Store.storage x = h' !! Store.storage x → read h x = read h' x.
Proof. intros H. unfold read. by rewrite H. Qed.

Lemma nread_wf h x t :
  read h x = Some t →
  Forall (λ s, 0 <= s) (sizes t) ∧ len (data t) = numel_of (sizes t).
Proof.
  intros (st & _ & Hn & Ho & Hk & ->)%nread_spec. simpl.
  split; [done|]. pose proof (numel_nonneg _ Hn).
  unfold len in *. rewrite length_take, length_drop. lia.
Qed.

(** An operation in place on an object: the object, every object over the
    same elements included, stands for the new values; the other storages
    are as they were. *)
Lemma inplace_spec (f : A → A) h b t :
  read h b = Some t →
  ∃ h', inplace f b h = Some (b, h')
    ∧ read h' b = Some (Tensor (sizes t) (f <$> data t))
    ∧ length h' = length h
    ∧ ∀ s, s ≠ Store.storage b → h' !! s = h !! s.
Proof.
  intros Hb. pose proof Hb as (st & Hst & Hn & Ho & Hk & Ht)%nread_spec.
  destruct (nread_wf _ _ _ Hb) as [_ Hlen].
  pose proof (numel_nonneg _ Hn) as Hnum.
  eexists. split; [|split_and!].
  - unfold inplace. rewrite Hb. cbn [mbind option_bind]. rewrite Hst. done.
  - apply nread_spec. eexists. split_and!; [|done|done| |].
    + apply list_lookup_insert_eq. by eapply lookup_lt_Some.
    + assert (Hsz : sizes t = Store.vsizes b) by (by rewrite Ht).
      rewrite Hsz in Hlen. unfold len in *.
      rewrite !length_app, length_take, length_fmap, length_drop. lia.
    + assert (Hsz : sizes t = Store.vsizes b) by (by rewrite Ht).
      rewrite Hsz in *. f_equal.
      rewrite drop_app_length' by (rewrite length_take; unfold len in Hk; lia).
      rewrite take_app_length'; [done|].
      rewrite length_fmap. unfold len in Hlen. lia.
  - by rewrite length_insert.
  - intros s Hs. by apply list_lookup_insert_ne.
Qed.

End SharedMemory.

Section SharingCells.
Import Torch Numpy.
Implicit Types (h : list (list float)) (a b c : Store.view).

(** Part 1, the cells on NumPy: after [b = torch.from_numpy(a)] and
    [b.mul_(2)], the array [a] holds the doubled values, as [b] and
    [b.numpy()] do, because the three are over the same memory; the copy
    made by [torch.tensor(a)] before keeps the old values; and no other
    storage is touched. *)
Theorem mul__reaches_the_array h a (ta : tensor float) :
  read h a = Some ta →
  ∃ c b h',
    sharing_cells a h = Some (c, b, h')
    ∧ b = from_numpy a
    ∧ read h' a = Some (Tensor (sizes ta) ((λ x, x * 2)%float <$> data ta))
    ∧ read h' (numpy b) = read h' a
    ∧ read h' c = Some ta
    ∧ Store.storage c ≠ Store.storage a
    ∧ ∀ s, s ≠ Store.storage a → (s < length h)%nat → h' !! s = h !! s.
Proof.
  intros Ha. pose proof Ha as (st & Hst & _)%nread_spec.
  apply lookup_lt_Some in Hst as Hlt.
  destruct (nread_wf _ _ _ Ha) as [Hn Hl].
  set (c := Store.View (length h) 0 (sizes ta)).
  set (h1 := h ++ [data ta]).
  assert (Hc1 : read h1 c = Some ta).
  { apply nread_spec. exists (data ta). subst c h1.
    cbn [Store.storage Store.offset Store.vsizes]. split_and!; [|done|done|lia|].
    - rewrite lookup_app_r by lia. by rewrite Nat.sub_diag.
    - destruct ta as [sz d]. cbn [sizes data] in *. f_equal.
      change (Z.to_nat 0) with 0%nat. rewrite drop_0, take_ge; [done|].
      unfold len in Hl. lia. }
  assert (Ha1 : read h1 a = Some ta).
  { rewrite <- Ha. apply nread_ext. subst h1. by rewrite lookup_app_l. }
  destruct (inplace_spec (λ x, x * 2)%float h1 a ta Ha1)
    as (h2 & Hrun & Hb2 & Hlen & Hother).
  exists c, a, h2. split_and!.
  - unfold sharing_cells, torch_tensor. rewrite Ha. cbn [mbind option_bind].
    unfold mul_, from_numpy. fold h1. rewrite Hrun. done.
  - done.
  - done.
  - done.
  - rewrite <- Hc1. apply nread_ext. apply Hother. subst c. simpl. lia.
  - subst c. simpl. lia.
  - intros s Hs Hsl. rewrite (Hother s Hs). subst h1. by rewrite lookup_app_l.
Qed.

Lemma mul__reaches_the_array_witness :
  read [[9; 1; 2; 3; 4; 9]%float] (Store.View 0 1 [2; 2])
  = Some (Tensor [2; 2] [1; 2; 3; 4]%float)
  ∧ ∃ c b h',
      sharing_cells (Store.View 0 1 [2; 2]) [[9; 1; 2; 3; 4; 9]%float]
      = Some (c, b, h')
      ∧ b = from_numpy (Store.View 0 1 [2; 2])
      ∧ read h' (Store.View 0 1 [2; 2])
        = Some (Tensor (sizes (Tensor [2; 2] [1; 2; 3; 4]%float))
                  ((λ x, x * 2)%float
                     <$> data (Tensor [2; 2] [1; 2; 3; 4]%float)))
      ∧ read h' (numpy b) = read h' (Store.View 0 1 [2; 2])
      ∧ read h' c = Some (Tensor [2; 2] [1; 2; 3; 4]%float)
      ∧ Store.storage c ≠ Store.storage (Store.View 0 1 [2; 2])
      ∧ ∀ s, s ≠ Store.storage (Store.View 0 1 [2; 2]) →
          (s < length [[9; 1; 2; 3; 4; 9]%float])%nat →
          h' !! s = [[9; 1; 2; 3; 4; 9]%float] !! s.
Proof.
  split; [reflexivity|].
  apply (mul__reaches_the_array [[9; 1; 2; 3; 4; 9]%float]
           (Store.View 0 1 [2; 2]) (Tensor [2; 2] [1; 2; 3; 4]%float)).
  reflexivity.
Defined.

End SharingCells.
